(** * AI Wargame: a shallow embedding of [ai_wargame_skeleton.py]

    The development follows the layout of the Python module: unit and rule
    tables, coordinates, options, the game state with its legality and effect
    engine, the move enumerator, heuristic e1, the search tree with minimax
    and alpha-beta, and the per-turn time-ratio update of [suggest_move];
    then the winner test, the text forms of coordinates, the ordering of
    children before alpha-beta ([traverse_ordered]) and the generation of
    the children of a node ([generate_unit_moves]).

    Conventions.
    - Python [int] is [Z].  The scores of heuristic e1 are rationals [Q]:
      every float that e1 produces is a multiple of one half of small
      magnitude, hence exact in binary64.  The time ratio, the time limit
      and the clock are binary64 numbers, [float], with the operations and
      comparisons of IEEE 754 (Rocq's primitive floats), so that rounding is
      the program's.
    - The board is a list of rows, [list (list (option Unit))], indexed with
      stdpp's lookup and insert.  Every board access of the program sits
      behind [is_valid_coord]; on a [dim] x [dim] board ([wf_board]) no
      access is out of range.  Every state of play is such a board, with
      healths within 0..9 ([reachable_well_formed]).
    - A [Unit] object lives in exactly one cell of one board ([set] moves the
      reference, [clone] deep-copies the board), so in-place mutation of a
      unit is modelled by rewriting its cell.
    - The search tree has two readings.  While [Tree.add_node] builds it,
      node objects are shared between [self.nodes] and the [children] lists,
      and live in a store ([Tree], [NodeObject]).  The recursive algorithms
      see the finite tree below a node ([TreeNode]); [tree_view] reads the
      one out of the other and is total on built trees ([tree_view_total]).
    - A Python exception is [None] in an [option] result.
    - Text is [string] over [ascii], that is, of code points below 256.
    - The module globals [tree], [ID] and [time_limit_exceeded] are threaded
      through the generation ([Globals]); a reading of the clock is an
      argument. *)

From Stdlib Require Import PrimFloat ZArith QArith Qminmax Lqa Lia Bool.
From stdpp Require Import base list gmap strings.

Local Open Scope Z_scope.

(* A decimal literal of type [float] denotes the nearest binary64 value, as
   it does in Python. *)
Set Warnings "-inexact-float".

(** ** Unit types, players *)

Inductive UnitType := AI | Tech | Virus | Program | Firewall.

(** [UnitType.value] *)
Definition UnitType_value (t : UnitType) : nat :=
  match t with AI => 0 | Tech => 1 | Virus => 2 | Program => 3 | Firewall => 4 end%nat.

Definition UnitType_name (t : UnitType) : string :=
  match t with
  | AI => "AI" | Tech => "Tech" | Virus => "Virus"
  | Program => "Program" | Firewall => "Firewall"
  end.

Definition UnitType_eqb (a b : UnitType) : bool :=
  Nat.eqb (UnitType_value a) (UnitType_value b).

Inductive Player := Attacker | Defender.

Definition Player_eqb (a b : Player) : bool :=
  match a, b with
  | Attacker, Attacker | Defender, Defender => true
  | _, _ => false
  end.

Definition Player_name (p : Player) : string :=
  match p with Attacker => "Attacker" | Defender => "Defender" end.

(** [Player.next] *)
Definition Player_next (p : Player) : Player :=
  match p with Attacker => Defender | Defender => Attacker end.

Inductive GameType :=
  AttackerVsDefender | AttackerVsComp | CompVsDefender | CompVsComp.

(** ** Units and the rule tables *)

Record Unit := mkUnit { player : Player; type : UnitType; health : Z }.

Definition damage_table : list (list Z) :=
  [ [3; 3; 3; 3; 1]    (* AI *)
  ; [1; 1; 6; 1; 1]    (* Tech *)
  ; [9; 6; 1; 6; 1]    (* Virus *)
  ; [3; 3; 3; 3; 1]    (* Program *)
  ; [1; 1; 1; 1; 1] ]. (* Firewall *)

Definition repair_table : list (list Z) :=
  [ [0; 1; 1; 0; 0]    (* AI *)
  ; [3; 0; 0; 3; 3]    (* Tech *)
  ; [0; 0; 0; 0; 0]    (* Virus *)
  ; [0; 0; 0; 0; 0]    (* Program *)
  ; [0; 0; 0; 0; 0] ]. (* Firewall *)

(** [table[a.value][b.value]]; both indices are values of [UnitType], so the
    access is always in range of a 5 x 5 table. *)
Definition table_at (table : list (list Z)) (a b : UnitType) : Z :=
  default 0 (table !! UnitType_value a ≫= (.!! UnitType_value b)).

(** [Unit.is_alive] *)
Definition is_alive (u : Unit) : bool := 0 <? health u.

(** [Unit.mod_health]: add the delta, then clamp into 0..9. *)
Definition Unit_mod_health (u : Unit) (health_delta : Z) : Unit :=
  let h := health u + health_delta in
  mkUnit (player u) (type u) (if h <? 0 then 0 else if 9 <? h then 9 else h).

(** [Unit.damage_amount] *)
Definition damage_amount (u target : Unit) : Z :=
  let amount := table_at damage_table (type u) (type target) in
  if health target - amount <? 0 then health target else amount.

(** [Unit.repair_amount] *)
Definition repair_amount (u target : Unit) : Z :=
  let amount := table_at repair_table (type u) (type target) in
  if 9 <? health target + amount then 9 - health target else amount.

(** ** Coordinates *)

Record Coord := mkCoord { row : Z; col : Z }.

(** Dataclass equality: field by field. *)
Definition Coord_eqb (a b : Coord) : bool :=
  (row a =? row b) && (col a =? col b).

(** [Coord.iter_adjacent] *)
Definition iter_adjacent (c : Coord) : list Coord :=
  [ mkCoord (row c - 1) (col c)
  ; mkCoord (row c) (col c - 1)
  ; mkCoord (row c + 1) (col c)
  ; mkCoord (row c) (col c + 1) ].

(** [Coord.iter_all8_adjacent] *)
Definition iter_all8_adjacent (c : Coord) : list Coord :=
  [ mkCoord (row c - 1) (col c)
  ; mkCoord (row c + 1) (col c)
  ; mkCoord (row c) (col c - 1)
  ; mkCoord (row c) (col c + 1)
  ; mkCoord (row c - 1) (col c - 1)
  ; mkCoord (row c - 1) (col c + 1)
  ; mkCoord (row c + 1) (col c - 1)
  ; mkCoord (row c + 1) (col c + 1) ].

Record CoordPair := mkCoordPair { src : Coord; dst : Coord }.

(** [CoordPair.iter_rectangle]: row-major over the closed rectangle. *)
Definition iter_rectangle (p : CoordPair) : list Coord :=
  r ← seqZ (row (src p)) (row (dst p) + 1 - row (src p));
  c ← seqZ (col (src p)) (col (dst p) + 1 - col (src p));
  [mkCoord r c].

(** [CoordPair.from_dim] *)
Definition from_dim (dim : Z) : CoordPair :=
  mkCoordPair (mkCoord 0 0) (mkCoord (dim - 1) (dim - 1)).

(** ** Options *)

Record Options := mkOptions {
  dim : Z;
  max_depth : Z;
  min_depth : Z;
  max_time : float;
  game_type : GameType;
  alpha_beta : bool;
  max_turns : option Z;
  randomize_moves : bool;
  broker : option string
}.

(** The dataclass defaults. *)
Definition default_Options : Options :=
  mkOptions 5 4 2 5%float AttackerVsDefender true (Some 100) false None.

(** ** The game state *)

Abbreviation Board := (list (list (option Unit))) (only parsing).

(** The dataclass [Game]; its [stats] field (timing statistics) is not
    read by any decision of the program and is left out. *)
Record Game := mkGame {
  board : Board;
  next_player : Player;
  turns_played : Z;
  options : Options;
  _attacker_has_ai : bool;
  _defender_has_ai : bool
}.

Definition with_board (self : Game) (b : Board) : Game :=
  mkGame b (next_player self) (turns_played self) (options self)
         (_attacker_has_ai self) (_defender_has_ai self).

(** [Game.is_valid_coord] *)
Definition is_valid_coord (self : Game) (coord : Coord) : bool :=
  let dim := dim (options self) in
  if (row coord <? 0) || (dim <=? row coord) || (col coord <? 0) || (dim <=? col coord)
  then false else true.

(** [self.board[coord.row][coord.col]], for a coordinate that passed
    [is_valid_coord] (all call sites). *)
Definition board_cell (b : Board) (coord : Coord) : option Unit :=
  mjoin (b !! Z.to_nat (row coord) ≫= (.!! Z.to_nat (col coord))).

(** [Game.is_empty] *)
Definition is_empty (self : Game) (coord : Coord) : bool :=
  match board_cell (board self) coord with None => true | Some _ => false end.

(** [Game.get] *)
Definition get (self : Game) (coord : Coord) : option Unit :=
  if is_valid_coord self coord then board_cell (board self) coord else None.

(** [Game.set] *)
Definition set (self : Game) (coord : Coord) (unit : option Unit) : Game :=
  if is_valid_coord self coord
  then with_board self
         (alter (fun r => <[Z.to_nat (col coord) := unit]> r)
                (Z.to_nat (row coord)) (board self))
  else self.

(** [Game.remove_dead] *)
Definition remove_dead (self : Game) (coord : Coord) : Game :=
  match get self coord with
  | Some unit =>
      if negb (is_alive unit) then
        let self1 := set self coord None in
        if UnitType_eqb (type unit) AI then
          if Player_eqb (player unit) Attacker
          then mkGame (board self1) (next_player self1) (turns_played self1)
                      (options self1) false (_defender_has_ai self1)
          else mkGame (board self1) (next_player self1) (turns_played self1)
                      (options self1) (_attacker_has_ai self1) false
        else self1
      else self
  | None => self
  end.

(** [Game.mod_health]: the unit object in the cell is mutated in place, then
    the cell is checked for death. *)
Definition mod_health (self : Game) (coord : Coord) (health_delta : Z) : Game :=
  match get self coord with
  | Some target =>
      remove_dead (set self coord (Some (Unit_mod_health target health_delta))) coord
  | None => self
  end.

(** [Game.__post_init__]: the default starting placement. *)
Definition post_init (opts : Options) : Game :=
  let dim := dim opts in
  let md := dim - 1 in
  let self0 :=
    mkGame (replicate (Z.to_nat dim) (replicate (Z.to_nat dim) None))
           Attacker 0 opts true true in
  let place g rc u := set g (mkCoord (fst rc) (snd rc)) (Some u) in
  foldl (fun g '(rc, u) => place g rc u) self0
    [ ((0, 0), mkUnit Defender AI 9)
    ; ((1, 0), mkUnit Defender Tech 9)
    ; ((0, 1), mkUnit Defender Tech 9)
    ; ((2, 0), mkUnit Defender Firewall 9)
    ; ((0, 2), mkUnit Defender Firewall 9)
    ; ((1, 1), mkUnit Defender Program 9)
    ; ((md, md), mkUnit Attacker AI 9)
    ; ((md - 1, md), mkUnit Attacker Virus 9)
    ; ((md, md - 1), mkUnit Attacker Virus 9)
    ; ((md - 2, md), mkUnit Attacker Program 9)
    ; ((md, md - 2), mkUnit Attacker Program 9)
    ; ((md - 1, md - 1), mkUnit Attacker Firewall 9) ].

(** ** Legality: [Game.is_valid_move]

    The method is a sequence of guarded [return] statements.  A guard that
    returns is [Some result]; [ret ;;; rest] runs [rest] when the guard fell
    through. *)

Definition or_continue {A} (ret : option A) (rest : A) : A :=
  match ret with Some r => r | None => rest end.

Notation "ret ;;; rest" := (or_continue ret rest)
  (at level 100, right associativity, only parsing).

(** Test of an attribute of an [Optional[Unit]].  In the program every such
    test stands behind [not self.is_empty(..)] (short-circuit [and], or an
    enclosing [if]), so the [None] case is never evaluated there. *)
Definition on_unit (o : option Unit) (f : Unit -> bool) : bool :=
  match o with Some u => f u | None => false end.

Definition MoveResult : Type := bool * string * option string.

Definition is_combat_type (t : UnitType) : bool :=
  UnitType_eqb t AI || UnitType_eqb t Firewall || UnitType_eqb t Program.

Definition is_valid_move (self : Game) (coords : CoordPair) : MoveResult :=
  let invalid (msg : string) : MoveResult := (false, "Invalid move", Some msg) in
  (if negb (is_valid_coord self (src coords)) || negb (is_valid_coord self (dst coords))
   then Some (invalid "Sorry, src or dest not on board") else None) ;;;
  let src_u := get self (src coords) in
  let dst_u := get self (dst coords) in
  match src_u with
  | None => invalid "Sorry, source is empty, no player found at location."
  | Some s =>
  (if is_empty self (src coords)
   then Some (invalid "Sorry, source is empty, no player found at location.")
   else None) ;;;
  (if negb (Player_eqb (player s) (next_player self))
   then Some (invalid ("Sorry, this is " +:+ Player_name (next_player self) +:+ "'s turn."))
   else None) ;;;
  (if negb (is_empty self (dst coords)) && Coord_eqb (src coords) (dst coords)
   then Some (true, "self-destruct", None) else None) ;;;
  (if negb (existsb (Coord_eqb (dst coords)) (iter_adjacent (src coords)))
   then Some (invalid "Sorry, this destination is not adjacent to the source.")
   else None) ;;;
  (if UnitType_eqb (type s) AI && negb (is_empty self (dst coords))
      && on_unit dst_u (fun d => Player_eqb (player d) (player s))
   then
     if on_unit dst_u (fun d =>
          (UnitType_eqb (type d) Tech || UnitType_eqb (type d) Virus) && (health d <? 9))
     then Some (true, "repair", None)
     else Some (invalid ("Sorry, AI cannot repair player "
                         +:+ from_option (fun d => Player_name (player d)) EmptyString dst_u
                         +:+ "."))
   else None) ;;;
  (if is_combat_type (type s) then
     if negb (is_empty self (dst coords))
        && on_unit dst_u (fun d => negb (Player_eqb (player d) (player s)))
     then Some (true, "attack", None)
     else
       if existsb (fun adjacent_coordinate =>
                     is_valid_coord self adjacent_coordinate
                     && negb (is_empty self adjacent_coordinate)
                     && on_unit (get self adjacent_coordinate)
                          (fun a => negb (Player_eqb (player a) (player s))))
                  (iter_adjacent (src coords))
       then Some (invalid "Sorry, this player is engaged in combat.")
       else None
   else None) ;;;
  (if UnitType_eqb (type s) Tech || UnitType_eqb (type s) Virus then
     if negb (is_empty self (dst coords)) then
       if on_unit dst_u (fun d => negb (Player_eqb (player d) (player s)))
       then Some (true, "attack", None)
       else if UnitType_eqb (type s) Tech
               && on_unit dst_u (fun d => Player_eqb (player d) (player s))
       then
         if on_unit dst_u (fun d =>
              (UnitType_eqb (type d) AI || UnitType_eqb (type d) Firewall
               || UnitType_eqb (type d) Program) && (health d <? 9))
         then Some (true, "repair", None)
         else None
       else Some (invalid "Sorry, cannot repair, health is already maxed out")
     else None
   else None) ;;;
  (if Player_eqb (player s) Attacker && is_combat_type (type s)
      && ((row (src coords) <? row (dst coords)) || (col (src coords) <? col (dst coords)))
   then Some (invalid ("An attacker piece of type " +:+ UnitType_name (type s)
                       +:+ " can only move up or left"))
   else None) ;;;
  (if Player_eqb (player s) Defender && is_combat_type (type s)
      && ((row (dst coords) <? row (src coords)) || (col (dst coords) <? col (src coords)))
   then Some (invalid ("A defender piece of type: " +:+ UnitType_name (type s)
                       +:+ " can only move down or right"))
   else None) ;;;
  (bool_decide (dst_u = None), "valid move", None)
  end.

(** ** Effects *)

(** [Game.perform_attack].  Both damages are read from the table before
    either unit is touched.  [None]: attribute access on an empty cell. *)
Definition perform_attack (self : Game) (coords : CoordPair) : option Game :=
  s ← get self (src coords);
  d ← get self (dst coords);
  let dstDamage := table_at damage_table (type s) (type d) in
  let srcDamage := table_at damage_table (type d) (type s) in
  let self1 := mod_health self (src coords) (- srcDamage) in
  Some (mod_health self1 (dst coords) (- dstDamage)).

(** [Game.perform_repair] *)
Definition perform_repair (self : Game) (coords : CoordPair) : option Game :=
  s ← get self (src coords);
  d ← get self (dst coords);
  let repair := table_at repair_table (type s) (type d) in
  Some (mod_health self (dst coords) repair).

(** [Game.perform_self_destruction] *)
Definition perform_self_destruction (self : Game) (coords : CoordPair) : option Game :=
  s ← get self (src coords);
  let self1 := mod_health self (src coords) (- health s) in
  Some (foldl (fun g adjacent_coordinate =>
                 if is_valid_coord g adjacent_coordinate
                    && negb (is_empty g adjacent_coordinate)
                 then mod_health g adjacent_coordinate (-2)
                 else g)
              self1 (iter_all8_adjacent (src coords))).

(** [Game.perform_move]: validate and perform a move.  The result is the
    returned pair together with the state after the call.  [None] stands for
    an exception, or for control reaching the end of the [if is_valid] block
    without a [return] (the callers unpack the result as a pair).  The trace
    file written by [log_move] and the printed error are not part of the
    game state and are left out. *)
Definition perform_move (self : Game) (coords : CoordPair) : option ((bool * string) * Game) :=
  let '(is_valid, move_type, error) := is_valid_move self coords in
  if is_valid then
    if String.eqb move_type "valid move" then
      let self1 := set self (dst coords) (get self (src coords)) in
      Some ((true, "Move initiated"), set self1 (src coords) None)
    else if String.eqb move_type "attack" then
      g ← perform_attack self coords; Some ((true, "Attack initiated"), g)
    else if String.eqb move_type "repair" then
      g ← perform_repair self coords; Some ((true, "Repair initiated"), g)
    else if String.eqb move_type "self-destruct" then
      g ← perform_self_destruction self coords;
      Some ((true, "Self-destruction initiated"), g)
    else None
  else Some ((false, "Invalid move"), self).

(** [Game.ai_move]: as [perform_move] without the trace; here the code
    after the [if is_valid] block is the rejection itself, so a valid move of
    an unknown type would be answered with [(False, "Invalid move")]. *)
Definition ai_move (self : Game) (coords : CoordPair) : option ((bool * string) * Game) :=
  let '(is_valid, move_type, error) := is_valid_move self coords in
  if is_valid then
    if String.eqb move_type "valid move" then
      let self1 := set self (dst coords) (get self (src coords)) in
      Some ((true, "Move initiated"), set self1 (src coords) None)
    else if String.eqb move_type "attack" then
      g ← perform_attack self coords; Some ((true, "Attack initiated"), g)
    else if String.eqb move_type "repair" then
      g ← perform_repair self coords; Some ((true, "Repair initiated"), g)
    else if String.eqb move_type "self-destruct" then
      g ← perform_self_destruction self coords;
      Some ((true, "Self-destruction initiated"), g)
    else Some ((false, "Invalid move"), self)
  else Some ((false, "Invalid move"), self).

(** [Game.next_turn] *)
Definition next_turn (self : Game) : Game :=
  mkGame (board self) (Player_next (next_player self)) (turns_played self + 1)
         (options self) (_attacker_has_ai self) (_defender_has_ai self).

(** ** Move enumeration *)

(** [Game.player_units] *)
Definition player_units (self : Game) (p : Player) : list (Coord * Unit) :=
  omap (fun coord =>
          match get self coord with
          | Some unit => if Player_eqb (player unit) p then Some (coord, unit) else None
          | None => None
          end)
       (iter_rectangle (from_dim (dim (options self)))).

(** Truth value of the tuple that [is_valid_move] returns, as tested by
    [if self.is_valid_move(move):].  A non-empty tuple is true, whatever its
    components. *)
Definition tuple_truth (r : MoveResult) : bool := true.

(** [Game.move_candidates] *)
Definition move_candidates (self : Game) : list CoordPair :=
  '(src, _) ← player_units self (next_player self);
  (dst ← iter_adjacent src;
   if tuple_truth (is_valid_move self (mkCoordPair src dst))
   then [mkCoordPair src dst] else [])
  ++ [mkCoordPair src src].

(** ** Heuristic e1 *)

(** One round of either loop of [heuristic_1]: the score after the [if] /
    [elif] chain on the unit's type. *)
Definition e1_add (score : Q) (unit : Unit) : Q :=
  match type unit with
  | Virus => score + 20 + inject_Z (health unit) * 2
  | Tech => score + 20 + inject_Z (health unit) * 2
  | Firewall => score + 15 + inject_Z (health unit) * (3 # 2)
  | Program => score + 10 + inject_Z (health unit) * 1
  | AI => score + 9999
  end%Q.

(** [Game.heuristic_1] *)
Definition heuristic_1 (self : Game) : Q :=
  let attacker_score :=
    foldl (fun score '(_, unit) => e1_add score unit) 0%Q
          (player_units self Attacker) in
  let defender_score :=
    foldl (fun score '(_, unit) => e1_add score unit) 0%Q
          (player_units self Defender) in
  (attacker_score - defender_score)%Q.

(** ** Scores

    Search values are Python numbers together with [float("-inf")] and
    [float("inf")], the initial extremes and bounds of the two algorithms. *)

Inductive Score := NegInf | Num (q : Q) | PosInf.

(** [a < b] on rationals, as a boolean. *)
Definition Qltb (a b : Q) : bool := if Qlt_le_dec a b then true else false.

(** [a < b] on scores. *)
Definition Score_ltb (a b : Score) : bool :=
  match a, b with
  | NegInf, NegInf => false
  | NegInf, _ => true
  | Num _, NegInf => false
  | Num x, Num y => Qltb x y
  | Num _, PosInf => true
  | PosInf, _ => false
  end.

(** [a <= b] on scores. *)
Definition Score_leb (a b : Score) : bool := negb (Score_ltb b a).

(** ** The search tree, as the algorithms traverse it

    [minimax] and [_alpha_beta_pruning] walk the object graph below a node
    through [node.children].  Nodes are only ever appended below an existing
    node ([Tree.add_node]), so that graph is a finite tree; [TreeNode] is its
    value.  Assigning [node.e1] or [node.e2] rebuilds the node. *)

#[warnings="-register-all"]
Inductive TreeNode := mkTreeNode {
  node_id : Z;   (* [id] *)
  game : Game;
  move : option CoordPair;
  e1 : option Score;
  e2 : option Score;
  children : list TreeNode;
  max : bool;
  depth : Z
}.

Definition set_e1 (node : TreeNode) (v : Score) (cs : list TreeNode) : TreeNode :=
  mkTreeNode (node_id node) (game node) (move node) (Some v) (e2 node) cs
             (max node) (depth node).

Definition set_e2 (node : TreeNode) (v : Score) (cs : list TreeNode) : TreeNode :=
  mkTreeNode (node_id node) (game node) (move node) (e1 node) (Some v) cs
             (max node) (depth node).

(** The evaluation counters of [Tree]: [self.total_evals], [self.stats]. *)
Record Counters := mkCounters { total_evals : Z; stats : gmap Z Z }.

(** [Tree.calculate_evaluations] *)
Definition calculate_evaluations (self : Counters) (depth : Z) : Counters :=
  mkCounters (total_evals self + 1)
             (<[depth := default 0 (stats self !! depth) + 1]> (stats self)).

(** What a call returns and leaves behind: the returned pair
    [(value, child)], the node after the call, the counters after the call. *)
Definition SearchResult : Type := (Score * option TreeNode) * TreeNode * Counters.

Definition result_value (r : SearchResult) : Score := fst (fst (fst r)).
Definition result_child (r : SearchResult) : option TreeNode := snd (fst (fst r)).
Definition result_node (r : SearchResult) : TreeNode := snd (fst r).
Definition result_counters (r : SearchResult) : Counters := snd r.

Section Search.

(** The leaf evaluation.  [Tree.minimax] calls [node.game.heuristic_1()];
    [Tree._alpha_beta_pruning] calls [node.game.heuristic_2()], which draws
    random numbers, so that its value is a function of the leaf visited
    rather than of the state alone. *)
Variable heuristic : TreeNode -> Q.

(** State of the [for child in node.children] loop of [minimax]: extreme
    value, its child, the children already visited, the counters. *)
Definition MinimaxLoop : Type := Score * option TreeNode * list TreeNode * Counters.

(** The loop of a maximizing ([is_max]) or minimizing node; [rec] is the
    recursive call. *)
Definition minimax_loop (rec : TreeNode -> Counters -> SearchResult) (is_max : bool)
  : list TreeNode -> MinimaxLoop -> MinimaxLoop :=
  fix loop (cs : list TreeNode) (acc : MinimaxLoop) : MinimaxLoop :=
    match cs with
    | [] => acc
    | child :: rest =>
        let '(best_value, best_child, visited, self) := acc in
        let r := rec child self in
        let child_value := result_value r in
        let improves :=
          if is_max then Score_ltb best_value child_value
          else Score_ltb child_value best_value in
        loop rest
          (if improves
           then (child_value, Some (result_node r), visited ++ [result_node r],
                 result_counters r)
           else (best_value, best_child, visited ++ [result_node r],
                 result_counters r))
    end.

(** [Tree.minimax] *)
Fixpoint minimax (node : TreeNode) (self : Counters) {struct node} : SearchResult :=
  match node with
  | mkTreeNode _ _ _ _ _ cs is_max d =>
      match cs with
      | [] =>
          let self1 := calculate_evaluations self d in
          let v := Num (heuristic node) in
          ((v, None), set_e1 node v [], self1)
      | _ :: _ =>
          let '(v, child, cs', self1) :=
            minimax_loop (fun c s => minimax c s) is_max cs
              (if is_max then NegInf else PosInf, None, [], self) in
          ((v, child), set_e1 node v cs', self1)
      end
  end.

(** State of the loop of [_alpha_beta_pruning]: bounds, best node, the
    children already visited, the counters. *)
Definition AlphaBetaLoop : Type :=
  Score * Score * option TreeNode * list TreeNode * Counters.

(** The loop with its [break]: the remaining children stay as they are. *)
Definition alpha_beta_loop
    (rec : TreeNode -> Score -> Score -> Counters -> SearchResult) (is_max : bool)
  : list TreeNode -> AlphaBetaLoop -> AlphaBetaLoop :=
  fix loop (cs : list TreeNode) (acc : AlphaBetaLoop) : AlphaBetaLoop :=
    match cs with
    | [] => acc
    | child :: rest =>
        let '(alpha, beta, best_node, visited, self) := acc in
        let r := rec child alpha beta self in
        let v := result_value r in
        let visited1 := visited ++ [result_node r] in
        let '(alpha1, beta1, best_node1) :=
          if is_max then
            if Score_ltb alpha v then (v, beta, Some (result_node r))
            else (alpha, beta, best_node)
          else
            if Score_ltb v beta then (alpha, v, Some (result_node r))
            else (alpha, beta, best_node) in
        if Score_leb beta1 alpha1
        then (alpha1, beta1, best_node1, visited1 ++ rest, result_counters r)
        else loop rest (alpha1, beta1, best_node1, visited1, result_counters r)
    end.

(** [Tree._alpha_beta_pruning] *)
Fixpoint _alpha_beta_pruning (node : TreeNode) (alpha beta : Score) (self : Counters)
    {struct node} : SearchResult :=
  match node with
  | mkTreeNode _ _ _ _ _ cs is_max d =>
      match cs with
      | [] =>
          let self1 := calculate_evaluations self d in
          let v := Num (heuristic node) in
          ((v, Some (set_e2 node v [])), set_e2 node v [], self1)
      | _ :: _ =>
          let '(alpha1, beta1, best_node, cs', self1) :=
            alpha_beta_loop (fun c a b s => _alpha_beta_pruning c a b s) is_max cs
              (alpha, beta, None, [], self) in
          let v := if is_max then alpha1 else beta1 in
          ((v, best_node), set_e2 node v cs', self1)
      end
  end.

(** [Tree.alpha_beta_pruning] *)
Definition alpha_beta_pruning (node : TreeNode) (self : Counters) : SearchResult :=
  _alpha_beta_pruning node NegInf PosInf self.

(** The optimal value of a tree, in the words of the specification: a
    childless node is worth its leaf score, a maximizing node the maximum
    of its children's values, a minimizing node the minimum. *)
Definition Score_max (a b : Score) : Score := if Score_ltb a b then b else a.
Definition Score_min (a b : Score) : Score := if Score_ltb b a then b else a.

Fixpoint optimal_value (node : TreeNode) : Score :=
  match node with
  | mkTreeNode _ _ _ _ _ cs is_max _ =>
      match cs with
      | [] => Num (heuristic node)
      | _ :: _ =>
          if is_max
          then foldr Score_max NegInf (map optimal_value cs)
          else foldr Score_min PosInf (map optimal_value cs)
      end
  end.

(** Number of childless nodes below (and including) a node. *)
Fixpoint leaf_count (node : TreeNode) : Z :=
  match node with
  | mkTreeNode _ _ _ _ _ cs _ _ =>
      match cs with
      | [] => 1
      | _ :: _ => foldr Z.add 0 (map leaf_count cs)
      end
  end.

End Search.

(** ** The search tree, as [Tree.add_node] builds it

    While the tree is built, node objects are shared: [self.nodes] maps an
    id to a node object, and the same object sits in its parent's
    [children] list.  Objects live in a store [objects] (a location is the
    position in the store); [nodes] and [children] hold locations. *)

Record NodeObject := mkNodeObject {
  obj_id : Z;
  obj_game : Game;
  obj_move : option CoordPair;
  obj_e1 : option Score;
  obj_e2 : option Score;
  obj_children : list nat;
  obj_max : bool;
  obj_depth : option Z   (* [None] until [add_node] assigns it *)
}.

Definition with_depth (n : NodeObject) (d : Z) : NodeObject :=
  mkNodeObject (obj_id n) (obj_game n) (obj_move n) (obj_e1 n) (obj_e2 n)
               (obj_children n) (obj_max n) (Some d).

Definition append_child (n : NodeObject) (child : nat) : NodeObject :=
  mkNodeObject (obj_id n) (obj_game n) (obj_move n) (obj_e1 n) (obj_e2 n)
               (obj_children n ++ [child]) (obj_max n) (obj_depth n).

Record Tree := mkTree {
  root : option nat;
  nodes : gmap Z nat;
  objects : list NodeObject;
  tree_counters : Counters;
  tree_depth : Z
}.

(** [Tree.__init__] *)
Definition Tree_init : Tree := mkTree None ∅ [] (mkCounters 0 ∅) 0.

(** [Tree.add_node].  [None] is a raised exception: [KeyError] when
    [parent] is not a key of [self.nodes], [TypeError] when the parent's
    depth is still [None] (which happens when [id] and [parent] coincide, the
    new node having just replaced its parent in [self.nodes]). *)
Definition add_node (self : Tree) (id : Z) (game : Game) (move : option CoordPair)
    (e1 e2 : option Score) (parent : option Z) : option Tree :=
  max_value ←
    match parent with
    | None => Some true
    | Some p => l ← nodes self !! p; n ← objects self !! l; Some (negb (obj_max n))
    end;
  let loc := length (objects self) in
  let node := mkNodeObject id game move e1 e2 [] max_value None in
  let objects1 := objects self ++ [node] in
  let nodes1 := <[id := loc]> (nodes self) in
  match parent with
  | None =>
      Some (mkTree (Some loc) nodes1 (<[loc := with_depth node 1]> objects1)
                   (tree_counters self) (tree_depth self))
  | Some p =>
      ploc ← nodes1 !! p;
      parent_node ← objects1 !! ploc;
      d ← obj_depth parent_node;
      let objects2 := <[loc := with_depth node (d + 1)]> objects1 in
      parent_node2 ← objects2 !! ploc;
      Some (mkTree (root self) nodes1
                   (<[ploc := append_child parent_node2 loc]> objects2)
                   (tree_counters self) (tree_depth self))
  end.

(** One call [tree.add_node(id, game, move, e1, e2, parent)]. *)
Record AddCall := mkAddCall {
  call_id : Z;
  call_game : Game;
  call_move : option CoordPair;
  call_e1 : option Score;
  call_e2 : option Score;
  call_parent : option Z
}.

(** A tree obtained from [Tree()] by a sequence of calls, each of which
    returned normally. *)
Fixpoint build (self : Tree) (calls : list AddCall) : option Tree :=
  match calls with
  | [] => Some self
  | c :: rest =>
      self1 ← add_node self (call_id c) (call_game c) (call_move c)
                       (call_e1 c) (call_e2 c) (call_parent c);
      build self1 rest
  end.

(** ** The time-ratio update of [Game.suggest_move]

    The module globals read and written by the update. *)

Record TimeGlobals := mkTimeGlobals {
  last_algo_time : float;
  time_ratio : float;
  time_elapsed_last_move : float
}.

(** Python's [max(a, b)] and [min(a, b)]: the first argument unless the
    second is strictly better. *)
Definition py_max (a b : float) : float := if (a <? b)%float then b else a.
Definition py_min (a b : float) : float := if (b <? a)%float then b else a.

(** The value of [time_ratio] after the [if]/[elif] chain at the head of
    [suggest_move]. *)
Definition suggest_move_time_ratio (self : Game) (globals : TimeGlobals) : float :=
  let avg_ratio := 0.25%float in
  let lowest_ratio := 0.20%float in
  let highest_ratio := 0.85%float in
  let max_time := max_time (options self) in
  let time_ratio := time_ratio globals in
  if (last_algo_time globals =? 0)%float then
    if 6 <? max_depth (options self) then avg_ratio else (avg_ratio + 0.1)%float
  else if negb (alpha_beta (options self)) && (15 <? turns_played self) then
    avg_ratio
  else if (max_time - time_ratio * max_time - 0.5 <? last_algo_time globals)%float
          || (max_time - time_elapsed_last_move globals <? 0.2 * max_time)%float then
    py_max lowest_ratio (time_ratio - 0.40)%float
  else if (time_elapsed_last_move globals <? max_time - 1)%float then
    py_min highest_ratio (time_ratio + 0.01)%float
  else time_ratio.

(** [x], and [floor] when [x] is not above it. *)
Definition floored_at (floor x : float) : float :=
  if (floor <? x)%float then x else floor.

(** [x], and [cap] when [x] is not below it. *)
Definition capped_at (cap x : float) : float :=
  if (x <? cap)%float then x else cap.

(** The update in the words of the specification, as a function of whether
    this is the first move of the game, the previous algorithm runtime, the
    previous turn's elapsed time, the turns played, the algorithm choice,
    [max_depth], [max_time] and the prior ratio, in the arithmetic of the
    program.  What the previous turn left unused is [max_time] less its
    elapsed time; it left more than one second when it ended before
    [max_time - 1].  [None]: no rule applies. *)
Definition spec_time_ratio (first_move : bool)
    (prev_algo_runtime prev_elapsed : float) (turns : Z) (plain_minimax : bool)
    (max_depth : Z) (max_time ratio : float) : option float :=
  let unused := (max_time - prev_elapsed)%float in
  if first_move then
    Some (if bool_decide (max_depth > 6)%Z then 0.25%float else 0.35%float)
  else if plain_minimax && bool_decide (turns > 15)%Z then
    Some 0.25%float
  else if (max_time - ratio * max_time - 0.5 <? prev_algo_runtime)%float
          || (unused <? 0.2 * max_time)%float then
    Some (floored_at 0.20 (ratio - 0.40))%float
  else if (prev_elapsed <? max_time - 1)%float then
    Some (capped_at 0.85 (ratio + 0.01))%float
  else None.

(** ** The neighbours of a cell, in the words of the specification

    The up to eight orthogonal and diagonal neighbours of [c]: the cells
    other than [c] that are at most one row and at most one column away
    (fewer than eight of them lie on the board when [c] is on its edge). *)
Definition neighbour8 (c n : Coord) : Prop :=
  n ≠ c ∧ Z.abs (row n - row c) <= 1 ∧ Z.abs (col n - col c) <= 1.

(** ** Well-formed states and the states used in examples *)

(** A [dim] x [dim] board, as [__post_init__] allocates it. *)
Definition wf_board (self : Game) : Prop :=
  length (board self) = Z.to_nat (dim (options self))
  ∧ Forall (fun r => length r = Z.to_nat (dim (options self))) (board self).

(** Health of every unit on the board is within 0..9 (the range
    [Unit.mod_health] maintains). *)
Definition healths_ok (self : Game) : Prop :=
  Forall (Forall (fun cell : option Unit =>
                    match cell with
                    | Some u => 0 <= health u <= 9
                    | None => True
                    end)) (board self).

(** [Game()]: the default 5 x 5 game. *)
Definition initial_game : Game := post_init default_Options.

(** A default-options game whose board holds exactly the given units, with
    [p] to move. *)
Definition game_of_units (units : list (Coord * Unit)) (p : Player) : Game :=
  let d := Z.to_nat (dim default_Options) in
  foldl (fun g '(c, u) => set g c (Some u))
        (mkGame (replicate d (replicate d None)) p 0 default_Options true true)
        units.

(** A Defender Program at B1 facing an Attacker Virus at C1 and an Attacker
    Program at B2; both AIs in their corners, each next to a damaged unit of
    its own side. *)
Definition skirmish_units : list (Coord * Unit) :=
  [ (mkCoord 0 0, mkUnit Defender AI 9)
  ; (mkCoord 0 1, mkUnit Defender Tech 5)
  ; (mkCoord 1 1, mkUnit Defender Program 9)
  ; (mkCoord 2 1, mkUnit Attacker Virus 9)
  ; (mkCoord 1 2, mkUnit Attacker Program 9)
  ; (mkCoord 3 4, mkUnit Attacker Virus 8)
  ; (mkCoord 4 4, mkUnit Attacker AI 9) ].

Definition skirmish_game : Game := game_of_units skirmish_units Attacker.

(** What [Game.mod_health] leaves in a cell: the unit with its health
    modified, or nothing when that health is 0. *)
Definition damaged (cell : option Unit) (health_delta : Z) : option Unit :=
  match cell with
  | Some u =>
      let u' := Unit_mod_health u health_delta in
      if is_alive u' then Some u' else None
  | None => None
  end.

(** A unit whose health is lowered by [amount], not below 0; none when the
    health reaches 0. *)
Definition hit (u : Unit) (amount : Z) : option Unit :=
  let h := Z.max 0 (health u - amount) in
  if h =? 0 then None else Some (mkUnit (player u) (type u) h).

(** A unit whose health is raised by [amount], not above 9. *)
Definition repaired (u : Unit) (amount : Z) : Unit :=
  mkUnit (player u) (type u) (Z.min 9 (health u + amount)).

(** The shape invariant of a tree under construction.
    - the root has depth 1 and is maximizing;
    - along every parent-child edge the depth grows by one and the
      maximizing flag flips;
    - every node was either created as a root (depth 1, maximizing) or is in
      the [children] list of a node. *)
Definition root_ok (t : Tree) : Prop :=
  ∀ l, root t = Some l →
       ∃ n, objects t !! l = Some n ∧ obj_depth n = Some 1 ∧ obj_max n = true.

Definition edges_ok (t : Tree) : Prop :=
  ∀ p parent_node c,
    objects t !! p = Some parent_node → c ∈ obj_children parent_node →
    ∃ node d,
      objects t !! c = Some node
      ∧ obj_depth parent_node = Some d
      ∧ obj_depth node = Some (d + 1)
      ∧ obj_max node = negb (obj_max parent_node).

Definition nodes_placed (t : Tree) : Prop :=
  ∀ c node,
    objects t !! c = Some node →
    (obj_depth node = Some 1 ∧ obj_max node = true)
    ∨ (∃ p parent_node,
         objects t !! p = Some parent_node ∧ c ∈ obj_children parent_node).

Definition tree_invariant (t : Tree) : Prop :=
  root_ok t ∧ edges_ok t ∧ nodes_placed t.

(** The calls made for a root, one of its children and a grandchild. *)
Definition three_calls : list AddCall :=
  [ mkAddCall 0 initial_game None None None None
  ; mkAddCall 1 (next_turn initial_game)
      (Some (mkCoordPair (mkCoord 2 4) (mkCoord 1 4))) None None (Some 0)
  ; mkAddCall 2 initial_game
      (Some (mkCoordPair (mkCoord 1 1) (mkCoord 1 2))) None None (Some 1) ].

(** ** Order on scores, for stating and proving the search properties *)

Definition Score_lt (a b : Score) : Prop := Score_ltb a b = true.
Definition Score_le (a b : Score) : Prop := Score_ltb b a = false.

(** Equal as numbers. *)
Definition Score_eq (a b : Score) : Prop :=
  match a, b with
  | NegInf, NegInf | PosInf, PosInf => True
  | Num x, Num y => (x == y)%Q
  | _, _ => False
  end.

(** What a search with window [(alpha, beta)] may return, [v], at a node
    whose optimal value is [m]: a value not above [alpha] when [m] is not
    above [alpha], the value [m] when [m] is inside the window, a value not
    below [beta] when [m] is not below [beta]. *)
Definition within_window (alpha beta m v : Score) : Prop :=
  (Score_le m alpha ∧ Score_le v alpha)
  ∨ (Score_lt alpha m ∧ Score_lt m beta ∧ Score_eq v m)
  ∨ (Score_le beta m ∧ Score_le beta v).

Definition loop_alpha (r : AlphaBetaLoop) : Score := r.1.1.1.1.
Definition loop_beta (r : AlphaBetaLoop) : Score := r.1.1.1.2.
Definition loop_counters (r : AlphaBetaLoop) : Counters := r.2.
Definition loop_value (r : MinimaxLoop) : Score := r.1.1.1.

(** A three-level tree whose leaves score their own id: a maximizing root
    over two minimizing nodes with leaves 3, 5 and 2, 9, 7. *)
Definition example_leaf (id : Z) : TreeNode :=
  mkTreeNode id initial_game None None None [] true 3.

Definition example_tree : TreeNode :=
  mkTreeNode 0 initial_game None None None
    [ mkTreeNode 1 initial_game None None None
        [example_leaf 3; example_leaf 5] false 2
    ; mkTreeNode 2 initial_game None None None
        [example_leaf 2; example_leaf 9; example_leaf 7] false 2 ]
    true 1.

Definition score_by_id (node : TreeNode) : Q := inject_Z (node_id node).

(** The states of play: a freshly constructed game, and whatever
    [perform_move] and [next_turn] make of it. *)
Inductive reachable : Game → Prop :=
| reachable_init (opts : Options) : reachable (post_init opts)
| reachable_move (g : Game) (coords : CoordPair) (r : bool * string) (g' : Game) :
    reachable g → perform_move g coords = Some (r, g') → reachable g'
| reachable_turn (g : Game) : reachable g → reachable (next_turn g).

(** The tree below the object at [loc], read out of the store of a tree under
    construction: the value on which [minimax] and [_alpha_beta_pruning]
    recurse.  [fuel] bounds the number of levels. *)
Fixpoint tree_view (objs : list NodeObject) (fuel : nat) (loc : nat) : option TreeNode :=
  match fuel with
  | O => None
  | S fuel' =>
      o ← objs !! loc;
      d ← obj_depth o;
      cs ← mapM (tree_view objs fuel') (obj_children o);
      Some (mkTreeNode (obj_id o) (obj_game o) (obj_move o) (obj_e1 o) (obj_e2 o)
                       cs (obj_max o) d)
  end.

(** A child is always a later object than its parent. *)
Definition children_later (t : Tree) : Prop :=
  ∀ p parent_node c,
    objects t !! p = Some parent_node → c ∈ obj_children parent_node →
    (p < c < length (objects t))%nat.

(** Depth and flag alternate along every edge of a tree value. *)
Fixpoint alternating (node : TreeNode) : Prop :=
  match node with
  | mkTreeNode _ _ _ _ _ cs mx d =>
      foldr (fun c rest =>
               depth c = d + 1 ∧ max c = negb mx ∧ alternating c ∧ rest)
            True cs
  end.

(** ** Further parts of the module *)

(** [Game.has_winner] *)
Definition has_winner (self : Game) : option Player :=
  if match max_turns (options self) with
     | Some m => m <=? turns_played self
     | None => false
     end
  then Some Defender
  else if _attacker_has_ai self then
    if _defender_has_ai self then None else Some Attacker
  else Some Defender.

(** [Game.is_finished] *)
Definition is_finished (self : Game) : bool :=
  match has_winner self with Some _ => true | None => false end.

(** No dead unit stays on the board: every unit found by [get] has a health
    within 1..9. *)
Definition units_alive (self : Game) : Prop :=
  ∀ c u, get self c = Some u → 1 <= health u <= 9.

(** What [perform_move] may change between two states: the board, and a
    has-AI flag from true to false. *)
Definition same_turn (g g' : Game) : Prop :=
  next_player g' = next_player g
  ∧ turns_played g' = turns_played g
  ∧ options g' = options g
  ∧ (_attacker_has_ai g' = true → _attacker_has_ai g = true)
  ∧ (_defender_has_ai g' = true → _defender_has_ai g = true).

(** The has-AI flag of a player. *)
Definition has_ai (self : Game) (p : Player) : bool :=
  match p with
  | Attacker => _attacker_has_ai self
  | Defender => _defender_has_ai self
  end.

(** An Attacker Virus next to the Defender's AI. *)
Definition ambush_game : Game :=
  game_of_units
    [ (mkCoord 0 0, mkUnit Defender AI 9)
    ; (mkCoord 1 0, mkUnit Attacker Virus 9)
    ; (mkCoord 1 1, mkUnit Defender Tech 9)
    ; (mkCoord 4 4, mkUnit Attacker AI 9) ]
    Attacker.

(** The default game after the Attacker's Program stepped from C4 to B4. *)
Definition opened_game : Game :=
  match perform_move initial_game (mkCoordPair (mkCoord 2 4) (mkCoord 1 4)) with
  | Some (_, g) => next_turn g
  | None => initial_game
  end.

(** ** Text forms of coordinates

    Python strings are modelled by [string] over [ascii], that is, text of
    code points below 256.  Among those, [str.isspace] holds for the twelve
    code points of [is_space]; [str.upper] yields a letter A-Z only for the
    letters a-z and A-Z, and [str.lower] yields a character of
    [0123456789abcdef] only for digits and the letters a-f and A-F, which is
    all that [find] observes of them below. *)

(** [s[i]] for an integer [i], negative indices counting from the end;
    [None] is [IndexError]. *)
Definition py_index (s : string) (i : Z) : option Ascii.ascii :=
  let n := Z.of_nat (String.length s) in
  if (0 <=? i) && (i <? n) then String.get (Z.to_nat i) s
  else if (- n <=? i) && (i <? 0) then String.get (Z.to_nat (n + i)) s
  else None.

Definition ROWS : string := "ABCDEFGHIJKLMNOPQRSTUVWXYZ".
Definition COLS : string := "0123456789abcdef".

(** [Coord.col_string] *)
Definition col_string (self : Coord) : option string :=
  if col self <? 16
  then coord_char ← py_index COLS (col self); Some (String coord_char EmptyString)
  else Some "?".

(** [Coord.row_string] *)
Definition row_string (self : Coord) : option string :=
  if row self <? 26
  then coord_char ← py_index ROWS (row self); Some (String coord_char EmptyString)
  else Some "?".

(** [Coord.to_string] *)
Definition Coord_to_string (self : Coord) : option string :=
  r ← row_string self; c ← col_string self; Some (r +:+ c).

Definition is_space (c : Ascii.ascii) : bool :=
  existsb (Nat.eqb (Ascii.nat_of_ascii c))
          [9; 10; 11; 12; 13; 28; 29; 30; 31; 32; 133; 160]%nat.

Fixpoint lstrip (s : string) : string :=
  match s with
  | EmptyString => EmptyString
  | String c s' => if is_space c then lstrip s' else s
  end.

Fixpoint rstrip (s : string) : string :=
  match s with
  | EmptyString => EmptyString
  | String c s' =>
      match rstrip s' with
      | EmptyString => if is_space c then EmptyString else String c EmptyString
      | r => String c r
      end
  end.

(** [s.strip()] *)
Definition strip (s : string) : string := rstrip (lstrip s).

(** [s.replace(sep, "")] for a one-character [sep]. *)
Fixpoint remove_char (sep : Ascii.ascii) (s : string) : string :=
  match s with
  | EmptyString => EmptyString
  | String c s' =>
      if Ascii.eqb c sep then remove_char sep s' else String c (remove_char sep s')
  end.

(** [for sep in " ,.:;-_": s = s.replace(sep, "")] *)
Definition remove_separators (s : string) : string :=
  foldl (fun s sep => remove_char sep s) s (String.list_ascii_of_string " ,.:;-_").

Definition upper_char (c : Ascii.ascii) : Ascii.ascii :=
  let n := Ascii.nat_of_ascii c in
  if (97 <=? n)%nat && (n <=? 122)%nat then Ascii.ascii_of_nat (n - 32) else c.

Definition lower_char (c : Ascii.ascii) : Ascii.ascii :=
  let n := Ascii.nat_of_ascii c in
  if (65 <=? n)%nat && (n <=? 90)%nat then Ascii.ascii_of_nat (n + 32) else c.

Fixpoint map_string (f : Ascii.ascii → Ascii.ascii) (s : string) : string :=
  match s with
  | EmptyString => EmptyString
  | String c s' => String (f c) (map_string f s')
  end.

(** [s.upper()], [s.lower()] *)
Definition upper (s : string) : string := map_string upper_char s.
Definition lower (s : string) : string := map_string lower_char s.

(** [s.find(sub)]: the first index at which [sub] occurs in [s], or -1. *)
Definition find (s sub : string) : Z :=
  match String.index 0 sub s with
  | Some i => Z.of_nat i
  | None => -1
  end.

(** [Coord.from_string] *)
Definition Coord_from_string (s : string) : option Coord :=
  let s := strip s in
  let s := remove_separators s in
  if (String.length s =? 2)%nat
  then Some (mkCoord (find ROWS (upper (String.substring 0 1 s)))
                     (find COLS (lower (String.substring 1 1 s))))
  else None.

(** [CoordPair.to_string] *)
Definition CoordPair_to_string (self : CoordPair) : option string :=
  s ← Coord_to_string (src self);
  d ← Coord_to_string (dst self);
  Some (s +:+ " " +:+ d).

(** [CoordPair.from_string] *)
Definition CoordPair_from_string (s : string) : option CoordPair :=
  let s := strip s in
  let s := remove_separators s in
  if (String.length s =? 4)%nat
  then Some (mkCoordPair
               (mkCoord (find ROWS (upper (String.substring 0 1 s)))
                        (find COLS (lower (String.substring 1 1 s))))
               (mkCoord (find ROWS (upper (String.substring 2 1 s)))
                        (find COLS (lower (String.substring 3 1 s)))))
  else None.

(** [CoordPair.from_quad] *)
Definition from_quad (row0 col0 row1 col1 : Z) : CoordPair :=
  mkCoordPair (mkCoord row0 col0) (mkCoord row1 col1).

(** A character that [strip] and the removal of separators leave alone. *)
Definition kept_char (c : Ascii.ascii) : bool :=
  negb (is_space c)
  && negb (existsb (Ascii.eqb c) (String.list_ascii_of_string " ,.:;-_")).

(** All characters. *)
Definition all_ascii : list Ascii.ascii := map Ascii.ascii_of_nat (seq 0 256).

(** The row (with [n = 26]) or column (with [n = 16]) that is read back from
    the text of the row or column [i]: indices from the end wrap around, an
    index beyond the alphabet is printed as a question mark and read as -1. *)
Definition read_back (n i : Z) : Z :=
  if i <? 0 then i + n else if i <? n then i else -1.

(** One character of a coordinate's text: [text] is [row_string] or
    [col_string] of the index [i], [alphabet] and [fold] are those of the
    reader. *)
Definition char_reads_back (text : option string) (alphabet : string)
    (fold : string → string) (n i : Z) : bool :=
  match text with
  | Some (String a EmptyString) =>
      kept_char a && (find alphabet (fold (String a EmptyString)) =? read_back n i)
  | _ => false
  end.

(** Every id of [self.nodes] leads to an object whose depth is set. *)
Definition nodes_ok (t : Tree) : Prop :=
  ∀ id l, nodes t !! id = Some l →
          ∃ n, objects t !! l = Some n ∧ is_Some (obj_depth n).

Definition loop_child (r : MinimaxLoop) : option TreeNode := r.1.1.2.
Definition loop_visited (r : MinimaxLoop) : list TreeNode := r.1.2.
Definition loop_best (r : AlphaBetaLoop) : option TreeNode := r.1.1.2.
Definition loop_children (r : AlphaBetaLoop) : list TreeNode := r.1.2.

(** The bound that the loop of [_alpha_beta_pruning] moves: alpha at a
    maximizing node, beta at a minimizing one. *)
Definition loop_bound (is_max : bool) (r : AlphaBetaLoop) : Score :=
  if is_max then loop_alpha r else loop_beta r.

Definition is_finite (v : Score) : Prop := ∃ q, v = Num q.

(** ** Ordering the children before alpha-beta *)

(** Python's [max(nodes, key=lambda x: x.e1)] ([reverse]) and
    [min(nodes, key=lambda x: x.e1)] on the rest of a list: the position of
    the first extreme element, [best_i] with key [best] being the extreme one
    so far and [i] the position of the head of [rest].  Comparing with an
    [e1] that is [None] raises TypeError. *)
Fixpoint key_index (reverse : bool) (best_i : nat) (best : option Score)
    (i : nat) (rest : list TreeNode) : option nat :=
  match rest with
  | [] => Some best_i
  | x :: rest' =>
      match e1 x, best with
      | Some k, Some b =>
          if (if reverse then Score_ltb b k else Score_ltb k b)
          then key_index reverse i (Some k) (S i) rest'
          else key_index reverse best_i best (S i) rest'
      | _, _ => None
      end
  end.

(** [_sort_nodes]: the extreme node is removed from its position and
    inserted at the front.  [None]: ValueError on an empty list, TypeError
    on a comparison with a missing [e1]. *)
Definition _sort_nodes (nodes : list TreeNode) (reverse : bool)
  : option (list TreeNode) :=
  match nodes with
  | [] => None
  | first :: rest =>
      i ← key_index reverse 0 (e1 first) 1 rest;
      key_node ← nodes !! i;
      Some (key_node :: delete i nodes)
  end.

Definition set_children (node : TreeNode) (cs : list TreeNode) : TreeNode :=
  mkTreeNode (node_id node) (game node) (move node) (e1 node) (e2 node) cs
             (max node) (depth node).

(** [Tree.traverse_ordered] on the tree below a node.  The recursion is on
    the children in their new order; [fuel] bounds the number of levels
    ([None] also when it runs out). *)
Fixpoint traverse_ordered (fuel : nat) (node : TreeNode) : option TreeNode :=
  match fuel with
  | O => None
  | S fuel' =>
      sorted ← match children node with
               | [] => Some []
               | first :: _ =>
                   if max first
                   then _sort_nodes (children node) false
                   else _sort_nodes (children node) true
               end;
      cs ← mapM (traverse_ordered fuel') sorted;
      Some (set_children node cs)
  end.

(** Number of levels of a tree value. *)
Fixpoint height (node : TreeNode) : nat :=
  match node with
  | mkTreeNode _ _ _ _ _ cs _ _ => S (foldr Nat.max 0%nat (map height cs))
  end.

(** Every node below the root carries an [e1]. *)
Fixpoint scored (node : TreeNode) : Prop :=
  match node with
  | mkTreeNode _ _ _ _ _ cs _ _ =>
      foldr (fun c rest => is_Some (e1 c) ∧ scored c ∧ rest) True cs
  end.

(** [a] is not better than [b], and [a] is worse than [b], for the
    comparison that [_sort_nodes] makes. *)
Definition key_le (reverse : bool) (a b : Score) : Prop :=
  if reverse then Score_le a b else Score_le b a.
Definition key_lt (reverse : bool) (a b : Score) : Prop :=
  if reverse then Score_lt a b else Score_lt b a.

(** The example tree with the scores of its nodes in [e1]. *)
Definition scored_leaf (id : Z) : TreeNode :=
  mkTreeNode id initial_game None (Some (Num (inject_Z id))) None [] true 3.

Definition scored_tree : TreeNode :=
  mkTreeNode 0 initial_game None None None
    [ mkTreeNode 1 initial_game None (Some (Num 3)) None
        [scored_leaf 3; scored_leaf 5] false 2
    ; mkTreeNode 2 initial_game None (Some (Num 7)) None
        [scored_leaf 2; scored_leaf 9; scored_leaf 7] false 2 ]
    true 1.

(** ** Generating the children of a node

    The module globals that the generation reads and writes: the [tree], the
    next free node id [ID] and the flag [time_limit_exceeded]. *)
Record Globals := mkGlobals {
  tree : Tree;
  ID : Z;
  time_limit_exceeded : bool
}.

(** [Game.check_time_limit]; [elapsed_time] is what the clock gives for
    [(current_time - start_time).total_seconds()], [time_ratio] the global
    of that name. *)
Definition check_time_limit (self : Game) (elapsed_time time_ratio : float)
    (globals : Globals) : Globals :=
  if (time_ratio * max_time (options self) <? elapsed_time)%float
  then mkGlobals (tree globals) (ID globals) true
  else globals.

(** [Game.clone]: the board is copied, so that moves made on the clone leave
    the original as it is; on values that is the identity. *)
Definition clone (self : Game) : Game := self.

(** [tree.nodes[parent].game]; [None] is the [KeyError]. *)
Definition parent_game (t : Tree) (parent : option Z) : option Game :=
  p ← parent; l ← nodes t !! p; n ← objects t !! l; Some (obj_game n).

(** The block that [generate_unit_moves] runs for a move to explore: the
    parent's state is cloned, the move made and the turn passed, and the
    state is added below [parent] under the id [ID], which is then
    incremented.  The result is the tree and [ID] after it. *)
Definition add_state (self : Game) (parent : option Z) (next_move : CoordPair)
    (t : Tree) (id : Z) : option (Tree * Z) :=
  g ← parent_game t parent;
  let new_board := clone g in
  r ← ai_move new_board next_move;
  let new_board := next_turn r.2 in
  let e1 := if alpha_beta (options self)
            then Some (Num (heuristic_1 new_board)) else None in
  t' ← add_node t id new_board (Some next_move) e1 None parent;
  Some (t', id + 1).

Definition directions : list (Z * Z) := [(0, -1); (-1, 0); (1, 0); (0, 1)].

(** State of the loop over [directions]: [inCombat], [count], the tree and
    [ID]. *)
Definition UnitMovesLoop : Type := bool * Z * Tree * Z.

Fixpoint unit_moves_loop (self : Game) (coord : Coord) (parent : option Z)
    (ds : list (Z * Z)) (acc : UnitMovesLoop) : option UnitMovesLoop :=
  match ds with
  | [] => Some acc
  | (dx, dy) :: rest =>
      let '(inCombat, count, t, id) := acc in
      let new_coord := mkCoord (row coord + dx) (col coord + dy) in
      let next_move := mkCoordPair coord new_coord in
      g ← parent_game t parent;
      let '(result, _, invalidMove) := is_valid_move g next_move in
      let engaged :=
        match invalidMove with
        | Some msg => String.eqb msg "Sorry, this player is engaged in combat."
        | None => false
        end in
      let count1 :=
        if engaged
        then match get self new_coord with
             | Some unit =>
                 if negb (Player_eqb (player unit) (next_player self))
                 then count + 1 else count
             | None => count
             end
        else count in
      let inCombat1 := if engaged then true else inCombat in
      r ← (if result then add_state self parent next_move t id else Some (t, id));
      unit_moves_loop self coord parent rest (inCombat1, count1, r.1, r.2)
  end.

(** [Game.generate_unit_moves].  [None] is a raised exception. *)
Definition generate_unit_moves (self : Game) (coord : Coord) (parent : option Z)
    (elapsed_time time_ratio : float) (globals : Globals) : option Globals :=
  let globals := check_time_limit self elapsed_time time_ratio globals in
  if time_limit_exceeded globals then Some globals
  else
    match unit_moves_loop self coord parent directions
            (false, 0, tree globals, ID globals) with
    | None => None
    | Some (inCombat, count, t, id) =>
        if inCombat then
          unit ← get self coord;
          if (health unit <? 3) || (1 <? count) then
            r ← add_state self parent (mkCoordPair coord coord) t id;
            Some (mkGlobals r.1 r.2 (time_limit_exceeded globals))
          else Some (mkGlobals t id (time_limit_exceeded globals))
        else Some (mkGlobals t id (time_limit_exceeded globals))
    end.

(** The node objects that a tree has beyond those of an earlier tree. *)
Definition added_nodes (before after : Tree) : list NodeObject :=
  drop (length (objects before)) (objects after).

(** The cells that the loop of [generate_unit_moves] tries from [coord]. *)
Definition tried_cells (coord : Coord) : list Coord :=
  map (fun d => mkCoord (row coord + d.1) (col coord + d.2)) directions.

(** What [generate_unit_moves] puts into a node for the unit at [coord],
    below a node whose state is [g]: a move from [coord] to one of [dsts] that
    [g] accepts, and the state after the move and the change of turn. *)
Definition explores (self g : Game) (coord : Coord) (dsts : list Coord)
    (o : NodeObject) : Prop :=
  ∃ mv r g1,
    obj_move o = Some mv ∧ src mv = coord ∧ dst mv ∈ dsts
    ∧ (is_valid_move g mv).1.1 = true
    ∧ ai_move g mv = Some (r, g1) ∧ r.1 = true
    ∧ obj_game o = next_turn g1
    ∧ obj_e1 o = (if alpha_beta (options self)
                  then Some (Num (heuristic_1 (next_turn g1))) else None)
    ∧ obj_e2 o = None ∧ obj_children o = [].

(** A tree holding the starting position as root [0], and the globals
    before the first generation. *)
Definition root_tree (g : Game) : Tree :=
  default Tree_init (add_node Tree_init 0 g None None None None).

Definition start_globals (g : Game) : Globals := mkGlobals (root_tree g) 1 false.

(** A Defender Program of health 2 at (1,1) between the Attacker's
    Firewall at (0,1) and Virus at (1,0); Defender to move. *)
Definition cornered_game : Game :=
  game_of_units
    [ (mkCoord 0 0, mkUnit Defender AI 9)
    ; (mkCoord 1 1, mkUnit Defender Program 2)
    ; (mkCoord 0 1, mkUnit Attacker Firewall 9)
    ; (mkCoord 1 0, mkUnit Attacker Virus 9)
    ; (mkCoord 4 4, mkUnit Attacker AI 9) ]
    Defender.

(** What holds of the tree and [ID] all through one call of
    [generate_unit_moves] that started from [t0] and [id0], for the parent
    [p] registered at [l] with state [g]: the parent is where it was, with its
    state; the nodes added come one after the other at the end of the store,
    numbered from [id0]. *)
Definition generating (self g : Game) (coord : Coord) (p : Z) (l : nat)
    (t0 : Tree) (id0 : Z) (dsts : list Coord) (t : Tree) (id : Z) : Prop :=
  parent_game t (Some p) = Some g
  ∧ nodes t !! p = Some l
  ∧ (l < length (objects t0))%nat
  ∧ (length (objects t0) <= length (objects t))%nat
  ∧ id = id0 + Z.of_nat (length (added_nodes t0 t))
  ∧ ∀ (i : nat) o, added_nodes t0 t !! i = Some o →
                   obj_id o = id0 + Z.of_nat i ∧ explores self g coord dsts o.

(* ================================================================== *)
(** * Properties *)
(* ================================================================== *)

(** ** Basic facts *)

Lemma Coord_eqb_eq (a b : Coord) : Coord_eqb a b = true ↔ a = b.
Proof.
  destruct a as [r1 c1], b as [r2 c2]; unfold Coord_eqb; simpl.
  rewrite andb_true_iff, !Z.eqb_eq. split; [intros [-> ->]; done | by inversion 1].
Qed.

Lemma Coord_eqb_refl (a : Coord) : Coord_eqb a a = true.
Proof. by apply Coord_eqb_eq. Qed.

Lemma Coord_eqb_neq (a b : Coord) : Coord_eqb a b = false ↔ a ≠ b.
Proof.
  rewrite <- Coord_eqb_eq. destruct (Coord_eqb a b); split; congruence.
Qed.

Lemma Player_eqb_eq (a b : Player) : Player_eqb a b = true ↔ a = b.
Proof. destruct a, b; simpl; split; congruence. Qed.

Lemma Player_eqb_neq (a b : Player) : Player_eqb a b = false ↔ a ≠ b.
Proof. destruct a, b; simpl; split; congruence. Qed.

Lemma UnitType_eqb_eq (a b : UnitType) : UnitType_eqb a b = true ↔ a = b.
Proof. destruct a, b; unfold UnitType_eqb; simpl; split; congruence. Qed.

Lemma existsb_elem_of {A} (f : A → bool) (l : list A) (x : A) :
  x ∈ l → f x = true → existsb f l = true.
Proof.
  intros Hin Hf. apply existsb_exists. exists x. split; [|done].
  by apply list_elem_of_In.
Qed.

Lemma get_Some_valid (self : Game) (c : Coord) (u : Unit) :
  get self c = Some u → is_valid_coord self c = true ∧ is_empty self c = false.
Proof.
  unfold get, is_empty. destruct (is_valid_coord self c); [|done].
  intros ->. done.
Qed.

Lemma get_None_valid (self : Game) (c : Coord) :
  is_valid_coord self c = true → get self c = None → is_empty self c = true.
Proof. unfold get, is_empty. intros -> ->. done. Qed.

(** ** The classification on the starting board *)

(** The Attacker's Program on C4 may step up to B4; its AI on E4 may not
    repair the untouched Virus on D4; the Virus on D4 may self-destruct; the
    Defender's units do not move on the Attacker's turn; the Firewall on D3
    may step up to C3; a move over two columns is not adjacent. *)
Example is_valid_move_on_initial_game :
  is_valid_move initial_game (mkCoordPair (mkCoord 2 4) (mkCoord 1 4))
    = (true, "valid move", None)
  ∧ is_valid_move initial_game (mkCoordPair (mkCoord 4 4) (mkCoord 3 4))
    = (false, "Invalid move", Some "Sorry, AI cannot repair player Attacker.")
  ∧ is_valid_move initial_game (mkCoordPair (mkCoord 3 4) (mkCoord 3 4))
    = (true, "self-destruct", None)
  ∧ is_valid_move initial_game (mkCoordPair (mkCoord 1 1) (mkCoord 1 2))
    = (false, "Invalid move", Some "Sorry, this is Attacker's turn.")
  ∧ is_valid_move initial_game (mkCoordPair (mkCoord 3 3) (mkCoord 2 3))
    = (true, "valid move", None)
  ∧ is_valid_move initial_game (mkCoordPair (mkCoord 2 4) (mkCoord 2 2))
    = (false, "Invalid move",
       Some "Sorry, this destination is not adjacent to the source.").
Proof. repeat split. Qed.

(** ** Move enumeration *)

(** C1 (evaluation at the failing input).  On the default starting board the
    enumeration yields the move of the Attacker's AI from E4 to the
    off-board coordinate (5, 4), although [is_valid_move] rejects it: the
    test [if self.is_valid_move(move)] is applied to a tuple, which is always
    true. *)
Theorem move_candidates_yields_rejected_move :
  let move := mkCoordPair (mkCoord 4 4) (mkCoord 5 4) in
  move ∈ move_candidates initial_game
  ∧ is_valid_move initial_game move
    = (false, "Invalid move", Some "Sorry, src or dest not on board").
Proof.
  split; [|reflexivity].
  apply list_elem_of_In. vm_compute. tauto.
Qed.

(** Every unit of the side to move contributes all five candidates. *)
Lemma move_candidates_length (self : Game) :
  length (move_candidates self)
  = (5 * length (player_units self (next_player self)))%nat.
Proof.
  unfold move_candidates.
  induction (player_units self (next_player self)) as [|[s u] l IH]; [done|].
  cbn [mbind list_bind]. rewrite length_app, IH. simpl. lia.
Qed.

(** ** Heuristic e1 *)

(** C2 (as stated, refuted).  On the default starting board [heuristic_1]
    does not return 0. *)
Lemma heuristic_1_initial_nonzero : ¬ (heuristic_1 initial_game == 0)%Q.
Proof. vm_compute. discriminate. Qed.

(** C2 (amended).  On the default starting board [heuristic_1] returns
    -9.5: the Attacker starts with two Viruses, two Programs and a Firewall
    (10141.5), the Defender with two Techs, two Firewalls and a Program
    (10151). *)
Theorem heuristic_1_initial : (heuristic_1 initial_game == - (19 # 2))%Q.
Proof. vm_compute. reflexivity. Qed.

(** ** Rejected moves leave the game alone *)

(** C10.  When [is_valid_move] classifies a move as invalid, [perform_move]
    and [ai_move] both return [(False, "Invalid move")] and the game after
    the call is the game before it (board, side to move, turn counter and
    both has-AI flags included). *)
Theorem invalid_move_changes_nothing (self : Game) (coords : CoordPair) :
  (is_valid_move self coords).1.1 = false →
  perform_move self coords = Some ((false, "Invalid move"), self)
  ∧ ai_move self coords = Some ((false, "Invalid move"), self).
Proof.
  unfold perform_move, ai_move.
  destruct (is_valid_move self coords) as [[is_valid move_type] error]; simpl.
  intros ->. done.
Qed.

Lemma invalid_move_changes_nothing_witness :
  perform_move initial_game (mkCoordPair (mkCoord 4 4) (mkCoord 5 4))
    = Some ((false, "Invalid move"), initial_game)
  ∧ ai_move initial_game (mkCoordPair (mkCoord 4 4) (mkCoord 5 4))
    = Some ((false, "Invalid move"), initial_game).
Proof.
  apply (invalid_move_changes_nothing initial_game
           (mkCoordPair (mkCoord 4 4) (mkCoord 5 4))).
  reflexivity.
Defined.

(** ** Engaged in combat *)

(** C3.  Let [s] be a unit of type AI, Firewall or Program of the side to
    move, standing on [c], with an enemy unit on an orthogonally adjacent
    cell.  Then every move of [s] to an adjacent destination holding no unit
    is rejected (on the board the reason is "engaged in combat"), and every
    move of [s] onto an adjacent cell holding an enemy is an attack. *)
Theorem engaged_unit_cannot_move_but_attacks
    (self : Game) (c : Coord) (s : Unit) (e : Coord) (enemy : Unit) :
  get self c = Some s →
  player s = next_player self →
  type s = AI ∨ type s = Firewall ∨ type s = Program →
  e ∈ iter_adjacent c →
  get self e = Some enemy →
  player enemy ≠ player s →
  (∀ d, d ∈ iter_adjacent c → get self d = None →
        (is_valid_move self (mkCoordPair c d)).1.1 = false
        ∧ (is_valid_coord self d = true →
           is_valid_move self (mkCoordPair c d)
           = (false, "Invalid move", Some "Sorry, this player is engaged in combat.")))
  ∧ (∀ d target, d ∈ iter_adjacent c → get self d = Some target →
        player target ≠ player s →
        is_valid_move self (mkCoordPair c d) = (true, "attack", None)).
Proof.
  intros Hs Hturn Htype He Henemy Hopp.
  destruct (get_Some_valid _ _ _ Hs) as [Hvc Hoc].
  destruct (get_Some_valid _ _ _ Henemy) as [Hve Hoe].
  assert (Hcombat : is_combat_type (type s) = true)
    by (destruct Htype as [-> | [-> | ->]]; reflexivity).
  assert (Hp : Player_eqb (player s) (next_player self) = true)
    by (by apply Player_eqb_eq).
  assert (Hengaged :
    existsb (fun a => is_valid_coord self a && negb (is_empty self a)
                      && on_unit (get self a)
                           (fun a0 => negb (Player_eqb (player a0) (player s))))
            (iter_adjacent c) = true).
  { apply (existsb_elem_of _ _ e He). rewrite Hve, Hoe, Henemy. simpl.
    apply negb_true_iff, Player_eqb_neq. done. }
  split.
  - intros d Hd Hnone.
    assert (Hadj : existsb (Coord_eqb d) (iter_adjacent c) = true)
      by (apply (existsb_elem_of _ _ d Hd), Coord_eqb_refl).
    unfold is_valid_move. cbn [src dst].
    rewrite Hvc, Hs, Hoc, Hp, Hnone, Hadj, Hcombat, Hengaged.
    destruct (is_valid_coord self d) eqn:Hvd; cbn [negb orb or_continue]; [|done].
    rewrite (get_None_valid _ _ Hvd Hnone).
    cbn [negb andb or_continue on_unit]. rewrite andb_false_r. done.
  - intros d target Hd Htarget Hopp'.
    destruct (get_Some_valid _ _ _ Htarget) as [Hvd Hod].
    assert (Hadj : existsb (Coord_eqb d) (iter_adjacent c) = true)
      by (apply (existsb_elem_of _ _ d Hd), Coord_eqb_refl).
    assert (Hne : Coord_eqb c d = false).
    { apply Coord_eqb_neq. intros <-. congruence. }
    assert (Hpl : Player_eqb (player target) (player s) = false)
      by (by apply Player_eqb_neq).
    unfold is_valid_move. cbn [src dst].
    rewrite Hvc, Hvd, Hs, Hoc, Hp, Htarget, Hod, Hne, Hadj, Hcombat.
    cbn [negb andb orb or_continue on_unit]. rewrite Hpl, andb_false_r. done.
Qed.

Lemma engaged_unit_cannot_move_but_attacks_witness :
  (∀ d, d ∈ iter_adjacent (mkCoord 1 2) → get skirmish_game d = None →
        (is_valid_move skirmish_game (mkCoordPair (mkCoord 1 2) d)).1.1 = false
        ∧ (is_valid_coord skirmish_game d = true →
           is_valid_move skirmish_game (mkCoordPair (mkCoord 1 2) d)
           = (false, "Invalid move", Some "Sorry, this player is engaged in combat.")))
  ∧ (∀ d target, d ∈ iter_adjacent (mkCoord 1 2) → get skirmish_game d = Some target →
        player target ≠ player (mkUnit Attacker Program 9) →
        is_valid_move skirmish_game (mkCoordPair (mkCoord 1 2) d) = (true, "attack", None)).
Proof.
  apply (engaged_unit_cannot_move_but_attacks skirmish_game (mkCoord 1 2)
           (mkUnit Attacker Program 9) (mkCoord 1 1) (mkUnit Defender Program 9)).
  - reflexivity.
  - reflexivity.
  - right; right; reflexivity.
  - apply list_elem_of_In. simpl. tauto.
  - reflexivity.
  - discriminate.
Defined.

(** ** The time-ratio update *)

Lemma Qltb_true (a b : Q) : Qltb a b = true ↔ (a < b)%Q.
Proof. unfold Qltb. destruct (Qlt_le_dec a b); split; try done. lra. Qed.

Lemma Qltb_false (a b : Q) : Qltb a b = false ↔ (b <= a)%Q.
Proof. unfold Qltb. destruct (Qlt_le_dec a b); split; try done. lra. Qed.

(** C8.  The ratio that [suggest_move] computes is the one the
    specification describes, rule by rule and in the same order of
    precedence, in binary64 arithmetic; when no rule applies the ratio keeps
    its value.  The first move is the call before which no algorithm runtime
    has been recorded: [last_algo_time] still has its initial value 0. *)
Theorem suggest_move_time_ratio_spec (self : Game) (globals : TimeGlobals)
    (first_move : bool) :
  (first_move = true ↔ (last_algo_time globals =? 0)%float = true) →
  match spec_time_ratio first_move
          (last_algo_time globals) (time_elapsed_last_move globals)
          (turns_played self) (negb (alpha_beta (options self)))
          (max_depth (options self)) (max_time (options self))
          (time_ratio globals)
  with
  | Some r => suggest_move_time_ratio self globals = r
  | None => suggest_move_time_ratio self globals = time_ratio globals
  end.
Proof.
  intros Hfirst. unfold spec_time_ratio, suggest_move_time_ratio.
  assert (Hzero : (last_algo_time globals =? 0)%float = first_move).
  { destruct first_move.
    - by apply Hfirst.
    - destruct (last_algo_time globals =? 0)%float; [|done].
      symmetry. by apply Hfirst. }
  rewrite Hzero. destruct first_move.
  { rewrite <- Z.gtb_ltb.
    destruct (bool_decide_reflect (max_depth (options self) > 6)) as [H | H].
    - apply Z.gtb_gt in H. rewrite H. reflexivity.
    - destruct (max_depth (options self) >? 6) eqn:E; [apply Z.gtb_gt in E; lia|].
      reflexivity. }
  assert (Hturn : bool_decide (turns_played self > 15) = (15 <? turns_played self)).
  { destruct (15 <? turns_played self) eqn:E.
    - apply Z.ltb_lt in E. apply bool_decide_eq_true. lia.
    - apply Z.ltb_ge in E. apply bool_decide_eq_false. lia. }
  rewrite Hturn.
  destruct (negb (alpha_beta (options self)) && (15 <? turns_played self));
    [reflexivity|].
  destruct ((_ <? last_algo_time globals)%float || (_ <? _)%float);
    [reflexivity|].
  destruct (time_elapsed_last_move globals <? _)%float; reflexivity.
Qed.

(** With the default [max_time] of 5.0, a prior ratio of 0.33 and a
    previous algorithm runtime of 2.85 seconds the decrease applies: in
    binary64, 5.0 - 0.33 * 5.0 - 0.5 is 2.8499999999999996, below 2.85. *)
Lemma suggest_move_time_ratio_spec_witness :
  suggest_move_time_ratio initial_game (mkTimeGlobals 2.85 0.33 3) = 0.2%float.
Proof.
  apply (suggest_move_time_ratio_spec initial_game (mkTimeGlobals 2.85 0.33 3) false).
  split; discriminate.
Defined.

(** The first move of a default game, the globals having the values the
    module gives them at the start; a turn that ended early; a decrease from
    the cap. *)
Example suggest_move_time_ratio_examples :
  suggest_move_time_ratio initial_game (mkTimeGlobals 0 0 0) = 0.35%float
  ∧ suggest_move_time_ratio initial_game (mkTimeGlobals 1.5 0.35 2) = 0.36%float
  ∧ suggest_move_time_ratio initial_game (mkTimeGlobals 1.5 0.85 4.5)
    = 0.44999999999999996%float.
Proof. repeat split; reflexivity. Qed.

(** ** The board under [set] and [mod_health] *)

Lemma is_valid_coord_range (self : Game) (c : Coord) :
  is_valid_coord self c = true
  ↔ 0 <= row c < dim (options self) ∧ 0 <= col c < dim (options self).
Proof.
  unfold is_valid_coord.
  destruct (row c <? 0) eqn:E1, (dim (options self) <=? row c) eqn:E2,
           (col c <? 0) eqn:E3, (dim (options self) <=? col c) eqn:E4; simpl;
    rewrite ?Z.ltb_lt, ?Z.ltb_ge, ?Z.leb_le, ?Z.leb_gt in *; split; (done || lia).
Qed.

Lemma set_options (self : Game) (c : Coord) (u : option Unit) :
  options (set self c u) = options self.
Proof. unfold set. by destruct (is_valid_coord self c). Qed.

Lemma is_valid_coord_set (self : Game) (c c' : Coord) (u : option Unit) :
  is_valid_coord (set self c u) c' = is_valid_coord self c'.
Proof. unfold is_valid_coord. by rewrite set_options. Qed.

Lemma set_wf_board (self : Game) (c : Coord) (u : option Unit) :
  wf_board self → wf_board (set self c u).
Proof.
  intros [Hlen Hrows]. unfold wf_board. rewrite set_options.
  unfold set. destruct (is_valid_coord self c); [|done]. simpl. split.
  - by rewrite length_alter.
  - apply Forall_alter; [done|]. intros r _ Hr. by rewrite length_insert.
Qed.

Lemma get_set (self : Game) (c c' : Coord) (u : option Unit) :
  wf_board self → is_valid_coord self c = true →
  get (set self c u) c' = if Coord_eqb c c' then u else get self c'.
Proof.
  intros [Hlen Hrows] Hc. unfold get. rewrite is_valid_coord_set.
  pose proof (proj1 (is_valid_coord_range _ _) Hc) as [Hr Hk].
  unfold set. rewrite Hc. simpl. unfold board_cell.
  assert (Hrow : is_Some (board self !! Z.to_nat (row c)))
    by (apply lookup_lt_is_Some; lia).
  destruct Hrow as [r Hrow].
  assert (Hrlen : length r = Z.to_nat (dim (options self))).
  { eapply Forall_lookup_1 in Hrows; eauto. }
  destruct (Coord_eqb c c') eqn:E.
  - apply Coord_eqb_eq in E as <-. rewrite Hc.
    rewrite list_lookup_alter_eq, Hrow. simpl.
    rewrite list_lookup_insert_eq by lia. done.
  - destruct (is_valid_coord self c') eqn:Hc'; [|done].
    pose proof (proj1 (is_valid_coord_range _ _) Hc') as [Hr' Hk'].
    apply Coord_eqb_neq in E.
    destruct (decide (row c = row c')) as [Er | Er].
    + rewrite <- Er, list_lookup_alter_eq, Hrow. simpl.
      rewrite list_lookup_insert_ne; [done|].
      intros Hn. apply E. destruct c, c'; simpl in *. f_equal; lia.
    + rewrite list_lookup_alter_ne by lia. done.
Qed.

Lemma get_same_board (b : Board) (o : Options) p t a d p' t' a' d' (c : Coord) :
  get (mkGame b p t o a d) c = get (mkGame b p' t' o a' d') c.
Proof. reflexivity. Qed.

Lemma remove_dead_options (self : Game) (c : Coord) :
  options (remove_dead self c) = options self.
Proof.
  unfold remove_dead. destruct (get self c) as [u|]; [|done].
  destruct (negb (is_alive u)); [|done].
  destruct (UnitType_eqb (type u) AI); [destruct (Player_eqb _ _)|];
    simpl; apply set_options.
Qed.

Lemma remove_dead_wf_board (self : Game) (c : Coord) :
  wf_board self → wf_board (remove_dead self c).
Proof.
  intros Hwf. unfold remove_dead. destruct (get self c) as [u|]; [|done].
  destruct (negb (is_alive u)); [|done].
  pose proof (set_wf_board self c None Hwf) as Hwf1.
  destruct (UnitType_eqb (type u) AI); [destruct (Player_eqb _ _)|]; exact Hwf1.
Qed.

Lemma get_remove_dead (self : Game) (c c' : Coord) :
  wf_board self →
  get (remove_dead self c) c'
  = if Coord_eqb c c'
    then match get self c with
         | Some u => if is_alive u then Some u else None
         | None => None
         end
    else get self c'.
Proof.
  intros Hwf. unfold remove_dead.
  destruct (get self c) as [u|] eqn:Hu.
  - destruct (get_Some_valid _ _ _ Hu) as [Hv _].
    destruct (is_alive u); simpl.
    + destruct (Coord_eqb c c') eqn:E; [|done].
      apply Coord_eqb_eq in E as <-. done.
    + transitivity (get (set self c None) c').
      { destruct (UnitType_eqb (type u) AI); [destruct (Player_eqb _ _)|];
          reflexivity. }
      by rewrite get_set.
  - destruct (Coord_eqb c c') eqn:E; [|done].
    apply Coord_eqb_eq in E as <-. done.
Qed.

Lemma mod_health_options (self : Game) (c : Coord) (delta : Z) :
  options (mod_health self c delta) = options self.
Proof.
  unfold mod_health. destruct (get self c); [|done].
  by rewrite remove_dead_options, set_options.
Qed.

Lemma mod_health_wf_board (self : Game) (c : Coord) (delta : Z) :
  wf_board self → wf_board (mod_health self c delta).
Proof.
  intros Hwf. unfold mod_health. destruct (get self c); [|done].
  by apply remove_dead_wf_board, set_wf_board.
Qed.

Lemma get_mod_health (self : Game) (c c' : Coord) (delta : Z) :
  wf_board self →
  get (mod_health self c delta) c'
  = if Coord_eqb c c' then damaged (get self c) delta else get self c'.
Proof.
  intros Hwf. unfold mod_health.
  destruct (get self c) as [u|] eqn:Hu.
  - destruct (get_Some_valid _ _ _ Hu) as [Hv _].
    rewrite get_remove_dead by (by apply set_wf_board).
    rewrite !get_set by done. rewrite Coord_eqb_refl.
    destruct (Coord_eqb c c'); done.
  - destruct (Coord_eqb c c') eqn:E; [|done].
    apply Coord_eqb_eq in E as <-. done.
Qed.

Lemma is_valid_coord_mod_health (self : Game) (c c' : Coord) (delta : Z) :
  is_valid_coord (mod_health self c delta) c' = is_valid_coord self c'.
Proof. unfold is_valid_coord. by rewrite mod_health_options. Qed.

Lemma healths_ok_get (self : Game) (c : Coord) (u : Unit) :
  healths_ok self → get self c = Some u → 0 <= health u <= 9.
Proof.
  unfold healths_ok, get, board_cell. intros Hok.
  destruct (is_valid_coord self c); [|done].
  destruct (board self !! Z.to_nat (row c)) as [r|] eqn:Hr; [|done]. simpl.
  destruct (r !! Z.to_nat (col c)) as [cell|] eqn:Hcell; [|done]. simpl.
  intros ->.
  eapply Forall_lookup_1 in Hok; [|exact Hr].
  eapply Forall_lookup_1 in Hok; [|exact Hcell]. exact Hok.
Qed.

Lemma damaged_hit (u : Unit) (amount : Z) :
  0 <= amount → health u <= 9 →
  damaged (Some u) (- amount) = hit u amount.
Proof.
  intros Ha Hh. unfold damaged, hit, Unit_mod_health, is_alive. simpl.
  destruct (health u + - amount <? 0) eqn:E1.
  - apply Z.ltb_lt in E1. simpl.
    replace (Z.max 0 (health u - amount)) with 0 by lia. done.
  - apply Z.ltb_ge in E1.
    destruct (9 <? health u + - amount) eqn:E2; [apply Z.ltb_lt in E2; lia|].
    replace (Z.max 0 (health u - amount)) with (health u + - amount) by lia.
    destruct (0 <? health u + - amount) eqn:E3.
    + apply Z.ltb_lt in E3.
      destruct (health u + - amount =? 0) eqn:E4; [apply Z.eqb_eq in E4; lia|done].
    + apply Z.ltb_ge in E3.
      destruct (health u + - amount =? 0) eqn:E4; [done|apply Z.eqb_neq in E4; lia].
Qed.

Lemma damaged_repaired (u : Unit) (amount : Z) :
  0 < amount → 0 <= health u →
  damaged (Some u) amount = Some (repaired u amount).
Proof.
  intros Ha Hh. unfold damaged, repaired, Unit_mod_health, is_alive. simpl.
  destruct (health u + amount <? 0) eqn:E1; [apply Z.ltb_lt in E1; lia|].
  destruct (9 <? health u + amount) eqn:E2.
  - apply Z.ltb_lt in E2. simpl. do 2 f_equal. lia.
  - apply Z.ltb_ge in E2.
    destruct (0 <? health u + amount) eqn:E3; [|apply Z.ltb_ge in E3; lia].
    do 2 f_equal. lia.
Qed.

(** ** What a classification tells about the move *)

(** One guarded [return] of [is_valid_move]: either it returned (and the
    result is not the one assumed), or control fell through. *)
Ltac ivm_step H :=
  match type of H with
  | or_continue (if ?b then _ else _) _ = _ =>
      let E := fresh "E" in destruct b eqn:E; cbn [or_continue] in H
  | match ?o with Some _ => _ | None => _ end = _ =>
      let E := fresh "E" in destruct o eqn:E
  end; try discriminate H.

Lemma on_unit_true (o : option Unit) (f : Unit → bool) :
  on_unit o f = true → ∃ u, o = Some u ∧ f u = true.
Proof. destruct o as [u|]; [eauto | discriminate]. Qed.

(** Booleans collected on the way, as propositions. *)
Ltac ivm_facts :=
  repeat (cbn [negb andb orb] in *; match goal with
  | E : _ && _ = true |- _ => apply andb_true_iff in E as [? ?]
  | E : _ || _ = false |- _ => apply orb_false_iff in E as [? ?]
  | E : on_unit _ _ = true |- _ => apply on_unit_true in E as (? & ? & ?)
  | E : negb _ = true |- _ => apply negb_true_iff in E
  | E : negb _ = false |- _ => apply negb_false_iff in E
  | E : is_empty ?g ?c = false, F : negb (is_empty ?g ?c) && _ = false |- _ =>
      rewrite E in F; cbn [negb andb] in F
  | E : Coord_eqb _ _ = true |- _ => apply Coord_eqb_eq in E
  | E : Coord_eqb _ _ = false |- _ => apply Coord_eqb_neq in E
  | E : Player_eqb _ _ = true |- _ => apply Player_eqb_eq in E
  | E : Player_eqb _ _ = false |- _ => apply Player_eqb_neq in E
  | E : UnitType_eqb _ _ = true |- _ => apply UnitType_eqb_eq in E
  | E : (_ <? _) = true |- _ => apply Z.ltb_lt in E
  end); cbn [negb andb orb] in *.

Lemma is_valid_move_self_destruct (self : Game) (coords : CoordPair) :
  is_valid_move self coords = (true, "self-destruct", None) →
  ∃ s, get self (src coords) = Some s ∧ dst coords = src coords.
Proof.
  intros H. unfold is_valid_move in H. repeat ivm_step H. ivm_facts. eauto.
Qed.

Lemma is_valid_move_attack (self : Game) (coords : CoordPair) :
  is_valid_move self coords = (true, "attack", None) →
  ∃ s d, get self (src coords) = Some s ∧ get self (dst coords) = Some d
         ∧ src coords ≠ dst coords ∧ player d ≠ player s.
Proof.
  intros H. unfold is_valid_move in H.
  repeat ivm_step H; ivm_facts; try congruence; eauto 10.
Qed.

Lemma is_valid_move_repair (self : Game) (coords : CoordPair) :
  is_valid_move self coords = (true, "repair", None) →
  ∃ s d, get self (src coords) = Some s ∧ get self (dst coords) = Some d
         ∧ src coords ≠ dst coords ∧ health d < 9
         ∧ (type s = AI ∧ (type d = Tech ∨ type d = Virus)
            ∨ type s = Tech ∧ (type d = AI ∨ type d = Firewall ∨ type d = Program)).
Proof.
  intros H. unfold is_valid_move in H.
  repeat ivm_step H; ivm_facts; try congruence.
  all: repeat match goal with
       | E : _ || _ = true |- _ => apply orb_true_iff in E as [E | E]
       end; ivm_facts; try congruence.
  all: do 2 eexists; repeat split; eauto; tauto.
Qed.

(** A valid move has one of the four types that [perform_move] handles. *)
Lemma is_valid_move_types (self : Game) (coords : CoordPair)
    (move_type : string) (error : option string) :
  is_valid_move self coords = (true, move_type, error) →
  move_type = "valid move" ∨ move_type = "attack"
  ∨ move_type = "repair" ∨ move_type = "self-destruct".
Proof.
  intros H. unfold is_valid_move in H.
  repeat ivm_step H; simplify_eq; tauto.
Qed.

Lemma ai_move_perform_move (self : Game) (coords : CoordPair) :
  ai_move self coords = perform_move self coords.
Proof.
  unfold ai_move, perform_move.
  destruct (is_valid_move self coords) as [[is_valid move_type] error] eqn:H.
  destruct is_valid; [|done].
  destruct (is_valid_move_types _ _ _ _ H) as [-> | [-> | [-> | ->]]]; done.
Qed.

(** ** Self-destruction *)


(** The guard of the loop in [perform_self_destruction] repeats the test
    that [mod_health] makes itself. *)
Lemma guarded_mod_health (g : Game) (a : Coord) (delta : Z) :
  (if is_valid_coord g a && negb (is_empty g a) then mod_health g a delta else g)
  = mod_health g a delta.
Proof.
  unfold mod_health, get, is_empty.
  destruct (is_valid_coord g a); [|done].
  destruct (board_cell (board g) a); done.
Qed.

Lemma foldl_guarded_mod_health (l : list Coord) (g : Game) (delta : Z) :
  foldl (fun g a => if is_valid_coord g a && negb (is_empty g a)
                    then mod_health g a delta else g) g l
  = foldl (fun g a => mod_health g a delta) g l.
Proof.
  revert g. induction l as [|a l IH]; intros g; [done|].
  simpl. by rewrite guarded_mod_health, IH.
Qed.

Lemma foldl_mod_health_wf_board (l : list Coord) (g : Game) (delta : Z) :
  wf_board g → wf_board (foldl (fun g a => mod_health g a delta) g l).
Proof.
  revert g. induction l as [|a l IH]; intros g Hwf; [done|].
  simpl. by apply IH, mod_health_wf_board.
Qed.

(** A loop of [mod_health] over distinct cells modifies each of them once
    and no other cell. *)
Lemma get_foldl_mod_health (l : list Coord) (g : Game) (delta : Z) (c : Coord) :
  wf_board g → NoDup l →
  (c ∈ l → get (foldl (fun g a => mod_health g a delta) g l) c
           = damaged (get g c) delta)
  ∧ (c ∉ l → get (foldl (fun g a => mod_health g a delta) g l) c = get g c).
Proof.
  revert g. induction l as [|a l IH]; intros g Hwf Hnd.
  { split; [by intros ?%elem_of_nil | done]. }
  apply NoDup_cons in Hnd as [Ha Hnd]. simpl.
  destruct (IH (mod_health g a delta) (mod_health_wf_board _ _ _ Hwf) Hnd)
    as [IHin IHout].
  rewrite get_mod_health in IHin, IHout by done.
  split.
  - intros [-> | Hin]%elem_of_cons.
    + rewrite IHout by done. by rewrite Coord_eqb_refl.
    + rewrite IHin by done.
      destruct (Coord_eqb a c) eqn:E; [|done].
      apply Coord_eqb_eq in E as ->. done.
  - intros Hout. apply not_elem_of_cons in Hout as [Hne Hout].
    rewrite IHout by done.
    destruct (Coord_eqb a c) eqn:E; [|done].
    apply Coord_eqb_eq in E. congruence.
Qed.

Ltac coord_neq :=
  let H := fresh in
  intros H; repeat (apply elem_of_cons in H as [H | H]);
  [ injection H; lia .. | by apply elem_of_nil in H ].

Lemma iter_all8_adjacent_NoDup (c : Coord) : NoDup (iter_all8_adjacent c).
Proof.
  destruct c as [r k]. unfold iter_all8_adjacent. simpl.
  repeat (apply NoDup_cons; split; [coord_neq|]). apply NoDup_nil_2.
Qed.

Lemma iter_all8_adjacent_not_self (c : Coord) : c ∉ iter_all8_adjacent c.
Proof. destruct c as [r k]. unfold iter_all8_adjacent. simpl. coord_neq. Qed.

(** The cells that [iter_all8_adjacent] yields are the eight orthogonal and
    diagonal neighbours, all of them and nothing else. *)
Lemma iter_all8_adjacent_neighbour8 (c n : Coord) :
  n ∈ iter_all8_adjacent c ↔ neighbour8 c n.
Proof.
  destruct c as [r k], n as [r' k']. unfold iter_all8_adjacent, neighbour8.
  cbn [row col]. rewrite !elem_of_cons, elem_of_nil. split.
  - intros H. repeat destruct H as [H|H]; try done; injection H as -> ->;
      (split; [intros [=]; lia | lia]).
  - intros (Hne & Hr & Hk).
    assert (r' = r - 1 ∨ r' = r ∨ r' = r + 1) as Hr' by lia.
    assert (k' = k - 1 ∨ k' = k ∨ k' = k + 1) as Hk' by lia.
    destruct Hr' as [-> | [-> | ->]], Hk' as [-> | [-> | ->]]; try done; tauto.
Qed.

(** C5.  A move classified as self-destruct removes the source unit (its
    health is set to 0) and lowers by 2, not below 0, the health of every
    unit on the up to eight orthogonal and diagonal neighbours of the
    source, removing those whose health reaches 0; no other cell changes. *)
Theorem self_destruct_effect (self : Game) (coords : CoordPair) :
  wf_board self → healths_ok self →
  is_valid_move self coords = (true, "self-destruct", None) →
  ∃ after,
    perform_move self coords = Some ((true, "Self-destruction initiated"), after)
    ∧ get after (src coords) = None
    ∧ (∀ n, neighbour8 (src coords) n →
            get after n = match get self n with
                          | Some u => hit u 2
                          | None => None
                          end)
    ∧ (∀ c, c ≠ src coords → ¬ neighbour8 (src coords) c →
            get after c = get self c).
Proof.
  intros Hwf Hok Hcls.
  setoid_rewrite <- iter_all8_adjacent_neighbour8.
  destruct (is_valid_move_self_destruct _ _ Hcls) as (s & Hs & Hdst).
  unfold perform_move. rewrite Hcls. cbn -[perform_self_destruction].
  unfold perform_self_destruction. rewrite Hs. cbn [mbind option_bind].
  rewrite foldl_guarded_mod_health.
  set (self1 := mod_health self (src coords) (- health s)).
  assert (Hwf1 : wf_board self1) by (by apply mod_health_wf_board).
  assert (Hget1 : ∀ c, get self1 c
                       = if Coord_eqb (src coords) c then None else get self c).
  { intros c. unfold self1. rewrite get_mod_health, Hs by done.
    destruct (Coord_eqb (src coords) c); [|done].
    unfold damaged, Unit_mod_health, is_alive. simpl.
    replace (health s + - health s) with 0 by lia. done. }
  eexists. split; [reflexivity|].
  pose proof (iter_all8_adjacent_NoDup (src coords)) as Hnd.
  pose proof (iter_all8_adjacent_not_self (src coords)) as Hself.
  split; [|split].
  - destruct (get_foldl_mod_health _ self1 (-2) (src coords) Hwf1 Hnd) as [_ ->];
      [|done].
    by rewrite Hget1, Coord_eqb_refl.
  - intros n Hn.
    destruct (get_foldl_mod_health _ self1 (-2) n Hwf1 Hnd) as [-> _]; [|done].
    rewrite Hget1.
    destruct (Coord_eqb (src coords) n) eqn:E;
      [apply Coord_eqb_eq in E; congruence|].
    destruct (get self n) as [u|] eqn:Hu; [|done].
    pose proof (healths_ok_get self n u Hok Hu). apply (damaged_hit u 2); lia.
  - intros c Hne Hc.
    destruct (get_foldl_mod_health _ self1 (-2) c Hwf1 Hnd) as [_ ->]; [|done].
    rewrite Hget1.
    destruct (Coord_eqb (src coords) c) eqn:E; [|done].
    apply Coord_eqb_eq in E. congruence.
Qed.

Lemma skirmish_wf_board : wf_board skirmish_game.
Proof. split; [reflexivity | repeat constructor]. Defined.

Lemma skirmish_healths_ok : healths_ok skirmish_game.
Proof. vm_compute. repeat constructor; discriminate. Defined.

Lemma self_destruct_effect_witness :
  ∃ after,
    perform_move skirmish_game (mkCoordPair (mkCoord 1 2) (mkCoord 1 2))
    = Some ((true, "Self-destruction initiated"), after)
    ∧ get after (mkCoord 1 2) = None
    ∧ (∀ n, neighbour8 (mkCoord 1 2) n →
            get after n = match get skirmish_game n with
                          | Some u => hit u 2
                          | None => None
                          end)
    ∧ (∀ c, c ≠ mkCoord 1 2 → ¬ neighbour8 (mkCoord 1 2) c →
            get after c = get skirmish_game c).
Proof.
  apply (self_destruct_effect skirmish_game
           (mkCoordPair (mkCoord 1 2) (mkCoord 1 2))).
  - exact skirmish_wf_board.
  - exact skirmish_healths_ok.
  - reflexivity.
Defined.

(** The Attacker's Program at (1,2) destroys itself: the Program beside it
    and the Tech and the Virus diagonal to it lose 2; the AI two columns away
    is not touched. *)
Example self_destruct_on_skirmish :
  ∃ after,
    perform_move skirmish_game (mkCoordPair (mkCoord 1 2) (mkCoord 1 2))
    = Some ((true, "Self-destruction initiated"), after)
    ∧ get after (mkCoord 1 2) = None
    ∧ get after (mkCoord 1 1) = Some (mkUnit Defender Program 7)
    ∧ get after (mkCoord 0 1) = Some (mkUnit Defender Tech 3)
    ∧ get after (mkCoord 2 1) = Some (mkUnit Attacker Virus 7)
    ∧ get after (mkCoord 0 0) = Some (mkUnit Defender AI 9).
Proof. eexists. split; [reflexivity|]. repeat split; reflexivity. Qed.

(** ** Attack: Virus on Program *)

(** C6 (as stated, refuted).  The Attacker's Virus on C1 (health 9) attacks
    the Defender's Program on B1 (health 9): the Program is left with
    9 - 6 = 3, and the Virus with 9 - 3 = 6, not with the 9 - 1 = 8 that a
    return damage of 1 would leave. *)
Lemma virus_attack_return_damage_not_1 :
  let coords := mkCoordPair (mkCoord 2 1) (mkCoord 1 1) in
  get skirmish_game (src coords) = Some (mkUnit Attacker Virus 9)
  ∧ get skirmish_game (dst coords) = Some (mkUnit Defender Program 9)
  ∧ is_valid_move skirmish_game coords = (true, "attack", None)
  ∧ ∃ after,
      perform_move skirmish_game coords = Some ((true, "Attack initiated"), after)
      ∧ get after (dst coords) = hit (mkUnit Defender Program 9) 6
      ∧ get after (src coords) = Some (mkUnit Attacker Virus 6)
      ∧ get after (src coords) ≠ hit (mkUnit Attacker Virus 9) 1.
Proof.
  cbv zeta. do 3 (split; [reflexivity|]).
  eexists. split; [reflexivity|].
  split; [reflexivity|]. split; [reflexivity|].
  vm_compute. discriminate.
Qed.

(** C6 (amended).  An attack by a Virus on a Program takes 6 from the
    Program's health and, from the health the Virus had before the attack,
    3 (the entry of the damage table for Program against Virus); neither
    health goes below 0, and a unit whose health reaches 0 is removed. *)
Theorem virus_attack_on_program (self : Game) (coords : CoordPair) (v p : Unit) :
  wf_board self → healths_ok self →
  is_valid_move self coords = (true, "attack", None) →
  get self (src coords) = Some v → type v = Virus →
  get self (dst coords) = Some p → type p = Program →
  ∃ after,
    perform_move self coords = Some ((true, "Attack initiated"), after)
    ∧ get after (dst coords) = hit p 6
    ∧ get after (src coords) = hit v 3.
Proof.
  intros Hwf Hok Hcls Hv Htv Hp Htp.
  destruct (is_valid_move_attack _ _ Hcls) as (s & d & Hs & Hd & Hne & _).
  unfold perform_move. rewrite Hcls. cbn -[perform_attack].
  unfold perform_attack. rewrite Hv, Hp. cbn [mbind option_bind].
  rewrite Htv, Htp.
  change (table_at damage_table Virus Program) with 6.
  change (table_at damage_table Program Virus) with 3.
  eexists. split; [reflexivity|].
  assert (Hwf1 : wf_board (mod_health self (src coords) (-3)))
    by (by apply mod_health_wf_board).
  assert (E1 : Coord_eqb (src coords) (dst coords) = false)
    by (by apply Coord_eqb_neq).
  assert (E2 : Coord_eqb (dst coords) (src coords) = false)
    by (by apply Coord_eqb_neq).
  split.
  - rewrite get_mod_health, Coord_eqb_refl by done.
    rewrite get_mod_health, E1, Hp by done.
    pose proof (healths_ok_get self _ p Hok Hp). apply (damaged_hit p 6); lia.
  - rewrite get_mod_health, E2 by done.
    rewrite get_mod_health, Coord_eqb_refl, Hv by done.
    pose proof (healths_ok_get self _ v Hok Hv). apply (damaged_hit v 3); lia.
Qed.

Lemma virus_attack_on_program_witness :
  ∃ after,
    perform_move skirmish_game (mkCoordPair (mkCoord 2 1) (mkCoord 1 1))
    = Some ((true, "Attack initiated"), after)
    ∧ get after (mkCoord 1 1) = hit (mkUnit Defender Program 9) 6
    ∧ get after (mkCoord 2 1) = hit (mkUnit Attacker Virus 9) 3.
Proof.
  apply (virus_attack_on_program skirmish_game
           (mkCoordPair (mkCoord 2 1) (mkCoord 1 1))
           (mkUnit Attacker Virus 9) (mkUnit Defender Program 9)).
  - exact skirmish_wf_board.
  - exact skirmish_healths_ok.
  - reflexivity.
  - reflexivity.
  - reflexivity.
  - reflexivity.
  - reflexivity.
Defined.

(** ** Repair *)

(** C7.  A move classified as repair adds the repair-table amount to the
    destination unit's health, never beyond 9, and leaves the repairing unit
    as it was. *)
Theorem repair_effect (self : Game) (coords : CoordPair) :
  wf_board self → healths_ok self →
  is_valid_move self coords = (true, "repair", None) →
  ∃ s d after,
    get self (src coords) = Some s
    ∧ get self (dst coords) = Some d
    ∧ perform_move self coords = Some ((true, "Repair initiated"), after)
    ∧ get after (dst coords)
      = Some (repaired d (table_at repair_table (type s) (type d)))
    ∧ health (repaired d (table_at repair_table (type s) (type d))) <= 9
    ∧ get after (src coords) = Some s.
Proof.
  intros Hwf Hok Hcls.
  destruct (is_valid_move_repair _ _ Hcls) as (s & d & Hs & Hd & Hne & Hlt & Hty).
  exists s, d.
  unfold perform_move. rewrite Hcls. cbn -[perform_repair].
  unfold perform_repair. rewrite Hs, Hd. cbn [mbind option_bind].
  eexists. split; [done|]. split; [done|]. split; [reflexivity|].
  assert (Hamount : 0 < table_at repair_table (type s) (type d)).
  { destruct Hty as [[-> [-> | ->]] | [-> [-> | [-> | ->]]]]; reflexivity. }
  split; [|split].
  - rewrite get_mod_health, Coord_eqb_refl, Hd by done.
    pose proof (healths_ok_get self _ d Hok Hd). apply damaged_repaired; lia.
  - unfold repaired. simpl. lia.
  - rewrite get_mod_health by done.
    destruct (Coord_eqb (dst coords) (src coords)) eqn:E; [|done].
    apply Coord_eqb_eq in E. congruence.
Qed.

Lemma repair_effect_witness :
  ∃ s d after,
    get skirmish_game (mkCoord 4 4) = Some s
    ∧ get skirmish_game (mkCoord 3 4) = Some d
    ∧ perform_move skirmish_game (mkCoordPair (mkCoord 4 4) (mkCoord 3 4))
      = Some ((true, "Repair initiated"), after)
    ∧ get after (mkCoord 3 4)
      = Some (repaired d (table_at repair_table (type s) (type d)))
    ∧ health (repaired d (table_at repair_table (type s) (type d))) <= 9
    ∧ get after (mkCoord 4 4) = Some s.
Proof.
  apply (repair_effect skirmish_game (mkCoordPair (mkCoord 4 4) (mkCoord 3 4))).
  - exact skirmish_wf_board.
  - exact skirmish_healths_ok.
  - reflexivity.
Defined.

(** ** The tree built by [add_node] *)

Lemma add_node_root (self : Tree) id game move e1 e2 (t' : Tree) :
  add_node self id game move e1 e2 None = Some t' →
  root t' = Some (length (objects self))
  ∧ objects t'
    = objects self ++ [mkNodeObject id game move e1 e2 [] true (Some 1)].
Proof.
  unfold add_node. simpl. intros [= <-]. simpl. split; [done|].
  rewrite insert_app_r_alt by lia. by rewrite Nat.sub_diag.
Qed.

Lemma add_node_child (self : Tree) id game move e1 e2 (p : Z) (t' : Tree) :
  add_node self id game move e1 e2 (Some p) = Some t' →
  ∃ l n d,
    objects self !! l = Some n
    ∧ obj_depth n = Some d
    ∧ root t' = root self
    ∧ objects t'
      = <[l := append_child n (length (objects self))]> (objects self)
        ++ [mkNodeObject id game move e1 e2 [] (negb (obj_max n)) (Some (d + 1))].
Proof.
  unfold add_node.
  destruct (nodes self !! p) as [l|] eqn:Hl; [|done]. simpl.
  destruct (objects self !! l) as [n|] eqn:Hn; [|done]. simpl.
  pose proof (lookup_lt_Some _ _ _ Hn) as Hlt.
  rewrite lookup_insert.
  destruct (decide (id = p)) as [-> | Hne]; simpl.
  { rewrite list_lookup_middle by done. simpl. done. }
  rewrite Hl. simpl. rewrite lookup_app_l, Hn by done. simpl.
  destruct (obj_depth n) as [d|] eqn:Hd; [|done]. simpl.
  rewrite list_lookup_insert_ne by lia.
  rewrite lookup_app_l, Hn by done. simpl.
  intros [= <-]. simpl. exists l, n, d. repeat split; try done.
  rewrite insert_app_r_alt by lia. rewrite Nat.sub_diag. simpl.
  by rewrite insert_app_l.
Qed.

Lemma lookup_snoc_Some {A} (l : list A) (x y : A) (i : nat) :
  (l ++ [x]) !! i = Some y →
  (i < length l)%nat ∧ l !! i = Some y ∨ i = length l ∧ y = x.
Proof.
  intros H. destruct (decide (i < length l)%nat) as [Hlt | Hge].
  - left. by rewrite lookup_app_l in H.
  - right. rewrite lookup_app_r in H by lia.
    destruct (i - length l)%nat as [|k] eqn:E; simpl in H; [|done].
    split; [lia | congruence].
Qed.

Lemma tree_invariant_init : tree_invariant Tree_init.
Proof.
  split; [|split].
  - intros l [=].
  - intros p np c Hp. simpl in Hp. by rewrite lookup_nil in Hp.
  - intros c n Hc. simpl in Hc. by rewrite lookup_nil in Hc.
Qed.

Lemma add_node_root_invariant (self : Tree) id game move e1 e2 (t' : Tree) :
  tree_invariant self →
  add_node self id game move e1 e2 None = Some t' →
  tree_invariant t'.
Proof.
  intros (Hroot & Hedges & Hplaced) [Hr Hobj]%add_node_root.
  split; [|split].
  - intros l Hl. rewrite Hr in Hl. injection Hl as <-.
    eexists. rewrite Hobj, list_lookup_middle by done. done.
  - intros p np c Hp Hc. rewrite Hobj in *.
    apply lookup_snoc_Some in Hp as [[Hlt Hp] | [-> ->]];
      [|by apply elem_of_nil in Hc].
    destruct (Hedges p np c Hp Hc) as (nc & d & Hnc & ?).
    exists nc, d. split; [|done].
    rewrite lookup_app_l; [done | by eapply lookup_lt_Some].
  - intros c nc Hc. rewrite Hobj in *.
    apply lookup_snoc_Some in Hc as [[Hlt Hc] | [-> ->]]; [|by left].
    destruct (Hplaced c nc Hc) as [? | (p & np & Hp & Hin)]; [by left | right].
    exists p, np. split; [|done].
    rewrite lookup_app_l; [done | by eapply lookup_lt_Some].
Qed.

Lemma add_node_child_invariant (self : Tree) id game move e1 e2 p (t' : Tree) :
  tree_invariant self →
  add_node self id game move e1 e2 (Some p) = Some t' →
  tree_invariant t'.
Proof.
  intros (Hroot & Hedges & Hplaced) (l & n & d & Hn & Hd & Hr & Hobj)%add_node_child.
  pose proof (lookup_lt_Some _ _ _ Hn) as Hlt.
  set (new := mkNodeObject id game move e1 e2 [] (negb (obj_max n)) (Some (d + 1)))
    in *.
  set (loc := length (objects self)) in *.
  (* every old object is still there, with the same depth and flag, and with
     at least the children it had *)
  assert (Hold : ∀ i o, objects self !! i = Some o →
            ∃ o', objects t' !! i = Some o'
                  ∧ obj_depth o' = obj_depth o ∧ obj_max o' = obj_max o
                  ∧ (∀ c, c ∈ obj_children o → c ∈ obj_children o')).
  { intros i o Hi. pose proof (lookup_lt_Some _ _ _ Hi) as Hilt.
    rewrite Hobj, lookup_app_l by (by rewrite length_insert).
    destruct (decide (l = i)) as [<- | Hne].
    - rewrite list_lookup_insert_eq by done. eexists. split; [done|].
      assert (o = n) as -> by congruence. simpl.
      repeat split; try done. intros c Hc. apply elem_of_app. by left.
    - rewrite list_lookup_insert_ne by done. eauto. }
  (* an object of the new tree is the new node, the parent with one more
     child, or an untouched old object *)
  assert (Hnew : ∀ i o', objects t' !! i = Some o' →
            (i = loc ∧ o' = new)
            ∨ (i = l ∧ o' = append_child n loc)
            ∨ (i ≠ l ∧ objects self !! i = Some o')).
  { intros i o' Hi. rewrite Hobj in Hi.
    apply lookup_snoc_Some in Hi as [[Hilt Hi] | [Hi ->]].
    - rewrite length_insert in Hilt.
      destruct (decide (l = i)) as [<- | Hne].
      + rewrite list_lookup_insert_eq in Hi by done. right; left. split; congruence.
      + rewrite list_lookup_insert_ne in Hi by done. right; right. done.
    - left. rewrite length_insert in Hi. done. }
  assert (Hloc : objects t' !! loc = Some new).
  { rewrite Hobj. apply list_lookup_middle. by rewrite length_insert. }
  split; [|split].
  - intros r Hroot'. rewrite Hr in Hroot'.
    destruct (Hroot r Hroot') as (o & Ho & Hdo & Hmo).
    destruct (Hold r o Ho) as (o' & Ho' & Hd' & Hm' & _).
    exists o'. rewrite Hd', Hm'. done.
  - intros q nq c Hq Hc.
    destruct (Hnew q nq Hq) as [[-> ->] | [[-> ->] | [Hne Hq0]]].
    + by apply elem_of_nil in Hc.
    + simpl in Hc. apply elem_of_app in Hc as [Hc | Hc].
      * destruct (Hedges l n c Hn Hc) as (nc & d0 & Hnc & Hd0 & Hdc & Hmc).
        destruct (Hold c nc Hnc) as (nc' & Hnc' & Hd' & Hm' & _).
        exists nc', d0. simpl. rewrite Hd', Hm'. done.
      * apply list_elem_of_singleton in Hc as ->.
        exists new, d. simpl. done.
    + destruct (Hedges q nq c Hq0 Hc) as (nc & d0 & Hnc & Hd0 & Hdc & Hmc).
      destruct (Hold c nc Hnc) as (nc' & Hnc' & Hd' & Hm' & _).
      exists nc', d0. rewrite Hd', Hm'. done.
  - intros c nc Hc.
    destruct (Hnew c nc Hc) as [[-> ->] | [[-> ->] | [Hne Hc0]]].
    + right. destruct (Hold l n Hn) as (n' & Hn' & _).
      exists l, (append_child n loc). split.
      * rewrite Hobj, lookup_app_l by (by rewrite length_insert).
        by rewrite list_lookup_insert_eq.
      * simpl. apply elem_of_app. right. by apply list_elem_of_singleton.
    + destruct (Hplaced l n Hn) as [? | (q & nq & Hq & Hin)]; [by left | right].
      destruct (Hold q nq Hq) as (nq' & Hq' & _ & _ & Hch). eauto.
    + destruct (Hplaced c nc Hc0) as [? | (q & nq & Hq & Hin)]; [by left | right].
      destruct (Hold q nq Hq) as (nq' & Hq' & _ & _ & Hch). eauto.
Qed.

Lemma build_invariant (calls : list AddCall) (t0 t : Tree) :
  tree_invariant t0 → build t0 calls = Some t → tree_invariant t.
Proof.
  revert t0. induction calls as [|c calls IH]; intros t0 Hinv Hb; simpl in Hb.
  { by injection Hb as <-. }
  destruct (add_node t0 _ _ _ _ _ (call_parent c)) as [t1|] eqn:Hadd; [|done].
  simpl in Hb. apply (IH t1); [|done].
  destruct (call_parent c) as [p|].
  - by eapply add_node_child_invariant.
  - by eapply add_node_root_invariant.
Qed.

(** C9.  In a tree built from [Tree()] by [add_node] calls, the root has
    depth 1 and is maximizing; along every edge the child's depth is its
    parent's plus one and its maximizing flag is the negation of its
    parent's; and every node that was not created as a root hangs below
    such an edge. *)
Theorem add_node_builds_alternating_levels (calls : list AddCall) (t : Tree) :
  build Tree_init calls = Some t → tree_invariant t.
Proof. apply build_invariant, tree_invariant_init. Qed.

Lemma add_node_builds_alternating_levels_witness :
  ∃ t, build Tree_init three_calls = Some t ∧ tree_invariant t.
Proof.
  eexists. split; [reflexivity|].
  apply (add_node_builds_alternating_levels three_calls). reflexivity.
Defined.

(** ** Order on scores *)

Ltac score_crush :=
  unfold within_window, Score_eq, Score_le, Score_lt, Score_max, Score_min in *;
  repeat match goal with s : Score |- _ => destruct s end;
  repeat (cbn [Score_ltb] in *;
          match goal with
          | H : context [if Qltb ?x ?y then _ else _] |- _ =>
              destruct (Qltb x y) eqn:?
          | |- context [if Qltb ?x ?y then _ else _] => destruct (Qltb x y) eqn:?
          end);
  cbn [Score_ltb] in *;
  repeat match goal with
    | H : context [Qltb ?x ?y = true] |- _ => rewrite (Qltb_true x y) in H
    | H : context [Qltb ?x ?y = false] |- _ => rewrite (Qltb_false x y) in H
    | |- context [Qltb ?x ?y = true] => rewrite (Qltb_true x y)
    | |- context [Qltb ?x ?y = false] => rewrite (Qltb_false x y)
    end;
  intuition (try discriminate; try lra).

Lemma Score_le_refl (a : Score) : Score_le a a.
Proof. score_crush. Qed.

Lemma Score_lt_le_trans (a b c : Score) : Score_lt a b → Score_le b c → Score_lt a c.
Proof. score_crush. Qed.

Lemma Score_le_lt_trans (a b c : Score) : Score_le a b → Score_lt b c → Score_lt a c.
Proof. score_crush. Qed.

Lemma Score_le_trans (a b c : Score) : Score_le a b → Score_le b c → Score_le a c.
Proof. score_crush. Qed.

Lemma Score_lt_le (a b : Score) : Score_lt a b → Score_le a b.
Proof. score_crush. Qed.

Lemma Score_eq_le (a b : Score) : Score_eq a b ↔ Score_le a b ∧ Score_le b a.
Proof. score_crush. Qed.

Lemma Score_eq_refl (a : Score) : Score_eq a a.
Proof. score_crush. Qed.

Lemma Score_eq_trans (a b c : Score) : Score_eq a b → Score_eq b c → Score_eq a c.
Proof. score_crush. Qed.

(** The window lemmas of the maximizing loop. *)

Lemma window_max_nil (alpha beta : Score) :
  within_window alpha beta NegInf alpha.
Proof. score_crush. Qed.

Lemma window_max_skip (alpha beta m mr v' : Score) :
  Score_le m alpha → within_window alpha beta mr v' →
  within_window alpha beta (Score_max m mr) v'.
Proof. score_crush. Qed.

Lemma window_max_raise (alpha beta m v mr v' : Score) :
  Score_lt alpha m → Score_lt m beta → Score_eq v m → Score_le v v' →
  within_window v beta mr v' →
  within_window alpha beta (Score_max m mr) v'.
Proof. score_crush. Qed.

Lemma window_max_cut (alpha beta m v mr : Score) :
  Score_le beta m → Score_le beta v →
  within_window alpha beta (Score_max m mr) v.
Proof. score_crush. Qed.

Lemma window_leaf (alpha beta : Score) (q : Q) :
  within_window alpha beta (Num q) (Num q).
Proof. score_crush. Qed.

(** The window lemmas of the minimizing loop. *)

Lemma window_min_nil (alpha beta : Score) :
  within_window alpha beta PosInf beta.
Proof. score_crush. Qed.

Lemma window_min_skip (alpha beta m mr v' : Score) :
  Score_le beta m → within_window alpha beta mr v' →
  within_window alpha beta (Score_min m mr) v'.
Proof. score_crush. Qed.

Lemma window_min_lower (alpha beta m v mr v' : Score) :
  Score_lt alpha m → Score_lt m beta → Score_eq v m → Score_le v' v →
  within_window alpha v mr v' →
  within_window alpha beta (Score_min m mr) v'.
Proof. score_crush. Qed.

Lemma window_min_cut (alpha beta m v mr : Score) :
  Score_le m alpha → Score_le v alpha →
  within_window alpha beta (Score_min m mr) v.
Proof. score_crush. Qed.

Lemma window_full (m v : Score) (q : Q) :
  m = Num q → within_window NegInf PosInf m v → Score_eq v m.
Proof. intros ->. score_crush. Qed.

Lemma Score_lt_eq_r (a m v : Score) : Score_lt a m → Score_eq v m → Score_lt a v.
Proof. score_crush. Qed.

Lemma Score_lt_eq_l (m b v : Score) : Score_lt m b → Score_eq v m → Score_lt v b.
Proof. score_crush. Qed.

Lemma Score_max_assoc_eq (x best v m mr : Score) :
  Score_eq x (Score_max (Score_max best v) mr) → Score_eq v m →
  Score_eq x (Score_max best (Score_max m mr)).
Proof. score_crush. Qed.

Lemma Score_min_assoc_eq (x best v m mr : Score) :
  Score_eq x (Score_min (Score_min best v) mr) → Score_eq v m →
  Score_eq x (Score_min best (Score_min m mr)).
Proof. score_crush. Qed.

Lemma Score_max_NegInf (m : Score) : Score_max NegInf m = m.
Proof. by destruct m. Qed.

Lemma Score_min_PosInf (m : Score) : Score_min PosInf m = m.
Proof. by destruct m. Qed.

Lemma Score_max_r_NegInf (m : Score) : Score_max m NegInf = m.
Proof. by destruct m. Qed.

Lemma Score_min_r_PosInf (m : Score) : Score_min m PosInf = m.
Proof. by destruct m. Qed.

(** ** Induction on search trees *)

Lemma TreeNode_forall_ind (P : TreeNode → Prop) :
  (∀ id g mv s1 s2 cs mx d,
      Forall P cs → P (mkTreeNode id g mv s1 s2 cs mx d)) →
  ∀ node, P node.
Proof.
  intros step. fix IH 1. intros [id g mv s1 s2 cs mx d]. apply step.
  induction cs as [|c cs IHcs]; constructor; [apply IH | exact IHcs].
Qed.

(** ** Minimax returns the optimal value and visits every leaf *)

Section SearchProperties.

Variable heuristic : TreeNode → Q.

Lemma leaf_count_nonneg (node : TreeNode) : 0 <= leaf_count node.
Proof.
  induction node as [id g mv s1 s2 cs mx d IH] using TreeNode_forall_ind.
  destruct cs as [|c cs]; [simpl; lia|].
  cbn [leaf_count]. induction IH as [|c' cs' Hc' _ IH']; simpl; lia.
Qed.

Lemma optimal_value_finite (node : TreeNode) :
  ∃ q, optimal_value heuristic node = Num q.
Proof.
  induction node as [id g mv s1 s2 cs mx d IH] using TreeNode_forall_ind.
  destruct cs as [|c cs]; [simpl; eauto|].
  cbn [optimal_value].
  assert (Hmax : ∀ l, Forall (fun n => ∃ q, optimal_value heuristic n = Num q) l →
            ∀ a, (∃ q, a = Num q) →
                 ∃ q, Score_max a (foldr Score_max NegInf
                                     (map (optimal_value heuristic) l)) = Num q).
  { intros l Hl. induction Hl as [|x l [qx Hx] _ IHl]; intros a [qa ->].
    - simpl. eauto.
    - simpl. rewrite Hx. destruct (IHl (Num qx)) as [q Hq]; [eauto|].
      rewrite Hq. unfold Score_max. simpl. destruct (Qltb qa q); eauto. }
  assert (Hmin : ∀ l, Forall (fun n => ∃ q, optimal_value heuristic n = Num q) l →
            ∀ a, (∃ q, a = Num q) →
                 ∃ q, Score_min a (foldr Score_min PosInf
                                     (map (optimal_value heuristic) l)) = Num q).
  { intros l Hl. induction Hl as [|x l [qx Hx] _ IHl]; intros a [qa ->].
    - simpl. eauto.
    - simpl. rewrite Hx. destruct (IHl (Num qx)) as [q Hq]; [eauto|].
      rewrite Hq. unfold Score_min. simpl. destruct (Qltb q qa); eauto. }
  apply Forall_cons in IH as [Hc Hcs].
  destruct mx; simpl; [apply Hmax | apply Hmin]; done.
Qed.

(** The loop of [minimax] keeps the extreme of what it has seen. *)
Lemma minimax_loop_value (rec : TreeNode → Counters → SearchResult)
    (is_max : bool) (cs : list TreeNode) :
  Forall (fun c => ∀ st, Score_eq (result_value (rec c st))
                                  (optimal_value heuristic c)) cs →
  ∀ best child visited st,
    Score_eq (loop_value (minimax_loop rec is_max cs (best, child, visited, st)))
             (if is_max
              then Score_max best
                     (foldr Score_max NegInf (map (optimal_value heuristic) cs))
              else Score_min best
                     (foldr Score_min PosInf (map (optimal_value heuristic) cs))).
Proof.
  intros Hcs. induction Hcs as [|c cs Hc _ IH]; intros best child visited st.
  { simpl. destruct is_max; rewrite ?Score_max_r_NegInf, ?Score_min_r_PosInf;
      apply Score_eq_refl. }
  cbn [minimax_loop map foldr].
  set (v := result_value (rec c st)).
  specialize (Hc st). fold v in Hc.
  destruct is_max.
  - eapply Score_max_assoc_eq; [|exact Hc].
    unfold Score_max at 2. destruct (Score_ltb best v); apply IH.
  - eapply Score_min_assoc_eq; [|exact Hc].
    unfold Score_min at 2. destruct (Score_ltb v best); apply IH.
Qed.

Lemma minimax_loop_count (rec : TreeNode → Counters → SearchResult)
    (is_max : bool) (cs : list TreeNode) :
  Forall (fun c => ∀ st, total_evals (result_counters (rec c st))
                         = total_evals st + leaf_count c) cs →
  ∀ best child visited st,
    total_evals (minimax_loop rec is_max cs (best, child, visited, st)).2
    = total_evals st + foldr Z.add 0 (map leaf_count cs).
Proof.
  intros Hcs. induction Hcs as [|c cs Hc _ IH]; intros best child visited st.
  { simpl. lia. }
  cbn [minimax_loop map foldr].
  destruct (if is_max then _ else _); rewrite IH, Hc; lia.
Qed.

Lemma minimax_value (node : TreeNode) (st : Counters) :
  Score_eq (result_value (minimax heuristic node st))
           (optimal_value heuristic node).
Proof.
  revert st.
  induction node as [id g mv s1 s2 cs mx d IH] using TreeNode_forall_ind.
  intros st. destruct cs as [|c cs]; [apply Score_eq_refl|].
  cbn [minimax optimal_value].
  pose proof (minimax_loop_value (fun c s => minimax heuristic c s) mx (c :: cs) IH
                (if mx then NegInf else PosInf) None [] st) as Hloop.
  destruct (minimax_loop _ mx (c :: cs) _) as [[[v ch] cs'] st1].
  unfold result_value, loop_value in *. cbn [fst snd] in *.
  destruct mx; [rewrite Score_max_NegInf in Hloop
               | rewrite Score_min_PosInf in Hloop]; exact Hloop.
Qed.

Lemma minimax_count (node : TreeNode) (st : Counters) :
  total_evals (result_counters (minimax heuristic node st))
  = total_evals st + leaf_count node.
Proof.
  revert st.
  induction node as [id g mv s1 s2 cs mx d IH] using TreeNode_forall_ind.
  intros st. destruct cs as [|c cs]; [reflexivity|].
  cbn [minimax leaf_count].
  pose proof (minimax_loop_count (fun c s => minimax heuristic c s) mx (c :: cs) IH
                (if mx then NegInf else PosInf) None [] st) as Hloop.
  destruct (minimax_loop _ mx (c :: cs) _) as [[[v ch] cs'] st1].
  exact Hloop.
Qed.

(** ** Alpha-beta stays within its window and visits no more leaves *)

Lemma alpha_beta_loop_max
    (rec : TreeNode → Score → Score → Counters → SearchResult)
    (cs : list TreeNode) :
  Forall (fun c => ∀ a b st, Score_lt a b →
            within_window a b (optimal_value heuristic c)
                          (result_value (rec c a b st))) cs →
  ∀ alpha beta best visited st,
    Score_lt alpha beta →
    let r := alpha_beta_loop rec true cs (alpha, beta, best, visited, st) in
    Score_le alpha (loop_alpha r)
    ∧ within_window alpha beta
        (foldr Score_max NegInf (map (optimal_value heuristic) cs)) (loop_alpha r).
Proof.
  intros Hcs. induction Hcs as [|c cs Hc _ IH];
    intros alpha beta best visited st Hlt.
  { simpl. split; [apply Score_le_refl | apply window_max_nil]. }
  cbn [alpha_beta_loop map foldr].
  set (v := result_value (rec c alpha beta st)).
  destruct (Hc alpha beta st Hlt) as [[Hm Hv] | [(Hm1 & Hm2 & Hv) | [Hm Hv]]];
    fold v in Hv.
  - (* the child is not above alpha: nothing changes *)
    unfold Score_le in Hv. rewrite Hv. unfold Score_leb.
    unfold Score_lt in Hlt. rewrite Hlt. cbn [negb].
    destruct (IH alpha beta best (visited ++ [result_node (rec c alpha beta st)])
                (result_counters (rec c alpha beta st)) Hlt) as [IH1 IH2].
    split; [exact IH1 | by apply window_max_skip].
  - (* the child is inside the window: alpha is raised to it *)
    pose proof (Score_lt_eq_r _ _ _ Hm1 Hv) as Hav.
    pose proof (Score_lt_eq_l _ _ _ Hm2 Hv) as Hvb.
    unfold Score_lt in Hav. rewrite Hav. unfold Score_leb.
    unfold Score_lt in Hvb. rewrite Hvb. cbn [negb].
    destruct (IH v beta (Some (result_node (rec c alpha beta st)))
                (visited ++ [result_node (rec c alpha beta st)])
                (result_counters (rec c alpha beta st)) Hvb) as [IH1 IH2].
    split.
    + eapply Score_le_trans; [apply Score_lt_le; exact Hav | exact IH1].
    + by eapply window_max_raise.
  - (* the child reaches beta: cutoff *)
    pose proof (Score_lt_le_trans _ _ _ Hlt Hv) as Hav.
    unfold Score_lt in Hav. rewrite Hav. unfold Score_leb.
    unfold Score_le in Hv. rewrite Hv. cbn [negb].
    unfold loop_alpha. cbn [fst snd]. split.
    + by apply Score_lt_le.
    + by apply window_max_cut.
Qed.

Lemma alpha_beta_loop_min
    (rec : TreeNode → Score → Score → Counters → SearchResult)
    (cs : list TreeNode) :
  Forall (fun c => ∀ a b st, Score_lt a b →
            within_window a b (optimal_value heuristic c)
                          (result_value (rec c a b st))) cs →
  ∀ alpha beta best visited st,
    Score_lt alpha beta →
    let r := alpha_beta_loop rec false cs (alpha, beta, best, visited, st) in
    Score_le (loop_beta r) beta
    ∧ within_window alpha beta
        (foldr Score_min PosInf (map (optimal_value heuristic) cs)) (loop_beta r).
Proof.
  intros Hcs. induction Hcs as [|c cs Hc _ IH];
    intros alpha beta best visited st Hlt.
  { simpl. split; [apply Score_le_refl | apply window_min_nil]. }
  cbn [alpha_beta_loop map foldr].
  set (v := result_value (rec c alpha beta st)).
  destruct (Hc alpha beta st Hlt) as [[Hm Hv] | [(Hm1 & Hm2 & Hv) | [Hm Hv]]];
    fold v in Hv.
  - (* the child does not exceed alpha: cutoff *)
    pose proof (Score_le_lt_trans _ _ _ Hv Hlt) as Hvb.
    unfold Score_lt in Hvb. rewrite Hvb. unfold Score_leb.
    unfold Score_le in Hv. rewrite Hv. cbn [negb].
    unfold loop_beta. cbn [fst snd]. split.
    + by apply Score_lt_le.
    + by apply window_min_cut.
  - (* the child is inside the window: beta is lowered to it *)
    pose proof (Score_lt_eq_r _ _ _ Hm1 Hv) as Hav.
    pose proof (Score_lt_eq_l _ _ _ Hm2 Hv) as Hvb.
    unfold Score_lt in Hvb. rewrite Hvb. unfold Score_leb.
    unfold Score_lt in Hav. rewrite Hav. cbn [negb].
    destruct (IH alpha v (Some (result_node (rec c alpha beta st)))
                (visited ++ [result_node (rec c alpha beta st)])
                (result_counters (rec c alpha beta st)) Hav) as [IH1 IH2].
    split.
    + eapply Score_le_trans; [exact IH1 | apply Score_lt_le; exact Hvb].
    + by eapply window_min_lower.
  - (* the child is not below beta: nothing changes *)
    unfold Score_le in Hv. rewrite Hv. unfold Score_leb.
    unfold Score_lt in Hlt. rewrite Hlt. cbn [negb].
    destruct (IH alpha beta best (visited ++ [result_node (rec c alpha beta st)])
                (result_counters (rec c alpha beta st)) Hlt) as [IH1 IH2].
    split; [exact IH1 | by apply window_min_skip].
Qed.

Lemma alpha_beta_window (node : TreeNode) (alpha beta : Score) (st : Counters) :
  Score_lt alpha beta →
  within_window alpha beta (optimal_value heuristic node)
    (result_value (_alpha_beta_pruning heuristic node alpha beta st)).
Proof.
  revert alpha beta st.
  induction node as [id g mv s1 s2 cs mx d IH] using TreeNode_forall_ind.
  intros alpha beta st Hlt. destruct cs as [|c cs]; [apply window_leaf|].
  cbn [_alpha_beta_pruning optimal_value].
  destruct mx.
  - pose proof (alpha_beta_loop_max
                  (fun c a b s => _alpha_beta_pruning heuristic c a b s)
                  (c :: cs) IH alpha beta None [] st Hlt) as [_ Hloop].
    destruct (alpha_beta_loop _ true (c :: cs) _) as [[[[a1 b1] bn] cs'] st1].
    exact Hloop.
  - pose proof (alpha_beta_loop_min
                  (fun c a b s => _alpha_beta_pruning heuristic c a b s)
                  (c :: cs) IH alpha beta None [] st Hlt) as [_ Hloop].
    destruct (alpha_beta_loop _ false (c :: cs) _) as [[[[a1 b1] bn] cs'] st1].
    exact Hloop.
Qed.

Lemma alpha_beta_loop_count
    (rec : TreeNode → Score → Score → Counters → SearchResult)
    (is_max : bool) (cs : list TreeNode) :
  Forall (fun c => ∀ a b st,
            total_evals st <= total_evals (result_counters (rec c a b st))
                           <= total_evals st + leaf_count c) cs →
  ∀ alpha beta best visited st,
    total_evals st
    <= total_evals
         (loop_counters (alpha_beta_loop rec is_max cs (alpha, beta, best, visited, st)))
    <= total_evals st + foldr Z.add 0 (map leaf_count cs).
Proof.
  intros Hcs. induction Hcs as [|c cs Hc _ IH];
    intros alpha beta best visited st.
  { simpl. lia. }
  cbn [alpha_beta_loop map foldr].
  specialize (Hc alpha beta st).
  assert (Hrest : 0 <= foldr Z.add 0 (map leaf_count cs)).
  { clear. induction cs as [|x l IHl]; simpl; [lia|].
    pose proof (leaf_count_nonneg x). lia. }
  destruct (if is_max then _ else _) as [[a1 b1] bn].
  destruct (Score_leb b1 a1).
  - unfold loop_counters. cbn [snd]. lia.
  - specialize (IH a1 b1 bn (visited ++ [result_node (rec c alpha beta st)])
                   (result_counters (rec c alpha beta st))). lia.
Qed.

Lemma alpha_beta_count (node : TreeNode) (alpha beta : Score) (st : Counters) :
  total_evals st
  <= total_evals (result_counters (_alpha_beta_pruning heuristic node alpha beta st))
  <= total_evals st + leaf_count node.
Proof.
  revert alpha beta st.
  induction node as [id g mv s1 s2 cs mx d IH] using TreeNode_forall_ind.
  intros alpha beta st. destruct cs as [|c cs]; [simpl; lia|].
  cbn [_alpha_beta_pruning leaf_count].
  pose proof (alpha_beta_loop_count
                (fun c a b s => _alpha_beta_pruning heuristic c a b s)
                mx (c :: cs) IH alpha beta None [] st) as Hloop.
  destruct (alpha_beta_loop _ mx (c :: cs) _) as [[[[a1 b1] bn] cs'] st1].
  exact Hloop.
Qed.

(** C4.  On one tree and with one leaf evaluation, alpha-beta evaluates
    at most as many leaves as minimax, and the value each of them returns
    for the root is the optimal value of the tree. *)
Theorem alpha_beta_matches_minimax (node : TreeNode) (st : Counters) :
  let by_minimax := minimax heuristic node st in
  let by_alpha_beta := alpha_beta_pruning heuristic node st in
  total_evals (result_counters by_alpha_beta) - total_evals st
    <= total_evals (result_counters by_minimax) - total_evals st
  ∧ Score_eq (result_value by_minimax) (optimal_value heuristic node)
  ∧ Score_eq (result_value by_alpha_beta) (optimal_value heuristic node).
Proof.
  cbv zeta. split; [|split].
  - pose proof (alpha_beta_count node NegInf PosInf st).
    pose proof (minimax_count node st).
    unfold alpha_beta_pruning. lia.
  - apply minimax_value.
  - destruct (optimal_value_finite node) as [q Hq].
    eapply window_full; [exact Hq|].
    apply alpha_beta_window. reflexivity.
Qed.

End SearchProperties.

(** On the example tree minimax evaluates all five leaves, alpha-beta three
    of them (after leaf 2 the second subtree is cut off); both return 3. *)
Example example_tree_search :
  let by_minimax := minimax score_by_id example_tree (mkCounters 0 ∅) in
  let by_alpha_beta := alpha_beta_pruning score_by_id example_tree (mkCounters 0 ∅) in
  result_value by_minimax = Num 3
  ∧ total_evals (result_counters by_minimax) = 5
  ∧ result_value by_alpha_beta = Num 3
  ∧ total_evals (result_counters by_alpha_beta) = 3.
Proof. vm_compute. done. Qed.

(** ** The states of play are well formed *)

Lemma healths_ok_set (self : Game) (c : Coord) (u : option Unit) :
  healths_ok self →
  match u with Some x => 0 <= health x <= 9 | None => True end →
  healths_ok (set self c u).
Proof.
  intros Hok Hu. unfold healths_ok, set.
  destruct (is_valid_coord self c); [|done]. simpl.
  apply Forall_alter; [done|]. intros r _ Hr.
  by apply Forall_insert.
Qed.

Lemma remove_dead_healths_ok (self : Game) (c : Coord) :
  healths_ok self → healths_ok (remove_dead self c).
Proof.
  intros Hok. unfold remove_dead. destruct (get self c) as [u|]; [|done].
  destruct (negb (is_alive u)); [|done].
  pose proof (healths_ok_set self c None Hok I) as Hok1.
  destruct (UnitType_eqb (type u) AI); [destruct (Player_eqb _ _)|]; exact Hok1.
Qed.

Lemma Unit_mod_health_range (u : Unit) (delta : Z) :
  0 <= health (Unit_mod_health u delta) <= 9.
Proof.
  unfold Unit_mod_health. simpl.
  destruct (health u + delta <? 0) eqn:E1; [lia|]. apply Z.ltb_ge in E1.
  destruct (9 <? health u + delta) eqn:E2; [lia|]. apply Z.ltb_ge in E2. lia.
Qed.

Lemma mod_health_healths_ok (self : Game) (c : Coord) (delta : Z) :
  healths_ok self → healths_ok (mod_health self c delta).
Proof.
  intros Hok. unfold mod_health. destruct (get self c) as [u|]; [|done].
  apply remove_dead_healths_ok, healths_ok_set; [done|].
  apply Unit_mod_health_range.
Qed.

Lemma foldl_mod_health_healths_ok (l : list Coord) (g : Game) (delta : Z) :
  healths_ok g → healths_ok (foldl (fun g a => mod_health g a delta) g l).
Proof.
  revert g. induction l as [|a l IH]; intros g Hok; [done|].
  simpl. by apply IH, mod_health_healths_ok.
Qed.

Lemma post_init_well_formed (opts : Options) :
  wf_board (post_init opts) ∧ healths_ok (post_init opts).
Proof.
  unfold post_init.
  set (g0 := mkGame _ _ _ _ _ _).
  assert (H0 : wf_board g0 ∧ healths_ok g0).
  { split; [split|]; simpl.
    - by rewrite length_replicate.
    - apply Forall_replicate. by rewrite length_replicate.
    - apply Forall_replicate, Forall_replicate. done. }
  revert H0. generalize g0.
  match goal with |- ∀ g, _ → _ ∧ healths_ok (foldl _ g ?l) =>
    assert (Hl : Forall (fun '(_, u) => health u = 9) l)
      by (repeat constructor); revert Hl; generalize l end.
  intros l Hl. induction Hl as [|[rc u] l Hu _ IH]; intros g [Hwf Hok]; [done|].
  simpl. apply IH. split; [by apply set_wf_board|].
  apply healths_ok_set; [done | lia].
Qed.

Lemma perform_move_well_formed (g : Game) (coords : CoordPair)
    (r : bool * string) (g' : Game) :
  wf_board g → healths_ok g →
  perform_move g coords = Some (r, g') →
  wf_board g' ∧ healths_ok g'.
Proof.
  intros Hwf Hok. unfold perform_move.
  destruct (is_valid_move g coords) as [[is_valid move_type] error].
  destruct is_valid; [|by intros [= _ <-]].
  destruct (String.eqb move_type "valid move").
  { intros [= _ <-]. split; [by do 2 apply set_wf_board|].
    apply healths_ok_set; [|done]. apply healths_ok_set; [done|].
    destruct (get g (src coords)) as [u|] eqn:Hu; [|done].
    by apply (healths_ok_get g (src coords)). }
  destruct (String.eqb move_type "attack").
  { unfold perform_attack.
    destruct (get g (src coords)) as [s|]; [|done].
    destruct (get g (dst coords)) as [d|]; [|done]. simpl.
    intros [= _ <-].
    split; [by do 2 apply mod_health_wf_board
           | by do 2 apply mod_health_healths_ok]. }
  destruct (String.eqb move_type "repair").
  { unfold perform_repair.
    destruct (get g (src coords)) as [s|]; [|done].
    destruct (get g (dst coords)) as [d|]; [|done]. simpl.
    intros [= _ <-].
    split; [by apply mod_health_wf_board | by apply mod_health_healths_ok]. }
  destruct (String.eqb move_type "self-destruct"); [|done].
  unfold perform_self_destruction.
  destruct (get g (src coords)) as [s|]; [|done]. cbn [mbind option_bind].
  rewrite foldl_guarded_mod_health.
  set (after := foldl _ _ _).
  assert (Hafter : wf_board after ∧ healths_ok after).
  { split.
    - by apply foldl_mod_health_wf_board, mod_health_wf_board.
    - by apply foldl_mod_health_healths_ok, mod_health_healths_ok. }
  clearbody after. intros [= _ <-]. exact Hafter.
Qed.

(** Every state of play has a [dim] x [dim] board and healths within 0..9:
    the two assumptions of the effect theorems hold wherever the program
    applies a move. *)
Lemma reachable_well_formed (g : Game) :
  reachable g → wf_board g ∧ healths_ok g.
Proof.
  induction 1 as [opts | g coords r g' _ [Hwf Hok] Hmove | g _ [Hwf Hok]].
  - apply post_init_well_formed.
  - by eapply perform_move_well_formed.
  - split; [exact Hwf | exact Hok].
Qed.

(** ** From the store to the tree value *)

Lemma children_later_init : children_later Tree_init.
Proof. intros p np c Hp. simpl in Hp. by rewrite lookup_nil in Hp. Qed.

Lemma add_node_children_later (self : Tree) id game move e1 e2 parent (t' : Tree) :
  children_later self →
  add_node self id game move e1 e2 parent = Some t' →
  children_later t'.
Proof.
  intros Hlater Hadd. destruct parent as [p|].
  - apply add_node_child in Hadd as (l & n & d & Hn & Hd & Hr & Hobj).
    pose proof (lookup_lt_Some _ _ _ Hn) as Hlt.
    intros q nq c Hq Hc. rewrite Hobj in *.
    rewrite length_app, length_insert. simpl.
    apply lookup_snoc_Some in Hq as [[Hqlt Hq] | [_ ->]];
      [|by apply elem_of_nil in Hc].
    rewrite length_insert in Hqlt.
    destruct (decide (l = q)) as [<- | Hne].
    + rewrite list_lookup_insert_eq in Hq by done. injection Hq as <-.
      simpl in Hc. apply elem_of_app in Hc as [Hc | Hc].
      * pose proof (Hlater l n c Hn Hc). lia.
      * apply list_elem_of_singleton in Hc as ->. lia.
    + rewrite list_lookup_insert_ne in Hq by done.
      pose proof (Hlater q nq c Hq Hc). lia.
  - apply add_node_root in Hadd as [Hr Hobj].
    intros q nq c Hq Hc. rewrite Hobj in *. rewrite length_app. simpl.
    apply lookup_snoc_Some in Hq as [[Hqlt Hq] | [_ ->]];
      [|by apply elem_of_nil in Hc].
    pose proof (Hlater q nq c Hq Hc). lia.
Qed.

Lemma build_children_later (calls : list AddCall) (t0 t : Tree) :
  children_later t0 → build t0 calls = Some t → children_later t.
Proof.
  revert t0. induction calls as [|c calls IH]; intros t0 Hinv Hb; simpl in Hb.
  { by injection Hb as <-. }
  destruct (add_node t0 _ _ _ _ _ (call_parent c)) as [t1|] eqn:Hadd; [|done].
  simpl in Hb. apply (IH t1); [|done]. by eapply add_node_children_later.
Qed.

Lemma tree_invariant_depth_set (t : Tree) (l : nat) (n : NodeObject) :
  tree_invariant t → objects t !! l = Some n → is_Some (obj_depth n).
Proof.
  intros (_ & Hedges & Hplaced) Hn.
  destruct (Hplaced l n Hn) as [[Hd _] | (p & np & Hp & Hin)]; [by eexists|].
  destruct (Hedges p np l Hp Hin) as (n' & d & Hn' & _ & Hd & _).
  assert (n' = n) as -> by congruence. by eexists.
Qed.

Lemma tree_view_enough_fuel (t : Tree) (fuel loc : nat) :
  tree_invariant t → children_later t →
  (loc < length (objects t))%nat →
  (length (objects t) - loc <= fuel)%nat →
  is_Some (tree_view (objects t) fuel loc).
Proof.
  intros Hinv Hlater. revert loc.
  induction fuel as [|fuel IH]; intros loc Hloc Hfuel; [lia|].
  destruct (lookup_lt_is_Some_2 _ _ Hloc) as [o Ho].
  destruct (tree_invariant_depth_set t loc o Hinv Ho) as [d Hd].
  cbn [tree_view]. rewrite Ho. simpl. rewrite Hd. simpl.
  assert (Hcs : is_Some (mapM (tree_view (objects t) fuel) (obj_children o))).
  { apply mapM_is_Some, Forall_forall. intros c Hc.
    pose proof (Hlater loc o c Ho Hc). apply IH; lia. }
  destruct Hcs as [cs ->]. simpl. by eexists.
Qed.

(** Every node of a built tree unfolds to a tree value: the object graph
    below it is a finite tree. *)
Lemma tree_view_total (calls : list AddCall) (t : Tree) (loc : nat) :
  build Tree_init calls = Some t →
  (loc < length (objects t))%nat →
  is_Some (tree_view (objects t) (length (objects t)) loc).
Proof.
  intros Hb Hloc. apply tree_view_enough_fuel; [| |done|lia].
  - exact (build_invariant _ _ _ tree_invariant_init Hb).
  - exact (build_children_later _ _ _ children_later_init Hb).
Qed.

(** The tree values handed to the search alternate level by level. *)
Lemma tree_view_alternating (t : Tree) (fuel loc : nat) (v : TreeNode) :
  tree_invariant t →
  tree_view (objects t) fuel loc = Some v →
  (∃ o, objects t !! loc = Some o
        ∧ obj_depth o = Some (depth v) ∧ obj_max o = max v)
  ∧ alternating v.
Proof.
  intros Hinv. revert loc v.
  induction fuel as [|fuel IH]; intros loc v Hv; [done|].
  cbn [tree_view] in Hv.
  destruct (objects t !! loc) as [o|] eqn:Ho; [|done]. simpl in Hv.
  destruct (obj_depth o) as [d|] eqn:Hd; [|done]. simpl in Hv.
  destruct (mapM _ (obj_children o)) as [cs|] eqn:Hcs; [|done]. simpl in Hv.
  injection Hv as <-. split; [exists o; done|].
  apply mapM_Some_1 in Hcs. cbn [alternating].
  destruct Hinv as (Hroot & Hedges & Hplaced).
  assert (Hall : ∀ l vs,
            Forall2 (fun c vc => tree_view (objects t) fuel c = Some vc) l vs →
            (∀ c, c ∈ l → c ∈ obj_children o) →
            foldr (fun c rest =>
                     depth c = d + 1 ∧ max c = negb (obj_max o)
                     ∧ alternating c ∧ rest) True vs).
  { intros l vs Hl. induction Hl as [|c vc l vs Hc _ IHl]; intros Hch; [done|].
    destruct (IH c vc Hc) as [(oc & Hoc & Hdc & Hmc) Halt].
    destruct (Hedges loc o c Ho (Hch c ltac:(by left)))
      as (oc' & d' & Hoc' & Hd' & Hdc' & Hmc').
    assert (oc' = oc) as -> by congruence.
    rewrite Hd in Hd'. injection Hd' as <-.
    cbn [foldr]. repeat split.
    - congruence.
    - congruence.
    - exact Halt.
    - apply IHl. intros x Hx. apply Hch. by right. }
  by apply (Hall (obj_children o)).
Qed.

(* ================================================================== *)
(** * Further properties of the code *)
(* ================================================================== *)

(** ** No dead unit stays on the board *)

Lemma damaged_alive (cell : option Unit) (delta : Z) (u : Unit) :
  damaged cell delta = Some u → 1 <= health u <= 9.
Proof.
  unfold damaged. destruct cell as [x|]; [|done].
  destruct (is_alive (Unit_mod_health x delta)) eqn:E; [|done].
  intros [= <-]. pose proof (Unit_mod_health_range x delta).
  unfold is_alive in E. apply Z.ltb_lt in E. lia.
Qed.

Lemma mod_health_units_alive (self : Game) (c : Coord) (delta : Z) :
  wf_board self → units_alive self → units_alive (mod_health self c delta).
Proof.
  intros Hwf Hal c' u. rewrite get_mod_health by done.
  destruct (Coord_eqb c c'); [apply damaged_alive | apply Hal].
Qed.

Lemma foldl_mod_health_units_alive (l : list Coord) (g : Game) (delta : Z) :
  wf_board g → units_alive g →
  units_alive (foldl (fun g a => mod_health g a delta) g l).
Proof.
  revert g. induction l as [|a l IH]; intros g Hwf Hal; [done|].
  simpl. apply IH; [by apply mod_health_wf_board | by apply mod_health_units_alive].
Qed.

Lemma set_units_alive (self : Game) (c : Coord) (cell : option Unit) :
  wf_board self → units_alive self →
  (∀ u, cell = Some u → 1 <= health u <= 9) →
  units_alive (set self c cell).
Proof.
  intros Hwf Hal Hcell c' u.
  destruct (is_valid_coord self c) eqn:Hv.
  - rewrite get_set by done. destruct (Coord_eqb c c'); [apply Hcell | apply Hal].
  - unfold set. rewrite Hv. apply Hal.
Qed.

Lemma post_init_units_alive (opts : Options) : units_alive (post_init opts).
Proof.
  unfold post_init.
  set (g0 := mkGame _ _ _ _ _ _).
  assert (H0 : wf_board g0 ∧ units_alive g0).
  { split; [split|]; simpl.
    - by rewrite length_replicate.
    - apply Forall_replicate. by rewrite length_replicate.
    - intros c u. unfold get, board_cell. simpl.
      destruct (is_valid_coord g0 c); [|done].
      destruct (replicate _ _ !! Z.to_nat (row c)) as [r|] eqn:Hr; [|done].
      apply lookup_replicate in Hr as [-> _]. simpl.
      destruct (replicate _ _ !! Z.to_nat (col c)) as [x|] eqn:Hx; [|done].
      apply lookup_replicate in Hx as [-> _]. done. }
  revert H0. generalize g0.
  match goal with |- ∀ g, _ → units_alive (foldl _ g ?l) =>
    assert (Hl : Forall (fun '(_, u) => health u = 9) l)
      by (repeat constructor); revert Hl; generalize l end.
  intros l Hl. induction Hl as [|[rc u] l Hu _ IH]; intros g [Hwf Hal]; [done|].
  simpl. apply IH. split; [by apply set_wf_board|].
  apply set_units_alive; [done..|]. intros ? [= <-]. lia.
Qed.

Lemma perform_move_units_alive (g : Game) (coords : CoordPair)
    (r : bool * string) (g' : Game) :
  wf_board g → units_alive g →
  perform_move g coords = Some (r, g') → units_alive g'.
Proof.
  intros Hwf Hal. unfold perform_move.
  destruct (is_valid_move g coords) as [[is_valid move_type] error].
  destruct is_valid; [|by intros [= _ <-]].
  destruct (String.eqb move_type "valid move").
  { intros [= _ <-]. apply set_units_alive; [by apply set_wf_board| |done].
    apply set_units_alive; [done..|]. intros u Hu. by apply (Hal (src coords)). }
  destruct (String.eqb move_type "attack").
  { unfold perform_attack.
    destruct (get g (src coords)) as [s|]; [|done].
    destruct (get g (dst coords)) as [d|]; [|done]. simpl.
    intros [= _ <-]. apply mod_health_units_alive; [by apply mod_health_wf_board|].
    by apply mod_health_units_alive. }
  destruct (String.eqb move_type "repair").
  { unfold perform_repair.
    destruct (get g (src coords)) as [s|]; [|done].
    destruct (get g (dst coords)) as [d|]; [|done]. simpl.
    intros [= _ <-]. by apply mod_health_units_alive. }
  destruct (String.eqb move_type "self-destruct"); [|done].
  unfold perform_self_destruction.
  destruct (get g (src coords)) as [s|]; [|done]. cbn [mbind option_bind].
  rewrite foldl_guarded_mod_health.
  set (after := foldl _ _ _).
  assert (Hafter : units_alive after).
  { apply foldl_mod_health_units_alive; [by apply mod_health_wf_board|].
    by apply mod_health_units_alive. }
  clearbody after. intros [= _ <-]. exact Hafter.
Qed.

(** X1.  In every state of play (a fresh game of any options, followed by
    any moves and turn changes) each unit on the board has a health within
    1..9: a unit whose health reaches 0 never stays on the board. *)
Theorem reachable_units_alive (g : Game) :
  reachable g → units_alive g.
Proof.
  intros Hr. induction Hr as [opts | g coords r g' Hg IH Hmove | g _ IH].
  - apply post_init_units_alive.
  - destruct (reachable_well_formed g Hg) as [Hwf _].
    by eapply perform_move_units_alive.
  - exact IH.
Qed.

Lemma reachable_units_alive_witness : units_alive opened_game.
Proof.
  apply reachable_units_alive. unfold opened_game.
  destruct (perform_move initial_game (mkCoordPair (mkCoord 2 4) (mkCoord 1 4)))
    as [[r g]|] eqn:E; [|vm_compute in E; discriminate].
  apply reachable_turn.
  apply (reachable_move initial_game (mkCoordPair (mkCoord 2 4) (mkCoord 1 4)) r);
    [apply reachable_init | exact E].
Defined.

(** ** [ai_move] always answers *)

(** X2.  On a well-formed board [ai_move] never raises: whenever
    [is_valid_move] accepts the move, the units that [perform_attack],
    [perform_repair] and [perform_self_destruction] look up with [get] and
    then dereference are on the board.  The pair it returns has the verdict
    of [is_valid_move] as its first component.  (What [ai_move] prints on a
    rejection is not part of the model.) *)
Theorem ai_move_returns (self : Game) (coords : CoordPair) :
  wf_board self →
  ∃ r after,
    ai_move self coords = Some (r, after)
    ∧ r.1 = (is_valid_move self coords).1.1.
Proof.
  intros _. unfold ai_move.
  destruct (is_valid_move self coords) as [[is_valid move_type] error] eqn:H.
  destruct is_valid; [|by eexists _, _].
  destruct (is_valid_move_types _ _ _ _ H) as [-> | [-> | [-> | ->]]].
  - by eexists _, _.
  - assert (error = None) as ->.
    { clear -H. unfold is_valid_move in H. repeat ivm_step H; by simplify_eq. }
    destruct (is_valid_move_attack _ _ H) as (s & d & Hs & Hd & _).
    cbn -[perform_attack]. unfold perform_attack. rewrite Hs, Hd. simpl.
    by eexists _, _.
  - assert (error = None) as ->.
    { clear -H. unfold is_valid_move in H. repeat ivm_step H; by simplify_eq. }
    destruct (is_valid_move_repair _ _ H) as (s & d & Hs & Hd & _).
    cbn -[perform_repair]. unfold perform_repair. rewrite Hs, Hd. simpl.
    by eexists _, _.
  - assert (error = None) as ->.
    { clear -H. unfold is_valid_move in H. repeat ivm_step H; by simplify_eq. }
    destruct (is_valid_move_self_destruct _ _ H) as (s & Hs & _).
    cbn -[perform_self_destruction]. unfold perform_self_destruction.
    rewrite Hs. cbn [mbind option_bind]. by eexists _, _.
Qed.

Lemma ai_move_returns_witness :
  ∃ r after,
    ai_move skirmish_game (mkCoordPair (mkCoord 2 1) (mkCoord 1 1)) = Some (r, after)
    ∧ r.1 = (is_valid_move skirmish_game (mkCoordPair (mkCoord 2 1) (mkCoord 1 1))).1.1.
Proof.
  apply (ai_move_returns skirmish_game (mkCoordPair (mkCoord 2 1) (mkCoord 1 1))).
  split; [reflexivity | repeat constructor].
Defined.

(** ** What the classifications tell, continued *)

Lemma is_valid_move_ordinary (self : Game) (coords : CoordPair) :
  is_valid_move self coords = (true, "valid move", None) →
  ∃ s, get self (src coords) = Some s
       ∧ get self (dst coords) = None
       ∧ is_valid_coord self (src coords) = true
       ∧ is_valid_coord self (dst coords) = true
       ∧ (is_combat_type (type s) = true → player s = Attacker →
          row (dst coords) <= row (src coords) ∧ col (dst coords) <= col (src coords))
       ∧ (is_combat_type (type s) = true → player s = Defender →
          row (src coords) <= row (dst coords) ∧ col (src coords) <= col (dst coords)).
Proof.
  intros H. unfold is_valid_move in H.
  repeat ivm_step H; ivm_facts; simplify_eq;
    apply bool_decide_eq_true in H; try congruence.
  all: eexists; repeat split; try done; try congruence.
  all: repeat match goal with
       | Hp : player ?u = Attacker, E : context [Player_eqb (player ?u) _] |- _ =>
           rewrite Hp in E; cbn [Player_eqb andb] in E
       | Hp : player ?u = Defender, E : context [Player_eqb (player ?u) _] |- _ =>
           rewrite Hp in E; cbn [Player_eqb andb] in E
       end.
  all: repeat match goal with
       | E : _ || _ = false |- _ => apply orb_false_iff in E as [? ?]
       | E : (_ <? _) = false |- _ => apply Z.ltb_ge in E
       end; lia.
Qed.

(** ** Attack and ordinary move *)

Lemma damage_table_range (a b : UnitType) : 0 <= table_at damage_table a b <= 9.
Proof. destruct a, b; vm_compute; split; discriminate. Qed.

Lemma repair_table_range (a b : UnitType) : 0 <= table_at repair_table a b <= 3.
Proof. destruct a, b; vm_compute; split; discriminate. Qed.

(** X3.  A move classified as attack lowers the health of the target by the
    damage-table entry (attacker type, target type) and the health of the
    attacker by the entry (target type, attacker type), both read before
    either unit is touched; neither health goes below 0, a unit at 0 is
    removed, and no other cell changes. *)
Theorem attack_effect (self : Game) (coords : CoordPair) :
  wf_board self → healths_ok self →
  is_valid_move self coords = (true, "attack", None) →
  ∃ s d after,
    get self (src coords) = Some s
    ∧ get self (dst coords) = Some d
    ∧ player d ≠ player s
    ∧ perform_move self coords = Some ((true, "Attack initiated"), after)
    ∧ get after (dst coords) = hit d (table_at damage_table (type s) (type d))
    ∧ get after (src coords) = hit s (table_at damage_table (type d) (type s))
    ∧ (∀ c, c ≠ src coords → c ≠ dst coords → get after c = get self c).
Proof.
  intros Hwf Hok Hcls.
  destruct (is_valid_move_attack _ _ Hcls) as (s & d & Hs & Hd & Hne & Hpl).
  exists s, d.
  unfold perform_move. rewrite Hcls. cbn -[perform_attack].
  unfold perform_attack. rewrite Hs, Hd. cbn [mbind option_bind].
  set (dd := table_at damage_table (type s) (type d)).
  set (sd := table_at damage_table (type d) (type s)).
  pose proof (damage_table_range (type s) (type d)) as Hdd. fold dd in Hdd.
  pose proof (damage_table_range (type d) (type s)) as Hsd. fold sd in Hsd.
  eexists. do 3 (split; [done|]). split; [reflexivity|].
  assert (Hwf1 : wf_board (mod_health self (src coords) (- sd)))
    by (by apply mod_health_wf_board).
  pose proof (healths_ok_get self _ s Hok Hs) as Hhs.
  pose proof (healths_ok_get self _ d Hok Hd) as Hhd.
  split; [|split].
  - rewrite get_mod_health, Coord_eqb_refl by done.
    rewrite get_mod_health by done.
    destruct (Coord_eqb (src coords) (dst coords)) eqn:E;
      [by apply Coord_eqb_eq in E|].
    rewrite Hd. apply damaged_hit; lia.
  - rewrite get_mod_health by done.
    destruct (Coord_eqb (dst coords) (src coords)) eqn:E;
      [apply Coord_eqb_eq in E; congruence|].
    rewrite get_mod_health, Coord_eqb_refl, Hs by done.
    apply damaged_hit; lia.
  - intros c Hc1 Hc2. rewrite get_mod_health by done.
    destruct (Coord_eqb (dst coords) c) eqn:E;
      [apply Coord_eqb_eq in E; congruence|].
    rewrite get_mod_health by done.
    destruct (Coord_eqb (src coords) c) eqn:E';
      [apply Coord_eqb_eq in E'; congruence|]. done.
Qed.

Lemma ambush_wf_board : wf_board ambush_game.
Proof. split; [reflexivity | repeat constructor]. Defined.

Lemma ambush_healths_ok : healths_ok ambush_game.
Proof. vm_compute. repeat constructor; discriminate. Defined.

Lemma attack_effect_witness :
  ∃ s d after,
    get ambush_game (mkCoord 1 0) = Some s
    ∧ get ambush_game (mkCoord 1 1) = Some d
    ∧ player d ≠ player s
    ∧ perform_move ambush_game (mkCoordPair (mkCoord 1 0) (mkCoord 1 1))
      = Some ((true, "Attack initiated"), after)
    ∧ get after (mkCoord 1 1) = hit d (table_at damage_table (type s) (type d))
    ∧ get after (mkCoord 1 0) = hit s (table_at damage_table (type d) (type s))
    ∧ (∀ c, c ≠ mkCoord 1 0 → c ≠ mkCoord 1 1 → get after c = get ambush_game c).
Proof.
  apply (attack_effect ambush_game (mkCoordPair (mkCoord 1 0) (mkCoord 1 1))).
  - exact ambush_wf_board.
  - exact ambush_healths_ok.
  - reflexivity.
Defined.

Lemma set_attacker_flag (self : Game) (c : Coord) (u : option Unit) :
  _attacker_has_ai (set self c u) = _attacker_has_ai self.
Proof. unfold set. by destruct (is_valid_coord self c). Qed.

Lemma set_defender_flag (self : Game) (c : Coord) (u : option Unit) :
  _defender_has_ai (set self c u) = _defender_has_ai self.
Proof. unfold set. by destruct (is_valid_coord self c). Qed.

Lemma set_next_player (self : Game) (c : Coord) (u : option Unit) :
  next_player (set self c u) = next_player self.
Proof. unfold set. by destruct (is_valid_coord self c). Qed.

Lemma set_turns_played (self : Game) (c : Coord) (u : option Unit) :
  turns_played (set self c u) = turns_played self.
Proof. unfold set. by destruct (is_valid_coord self c). Qed.

(** X4.  A move classified as an ordinary move takes the unit from the
    source to the destination, which was empty; the unit itself, every other
    cell and both has-AI flags stay as they were. *)
Theorem ordinary_move_effect (self : Game) (coords : CoordPair) :
  wf_board self →
  is_valid_move self coords = (true, "valid move", None) →
  ∃ s after,
    get self (src coords) = Some s
    ∧ get self (dst coords) = None
    ∧ perform_move self coords = Some ((true, "Move initiated"), after)
    ∧ get after (dst coords) = Some s
    ∧ get after (src coords) = None
    ∧ (∀ c, c ≠ src coords → c ≠ dst coords → get after c = get self c)
    ∧ _attacker_has_ai after = _attacker_has_ai self
    ∧ _defender_has_ai after = _defender_has_ai self.
Proof.
  intros Hwf Hcls.
  destruct (is_valid_move_ordinary _ _ Hcls) as (s & Hs & Hd & Hvs & Hvd & _).
  exists s. unfold perform_move. rewrite Hcls. cbn.
  eexists. do 2 (split; [done|]). split; [reflexivity|].
  assert (Hwf1 : wf_board (set self (dst coords) (get self (src coords))))
    by (by apply set_wf_board).
  assert (Hne : src coords ≠ dst coords) by congruence.
  rewrite Hs in *.
  split; [|split; [|split; [|split]]].
  - rewrite get_set by (by rewrite ?is_valid_coord_set).
    destruct (Coord_eqb (src coords) (dst coords)) eqn:E;
      [by apply Coord_eqb_eq in E|].
    by rewrite get_set, Coord_eqb_refl.
  - rewrite get_set by (by rewrite ?is_valid_coord_set).
    by rewrite Coord_eqb_refl.
  - intros c Hc1 Hc2. rewrite get_set by (by rewrite ?is_valid_coord_set).
    destruct (Coord_eqb (src coords) c) eqn:E;
      [apply Coord_eqb_eq in E; congruence|].
    rewrite get_set by done.
    destruct (Coord_eqb (dst coords) c) eqn:E';
      [apply Coord_eqb_eq in E'; congruence|]. done.
  - by rewrite !set_attacker_flag.
  - by rewrite !set_defender_flag.
Qed.

Lemma ordinary_move_effect_witness :
  ∃ s after,
    get initial_game (mkCoord 2 4) = Some s
    ∧ get initial_game (mkCoord 1 4) = None
    ∧ perform_move initial_game (mkCoordPair (mkCoord 2 4) (mkCoord 1 4))
      = Some ((true, "Move initiated"), after)
    ∧ get after (mkCoord 1 4) = Some s
    ∧ get after (mkCoord 2 4) = None
    ∧ (∀ c, c ≠ mkCoord 2 4 → c ≠ mkCoord 1 4 → get after c = get initial_game c)
    ∧ _attacker_has_ai after = _attacker_has_ai initial_game
    ∧ _defender_has_ai after = _defender_has_ai initial_game.
Proof.
  apply (ordinary_move_effect initial_game
           (mkCoordPair (mkCoord 2 4) (mkCoord 1 4))).
  - apply post_init_well_formed.
  - reflexivity.
Defined.

(** ** What [perform_move] leaves alone *)

Lemma same_turn_refl (g : Game) : same_turn g g.
Proof. by repeat split. Qed.

Lemma same_turn_trans (g1 g2 g3 : Game) :
  same_turn g1 g2 → same_turn g2 g3 → same_turn g1 g3.
Proof.
  intros (? & ? & ? & ? & ?) (? & ? & ? & ? & ?).
  repeat split; try congruence; auto.
Qed.

Lemma set_same_turn (g : Game) (c : Coord) (u : option Unit) :
  same_turn g (set g c u).
Proof.
  repeat split;
    rewrite ?set_next_player, ?set_turns_played, ?set_options,
            ?set_attacker_flag, ?set_defender_flag; done.
Qed.

Lemma remove_dead_same_turn (g : Game) (c : Coord) : same_turn g (remove_dead g c).
Proof.
  unfold remove_dead. destruct (get g c) as [u|]; [|apply same_turn_refl].
  destruct (negb (is_alive u)); [|apply same_turn_refl].
  pose proof (set_same_turn g c None) as (? & ? & ? & ? & ?).
  destruct (UnitType_eqb (type u) AI); [destruct (Player_eqb _ _)|];
    repeat split; simpl; try done.
Qed.

Lemma mod_health_same_turn (g : Game) (c : Coord) (delta : Z) :
  same_turn g (mod_health g c delta).
Proof.
  unfold mod_health. destruct (get g c) as [u|]; [|apply same_turn_refl].
  eapply same_turn_trans; [apply set_same_turn | apply remove_dead_same_turn].
Qed.

Lemma foldl_mod_health_same_turn (l : list Coord) (g : Game) (delta : Z) :
  same_turn g (foldl (fun g a => mod_health g a delta) g l).
Proof.
  revert g. induction l as [|a l IH]; intros g; [apply same_turn_refl|].
  simpl. eapply same_turn_trans; [apply mod_health_same_turn | apply IH].
Qed.

(** X5.  Whatever the move, [perform_move] leaves the side to move, the
    turn counter and the options as they were (only [next_turn] advances a
    turn), and it never sets a has-AI flag that was cleared. *)
Theorem perform_move_same_turn (self : Game) (coords : CoordPair)
    (r : bool * string) (after : Game) :
  perform_move self coords = Some (r, after) → same_turn self after.
Proof.
  unfold perform_move.
  destruct (is_valid_move self coords) as [[is_valid move_type] error].
  destruct is_valid; [|intros [= _ <-]; apply same_turn_refl].
  destruct (String.eqb move_type "valid move").
  { intros [= _ <-].
    eapply same_turn_trans; apply set_same_turn. }
  destruct (String.eqb move_type "attack").
  { unfold perform_attack.
    destruct (get self (src coords)); [|done].
    destruct (get self (dst coords)); [|done]. simpl.
    intros [= _ <-]. eapply same_turn_trans; apply mod_health_same_turn. }
  destruct (String.eqb move_type "repair").
  { unfold perform_repair.
    destruct (get self (src coords)); [|done].
    destruct (get self (dst coords)); [|done]. simpl.
    intros [= _ <-]. apply mod_health_same_turn. }
  destruct (String.eqb move_type "self-destruct"); [|done].
  unfold perform_self_destruction.
  destruct (get self (src coords)); [|done]. cbn [mbind option_bind].
  rewrite foldl_guarded_mod_health.
  set (after' := foldl _ _ _).
  assert (Hafter : same_turn self after').
  { eapply same_turn_trans;
      [apply mod_health_same_turn | apply foldl_mod_health_same_turn]. }
  clearbody after'. intros [= _ <-]. exact Hafter.
Qed.

Lemma perform_move_same_turn_witness :
  ∃ after,
    perform_move ambush_game (mkCoordPair (mkCoord 1 0) (mkCoord 0 0))
    = Some ((true, "Attack initiated"), after)
    ∧ same_turn ambush_game after.
Proof.
  eexists. split; [reflexivity|].
  apply (perform_move_same_turn ambush_game
           (mkCoordPair (mkCoord 1 0) (mkCoord 0 0)) (true, "Attack initiated")).
  reflexivity.
Defined.

(** ** Losing the AI ends the game *)

Lemma mod_health_kills_ai (g : Game) (c : Coord) (delta : Z) (u : Unit) :
  wf_board g → get g c = Some u → type u = AI → health u + delta <= 0 →
  has_ai (mod_health g c delta) (player u) = false.
Proof.
  intros Hwf Hu Hty Hdead.
  destruct (get_Some_valid _ _ _ Hu) as [Hv _].
  unfold mod_health. rewrite Hu. unfold remove_dead.
  rewrite get_set, Coord_eqb_refl by done.
  unfold is_alive, Unit_mod_health. cbn [health type player].
  assert ((if health u + delta <? 0 then 0
           else if 9 <? health u + delta then 9 else health u + delta) = 0) as ->.
  { destruct (health u + delta <? 0) eqn:E1; [done|]. apply Z.ltb_ge in E1.
    destruct (9 <? health u + delta) eqn:E2; [apply Z.ltb_lt in E2|]; lia. }
  rewrite Hty. cbn. by destruct (player u).
Qed.

Lemma lost_ai_is_finished (g : Game) (p : Player) :
  has_ai g p = false → is_finished g = true ∧ is_finished (next_turn g) = true.
Proof.
  unfold is_finished, has_winner, has_ai. cbn [next_turn options turns_played
    _attacker_has_ai _defender_has_ai].
  intros H. split.
  - destruct (match max_turns (options g) with Some _ => _ | None => _ end); [done|].
    destruct p; rewrite H; [done|]. by destruct (_attacker_has_ai g).
  - destruct (match max_turns (options g) with Some _ => _ | None => _ end); [done|].
    destruct p; rewrite H; [done|]. by destruct (_attacker_has_ai g).
Qed.

(** X6.  When an attack takes the last health of an AI, the AI leaves the
    board, the has-AI flag of its owner is cleared, and [is_finished] holds
    from then on, before and after the turn is passed. *)
Theorem killing_an_ai_finishes_the_game
    (self : Game) (coords : CoordPair) (s d : Unit) :
  wf_board self → healths_ok self →
  is_valid_move self coords = (true, "attack", None) →
  get self (src coords) = Some s →
  get self (dst coords) = Some d →
  type d = AI →
  health d <= table_at damage_table (type s) AI →
  ∃ after,
    perform_move self coords = Some ((true, "Attack initiated"), after)
    ∧ get after (dst coords) = None
    ∧ has_ai after (player d) = false
    ∧ is_finished after = true
    ∧ is_finished (next_turn after) = true.
Proof.
  intros Hwf Hok Hcls Hs Hd Hty Hkill.
  destruct (is_valid_move_attack _ _ Hcls) as (s' & d' & Hs' & Hd' & Hne & _).
  unfold perform_move. rewrite Hcls. cbn -[perform_attack].
  unfold perform_attack. rewrite Hs, Hd. cbn [mbind option_bind].
  rewrite Hty.
  set (g1 := mod_health self (src coords) _).
  assert (Hwf1 : wf_board g1) by (by apply mod_health_wf_board).
  assert (Hd1 : get g1 (dst coords) = Some d).
  { unfold g1. rewrite get_mod_health by done.
    destruct (Coord_eqb (src coords) (dst coords)) eqn:E;
      [by apply Coord_eqb_eq in E | done]. }
  pose proof (healths_ok_get self _ d Hok Hd) as Hhd.
  eexists. split; [reflexivity|].
  assert (Hflag : has_ai (mod_health g1 (dst coords)
                            (- table_at damage_table (type s) AI)) (player d) = false)
    by (apply mod_health_kills_ai; [done..|lia]).
  split; [|split; [exact Hflag | by eapply lost_ai_is_finished]].
  rewrite get_mod_health, Coord_eqb_refl, Hd1 by done.
  pose proof (damage_table_range (type s) AI).
  rewrite damaged_hit by lia. unfold hit.
  replace (Z.max 0 _) with 0 by lia. done.
Qed.

Lemma killing_an_ai_finishes_the_game_witness :
  ∃ after,
    perform_move ambush_game (mkCoordPair (mkCoord 1 0) (mkCoord 0 0))
    = Some ((true, "Attack initiated"), after)
    ∧ get after (mkCoord 0 0) = None
    ∧ has_ai after Defender = false
    ∧ is_finished after = true
    ∧ is_finished (next_turn after) = true.
Proof.
  apply (killing_an_ai_finishes_the_game ambush_game
           (mkCoordPair (mkCoord 1 0) (mkCoord 0 0))
           (mkUnit Attacker Virus 9) (mkUnit Defender AI 9)).
  - exact ambush_wf_board.
  - exact ambush_healths_ok.
  - reflexivity.
  - reflexivity.
  - reflexivity.
  - reflexivity.
  - vm_compute. discriminate.
Defined.

(** ** What is accepted, and what is enumerated *)

Lemma existsb_Coord_eqb (d : Coord) (l : list Coord) :
  existsb (Coord_eqb d) l = true → d ∈ l.
Proof.
  intros (x & Hx & E)%existsb_exists. apply Coord_eqb_eq in E as ->.
  by apply list_elem_of_In.
Qed.

Lemma is_valid_move_accepted (self : Game) (coords : CoordPair) :
  (is_valid_move self coords).1.1 = true →
  ∃ s, get self (src coords) = Some s
       ∧ player s = next_player self
       ∧ is_valid_coord self (src coords) = true
       ∧ is_valid_coord self (dst coords) = true
       ∧ (dst coords = src coords ∨ dst coords ∈ iter_adjacent (src coords)).
Proof.
  destruct (is_valid_move self coords) as [[b t] e] eqn:H. simpl. intros ->.
  unfold is_valid_move in H.
  repeat ivm_step H; ivm_facts;
    repeat match goal with
    | E : existsb (Coord_eqb _) _ = true |- _ => apply existsb_Coord_eqb in E
    end;
    eexists; repeat split; eauto.
Qed.

(** X7.  [is_valid_move] accepts a move only if both coordinates are on
    the board, the source holds a unit of the side to move, and the
    destination is the source itself or one of its four orthogonal
    neighbours. *)
Theorem accepted_move_shape (self : Game) (coords : CoordPair) :
  (is_valid_move self coords).1.1 = true →
  ∃ s, get self (src coords) = Some s
       ∧ player s = next_player self
       ∧ is_valid_coord self (src coords) = true
       ∧ is_valid_coord self (dst coords) = true
       ∧ (dst coords = src coords ∨ dst coords ∈ iter_adjacent (src coords)).
Proof. apply is_valid_move_accepted. Qed.

Lemma accepted_move_shape_witness :
  ∃ s, get initial_game (mkCoord 2 4) = Some s
       ∧ player s = next_player initial_game
       ∧ is_valid_coord initial_game (mkCoord 2 4) = true
       ∧ is_valid_coord initial_game (mkCoord 1 4) = true
       ∧ (mkCoord 1 4 = mkCoord 2 4 ∨ mkCoord 1 4 ∈ iter_adjacent (mkCoord 2 4)).
Proof.
  apply (accepted_move_shape initial_game (mkCoordPair (mkCoord 2 4) (mkCoord 1 4))).
  reflexivity.
Defined.

(** X8.  An ordinary move of an AI, a Firewall or a Program goes up or left
    for the Attacker and down or right for the Defender; its destination is
    empty. *)
Theorem ordinary_move_direction (self : Game) (coords : CoordPair) (s : Unit) :
  is_valid_move self coords = (true, "valid move", None) →
  get self (src coords) = Some s →
  type s = AI ∨ type s = Firewall ∨ type s = Program →
  get self (dst coords) = None
  ∧ match player s with
    | Attacker =>
        row (dst coords) <= row (src coords) ∧ col (dst coords) <= col (src coords)
    | Defender =>
        row (src coords) <= row (dst coords) ∧ col (src coords) <= col (dst coords)
    end.
Proof.
  intros Hcls Hs Hty.
  destruct (is_valid_move_ordinary _ _ Hcls) as (s' & Hs' & Hd & _ & _ & Ha & Hb).
  assert (s' = s) as -> by congruence.
  assert (Hc : is_combat_type (type s) = true)
    by (destruct Hty as [-> | [-> | ->]]; reflexivity).
  split; [done|]. destruct (player s) eqn:Hp; auto.
Qed.

Lemma ordinary_move_direction_witness :
  get initial_game (mkCoord 1 4) = None
  ∧ (row (mkCoord 1 4) <= row (mkCoord 2 4) ∧ col (mkCoord 1 4) <= col (mkCoord 2 4)).
Proof.
  apply (ordinary_move_direction initial_game
           (mkCoordPair (mkCoord 2 4) (mkCoord 1 4)) (mkUnit Attacker Program 9)).
  - reflexivity.
  - reflexivity.
  - right; right; reflexivity.
Defined.

(** The cells that [player_units] visits are the cells of the board. *)
Lemma elem_of_iter_rectangle_from_dim (d : Z) (c : Coord) :
  c ∈ iter_rectangle (from_dim d) ↔ 0 <= row c < d ∧ 0 <= col c < d.
Proof.
  unfold iter_rectangle, from_dim. cbn [src dst row col].
  rewrite list_elem_of_bind. split.
  - intros (r & (k & Hc & Hk)%list_elem_of_bind & Hr).
    apply list_elem_of_singleton in Hc as ->.
    apply elem_of_seqZ in Hr, Hk. simpl. lia.
  - intros [Hr Hk]. exists (row c). split; [|apply elem_of_seqZ; lia].
    apply list_elem_of_bind. exists (col c). split; [|apply elem_of_seqZ; lia].
    destruct c. by apply list_elem_of_singleton.
Qed.

Lemma elem_of_player_units (self : Game) (p : Player) (c : Coord) (u : Unit) :
  (c, u) ∈ player_units self p ↔ get self c = Some u ∧ player u = p.
Proof.
  unfold player_units. rewrite list_elem_of_omap. split.
  - intros (c' & Hc' & H).
    destruct (get self c') as [x|] eqn:Hx; [|done].
    destruct (Player_eqb (player x) p) eqn:E; [|done].
    injection H as -> ->. by apply Player_eqb_eq in E.
  - intros [Hu <-]. exists c. split.
    + apply elem_of_iter_rectangle_from_dim.
      destruct (get_Some_valid _ _ _ Hu) as [Hv _].
      by apply is_valid_coord_range in Hv.
    + rewrite Hu. assert (Player_eqb (player u) (player u) = true) as ->
        by (by apply Player_eqb_eq). done.
Qed.

Lemma NoDup_iter_rectangle (p : CoordPair) : NoDup (iter_rectangle p).
Proof.
  unfold iter_rectangle. apply NoDup_bind.
  - intros r1 r2 c _ _ (k1 & Hc1 & _)%list_elem_of_bind
                       (k2 & Hc2 & _)%list_elem_of_bind.
    apply list_elem_of_singleton in Hc1, Hc2. congruence.
  - intros r _. apply NoDup_bind.
    + intros k1 k2 c _ _ Hc1 Hc2.
      apply list_elem_of_singleton in Hc1, Hc2. congruence.
    + intros k _. apply NoDup_singleton.
    + apply NoDup_seqZ.
  - apply NoDup_seqZ.
Qed.

(** X9.  [player_units] yields exactly the units of the player that [get]
    finds on the board, each cell once. *)
Theorem player_units_spec (self : Game) (p : Player) :
  (∀ c u, (c, u) ∈ player_units self p ↔ get self c = Some u ∧ player u = p)
  ∧ NoDup (player_units self p).*1.
Proof.
  split; [apply elem_of_player_units|].
  unfold player_units.
  pose proof (NoDup_iter_rectangle (from_dim (dim (options self)))) as Hnd.
  induction Hnd as [|c l Hc Hl IH]; [constructor|].
  cbn [omap list_omap].
  destruct (get self c) as [u|]; [|exact IH].
  destruct (Player_eqb (player u) p); [|exact IH].
  cbn [fmap list_fmap fst]. constructor; [|exact IH].
  intros Hin. apply Hc.
  apply list_elem_of_fmap in Hin as ([c' u'] & -> & Hin).
  apply list_elem_of_omap in Hin as (c'' & Hc'' & H).
  destruct (get self c'') as [x|]; [|done].
  destruct (Player_eqb (player x) p); [|done]. by injection H as -> ->.
Qed.

(** X10.  The enumeration is complete: every move that [is_valid_move]
    accepts is among the candidates that [move_candidates] yields. *)
Theorem move_candidates_complete (self : Game) (coords : CoordPair) :
  (is_valid_move self coords).1.1 = true → coords ∈ move_candidates self.
Proof.
  intros (s & Hs & Hp & _ & _ & Hd)%is_valid_move_accepted.
  unfold move_candidates. apply list_elem_of_bind.
  exists (src coords, s). split; [|by apply elem_of_player_units].
  destruct coords as [c d]. cbn [src dst] in *.
  apply elem_of_app. destruct Hd as [-> | Hd].
  - right. by apply list_elem_of_singleton.
  - left. apply list_elem_of_bind. exists d. split; [|done].
    unfold tuple_truth. by apply list_elem_of_singleton.
Qed.

Lemma move_candidates_complete_witness :
  mkCoordPair (mkCoord 2 4) (mkCoord 1 4) ∈ move_candidates initial_game.
Proof.
  apply (move_candidates_complete initial_game). reflexivity.
Defined.

(** ** Repair is offered where the repair table repairs *)

Lemma repair_table_positive (a b : UnitType) :
  0 < table_at repair_table a b
  ↔ (a = AI ∧ (b = Tech ∨ b = Virus))
    ∨ (a = Tech ∧ (b = AI ∨ b = Firewall ∨ b = Program)).
Proof.
  destruct a, b; split; intros H;
    try (vm_compute in H; discriminate); try reflexivity;
    intuition congruence.
Qed.

(** X11.  For a unit of the side to move and an adjacent unit of the same
    side, the move is classified as repair exactly when the repair table has
    a positive entry for the two types and the target's health is below 9. *)
Theorem repair_offered_iff (self : Game) (c d : Coord) (s t : Unit) :
  get self c = Some s →
  player s = next_player self →
  d ∈ iter_adjacent c →
  get self d = Some t →
  player t = player s →
  is_valid_move self (mkCoordPair c d) = (true, "repair", None)
  ↔ 0 < table_at repair_table (type s) (type t) ∧ health t < 9.
Proof.
  intros Hs Hturn Hd Ht Hsame. rewrite repair_table_positive. split.
  - intros (s' & t' & Hs' & Ht' & _ & Hlt & Hty)%is_valid_move_repair.
    cbn [src dst] in *. assert (s' = s) as -> by congruence.
    assert (t' = t) as -> by congruence. done.
  - intros [Hty Hlt].
    destruct (get_Some_valid _ _ _ Hs) as [Hvc Hoc].
    destruct (get_Some_valid _ _ _ Ht) as [Hvd Hod].
    assert (Hadj : existsb (Coord_eqb d) (iter_adjacent c) = true)
      by (apply (existsb_elem_of _ _ d Hd), Coord_eqb_refl).
    assert (Hne : Coord_eqb c d = false).
    { apply Coord_eqb_neq. intros <-.
      destruct c as [r k]. unfold iter_adjacent in Hd. cbn [row col] in Hd.
      revert Hd. coord_neq. }
    assert (Hp : Player_eqb (player s) (next_player self) = true)
      by (by apply Player_eqb_eq).
    assert (Hpl : Player_eqb (player t) (player s) = true)
      by (by apply Player_eqb_eq).
    apply Z.ltb_lt in Hlt.
    unfold is_valid_move. cbn [src dst].
    rewrite Hvc, Hvd, Hs, Hoc, Hp, Ht, Hod, Hne, Hadj.
    cbn [negb andb orb or_continue on_unit]. rewrite Hpl, Hlt.
    destruct Hty as [[-> [-> | ->]] | [-> [-> | [-> | ->]]]]; reflexivity.
Qed.

Lemma repair_offered_iff_witness :
  is_valid_move skirmish_game (mkCoordPair (mkCoord 4 4) (mkCoord 3 4))
    = (true, "repair", None)
  ↔ 0 < table_at repair_table AI Virus ∧ 8 < 9.
Proof.
  apply (repair_offered_iff skirmish_game (mkCoord 4 4) (mkCoord 3 4)
           (mkUnit Attacker AI 9) (mkUnit Attacker Virus 8)).
  - reflexivity.
  - reflexivity.
  - apply list_elem_of_In. simpl. tauto.
  - reflexivity.
  - reflexivity.
Defined.

(** ** [damage_amount] and [repair_amount] *)

(** X12.  [damage_amount] is the health a target really loses when the
    damage-table entry is applied with [mod_health], and [repair_amount] the
    health it really gains from the repair-table entry: the clamping of the
    two methods agrees with the clamping of [mod_health]. *)
Theorem amounts_agree_with_mod_health (u target : Unit) :
  0 <= health target <= 9 →
  health (Unit_mod_health target (- table_at damage_table (type u) (type target)))
  = health target - damage_amount u target
  ∧ health (Unit_mod_health target (table_at repair_table (type u) (type target)))
    = health target + repair_amount u target
  ∧ 0 <= damage_amount u target <= health target
  ∧ 0 <= repair_amount u target <= 9 - health target.
Proof.
  intros Hh. unfold damage_amount, repair_amount, Unit_mod_health. cbn [health].
  pose proof (damage_table_range (type u) (type target)) as Hd.
  pose proof (repair_table_range (type u) (type target)) as Hr.
  repeat match goal with
  | |- context [?a <? ?b] => destruct (Z.ltb_spec a b)
  end; lia.
Qed.

Lemma amounts_agree_with_mod_health_witness :
  health (Unit_mod_health (mkUnit Defender Program 4)
            (- table_at damage_table Virus Program))
  = 4 - damage_amount (mkUnit Attacker Virus 9) (mkUnit Defender Program 4)
  ∧ health (Unit_mod_health (mkUnit Defender Program 4)
              (table_at repair_table Virus Program))
    = 4 + repair_amount (mkUnit Attacker Virus 9) (mkUnit Defender Program 4)
  ∧ 0 <= damage_amount (mkUnit Attacker Virus 9) (mkUnit Defender Program 4) <= 4
  ∧ 0 <= repair_amount (mkUnit Attacker Virus 9) (mkUnit Defender Program 4) <= 9 - 4.
Proof.
  apply (amounts_agree_with_mod_health (mkUnit Attacker Virus 9)
           (mkUnit Defender Program 4)).
  simpl. lia.
Defined.

(** ** Coordinates as text *)

Example Coord_strings :
  Coord_to_string (mkCoord 3 2) = Some "D2"
  ∧ Coord_to_string (mkCoord 26 16) = Some "??"
  ∧ Coord_to_string (mkCoord (-1) (-16)) = Some "Z0"
  ∧ Coord_to_string (mkCoord (-27) 0) = None
  ∧ Coord_from_string " d-2 " = Some (mkCoord 3 2)
  ∧ Coord_from_string "??" = Some (mkCoord (-1) (-1))
  ∧ Coord_from_string "D22" = None
  ∧ CoordPair_to_string (from_quad 0 3 1 2) = Some "A3 B2"
  ∧ CoordPair_from_string "a3_b2" = Some (from_quad 0 3 1 2).
Proof. repeat split. Qed.

Lemma lstrip_kept (a : Ascii.ascii) (s : string) :
  is_space a = false → lstrip (String a s) = String a s.
Proof. intros H. simpl. by rewrite H. Qed.

Lemma rstrip_kept (s : string) (a : Ascii.ascii) :
  is_space a = false →
  rstrip (s +:+ String a EmptyString) = s +:+ String a EmptyString.
Proof.
  intros H. induction s as [|x s IH]; simpl.
  - by rewrite H.
  - rewrite IH. by destruct s.
Qed.

Lemma kept_char_facts (a : Ascii.ascii) :
  kept_char a = true →
  is_space a = false
  ∧ ∀ sep, In sep (String.list_ascii_of_string " ,.:;-_") → Ascii.eqb a sep = false.
Proof.
  unfold kept_char. intros [H1 H2]%andb_true_iff.
  apply negb_true_iff in H1, H2. split; [done|].
  intros sep Hsep. destruct (Ascii.eqb a sep) eqn:E; [|done].
  assert (existsb (Ascii.eqb a) (String.list_ascii_of_string " ,.:;-_") = true)
    by (apply existsb_exists; eauto).
  congruence.
Qed.

Lemma row_string_reads_back (c : Coord) :
  -26 <= row c →
  char_reads_back (row_string c) ROWS upper 26 (row c) = true.
Proof.
  intros H. destruct (Z.ltb_spec (row c) 26) as [Hlt | Hge].
  - assert (Hall : forallb (fun r => char_reads_back (row_string (mkCoord r 0))
                                        ROWS upper 26 r) (seqZ (-26) 52) = true)
      by (vm_compute; reflexivity).
    rewrite forallb_forall in Hall.
    specialize (Hall (row c)). destruct c as [r k]. apply Hall.
    apply list_elem_of_In, elem_of_seqZ. simpl in *. lia.
  - unfold char_reads_back, row_string, read_back.
    destruct (Z.ltb_spec (row c) 26); [lia|].
    destruct (Z.ltb_spec (row c) 0); [lia|]. reflexivity.
Qed.

Lemma col_string_reads_back (c : Coord) :
  -16 <= col c →
  char_reads_back (col_string c) COLS lower 16 (col c) = true.
Proof.
  intros H. destruct (Z.ltb_spec (col c) 16) as [Hlt | Hge].
  - assert (Hall : forallb (fun k => char_reads_back (col_string (mkCoord 0 k))
                                        COLS lower 16 k) (seqZ (-16) 32) = true)
      by (vm_compute; reflexivity).
    rewrite forallb_forall in Hall.
    specialize (Hall (col c)). destruct c as [r k]. apply Hall.
    apply list_elem_of_In, elem_of_seqZ. simpl in *. lia.
  - unfold char_reads_back, col_string, read_back.
    destruct (Z.ltb_spec (col c) 16); [lia|].
    destruct (Z.ltb_spec (col c) 0); [lia|]. reflexivity.
Qed.

(** The text of a coordinate: two characters that the reader keeps and
    reads back. *)
Lemma Coord_to_string_chars (c : Coord) (s : string) :
  Coord_to_string c = Some s →
  ∃ a b, s = String a (String b EmptyString)
         ∧ kept_char a = true ∧ kept_char b = true
         ∧ find ROWS (upper (String a EmptyString)) = read_back 26 (row c)
         ∧ find COLS (lower (String b EmptyString)) = read_back 16 (col c).
Proof.
  unfold Coord_to_string. intros H.
  assert (Hr : -26 <= row c).
  { destruct (Z.leb_spec (-26) (row c)); [done|]. exfalso.
    unfold row_string, py_index in H.
    destruct (Z.ltb_spec (row c) 26); [|lia].
    change (Z.of_nat (String.length ROWS)) with 26 in H.
    destruct (Z.leb_spec 0 (row c)); [lia|].
    destruct (- (26) <=? row c) eqn:E; [apply Z.leb_le in E; lia|]. done. }
  pose proof (row_string_reads_back c Hr) as Hrow.
  destruct (row_string c) as [[|a [|]]|]; try done.
  assert (Hk : -16 <= col c).
  { destruct (Z.leb_spec (-16) (col c)); [done|]. exfalso.
    unfold col_string, py_index in H. cbn [mbind option_bind] in H.
    destruct (Z.ltb_spec (col c) 16); [|lia].
    change (Z.of_nat (String.length COLS)) with 16 in H.
    destruct (Z.leb_spec 0 (col c)); [lia|].
    destruct (- (16) <=? col c) eqn:E; [apply Z.leb_le in E; lia|]. done. }
  pose proof (col_string_reads_back c Hk) as Hcol.
  destruct (col_string c) as [[|b [|]]|]; try done.
  simpl in H. injection H as <-.
  unfold char_reads_back in *.
  apply andb_true_iff in Hrow as [Ha Hrow], Hcol as [Hb Hcol].
  apply Z.eqb_eq in Hrow, Hcol. eauto 10.
Qed.

(** Removing the separators from a text of kept characters: unfold one
    [replace], decide its comparisons, and again. *)
Ltac remove_kept :=
  repeat match goal with
  | H : kept_char ?a = true |- _ => apply kept_char_facts in H as [? ?]
  end;
  unfold remove_separators;
  cbn [foldl String.list_ascii_of_string remove_char];
  repeat (progress
    (repeat match goal with
     | H : ∀ sep, In sep _ → Ascii.eqb ?a sep = false
       |- context [Ascii.eqb ?a ?sep] => rewrite (H sep) by (simpl; tauto)
     end;
     try change (Ascii.eqb (Ascii.Ascii false false false false false true false false)
                           (Ascii.Ascii false false false false false true false false))
           with true;
     cbn [remove_char])).

Lemma Coord_from_to_string (c : Coord) (s : string) :
  Coord_to_string c = Some s →
  Coord_from_string s
  = Some (mkCoord (read_back 26 (row c)) (read_back 16 (col c))).
Proof.
  intros Hs.
  destruct (Coord_to_string_chars c s Hs) as (a & b & -> & Ha & Hb & Hfa & Hfb).
  unfold Coord_from_string, strip.
  pose proof (kept_char_facts _ Ha) as [Hsa _].
  pose proof (kept_char_facts _ Hb) as [Hsb _].
  rewrite lstrip_kept by done.
  pose proof (rstrip_kept (String a EmptyString) b Hsb) as Hrs.
  change (String a EmptyString +:+ String b EmptyString)
    with (String a (String b EmptyString)) in Hrs.
  rewrite Hrs.
  remove_kept. cbn [String.length Nat.eqb String.substring].
  by rewrite Hfa, Hfb.
Qed.

Lemma Coord_to_string_in_range (c : Coord) :
  0 <= row c < 26 → 0 <= col c < 16 → is_Some (Coord_to_string c).
Proof.
  intros Hr Hk. unfold Coord_to_string.
  assert (Hall : forallb (fun r => match row_string (mkCoord r 0) with
                                   | Some _ => true | None => false end)
                   (seqZ 0 26) = true) by (vm_compute; reflexivity).
  assert (Hall' : forallb (fun k => match col_string (mkCoord 0 k) with
                                    | Some _ => true | None => false end)
                    (seqZ 0 16) = true) by (vm_compute; reflexivity).
  rewrite forallb_forall in Hall, Hall'.
  specialize (Hall (row c)). specialize (Hall' (col c)).
  destruct c as [r k]. cbn [row col] in *.
  change (row_string (mkCoord r k)) with (row_string (mkCoord r 0)).
  change (col_string (mkCoord r k)) with (col_string (mkCoord 0 k)).
  assert (Hrow : In r (seqZ 0 26)) by (apply list_elem_of_In, elem_of_seqZ; lia).
  assert (Hcol : In k (seqZ 0 16)) by (apply list_elem_of_In, elem_of_seqZ; lia).
  specialize (Hall Hrow). specialize (Hall' Hcol).
  destruct (row_string (mkCoord r 0)); [|done].
  destruct (col_string (mkCoord 0 k)); [|done]. by eexists.
Qed.

Lemma read_back_in_range (n i : Z) : 0 <= i < n → read_back n i = i.
Proof.
  intros H. unfold read_back.
  destruct (Z.ltb_spec i 0); [lia|]. destruct (Z.ltb_spec i n); [done|lia].
Qed.

(** X14.  A coordinate of rows A-Z and columns 0-f survives the round
    through its text: [to_string] succeeds and [from_string] reads the
    coordinate back. *)
Theorem Coord_round_trip (c : Coord) :
  0 <= row c < 26 → 0 <= col c < 16 →
  ∃ s, Coord_to_string c = Some s ∧ Coord_from_string s = Some c.
Proof.
  intros Hr Hk.
  destruct (Coord_to_string_in_range c Hr Hk) as [s Hs].
  exists s. split; [done|].
  rewrite (Coord_from_to_string c s Hs), !read_back_in_range by done.
  by destruct c.
Qed.

Lemma Coord_round_trip_witness :
  ∃ s, Coord_to_string (mkCoord 3 2) = Some s
       ∧ Coord_from_string s = Some (mkCoord 3 2).
Proof. apply (Coord_round_trip (mkCoord 3 2)); simpl; lia. Defined.

(** X15.  Outside that range the round does not return the coordinate:
    whenever [to_string] yields a text at all, [from_string] reads from it
    the row and column wrapped around from the end when negative, and -1
    when beyond the alphabet (printed as a question mark). *)
Theorem Coord_text_reads_back (c : Coord) (s : string) :
  Coord_to_string c = Some s →
  Coord_from_string s
  = Some (mkCoord (read_back 26 (row c)) (read_back 16 (col c))).
Proof. apply Coord_from_to_string. Qed.

Lemma Coord_text_reads_back_witness :
  Coord_from_string "Z?"
  = Some (mkCoord (read_back 26 (-1)) (read_back 16 20)).
Proof.
  apply (Coord_text_reads_back (mkCoord (-1) 20) "Z?"). reflexivity.
Defined.

Lemma in_all_ascii (a : Ascii.ascii) : In a all_ascii.
Proof.
  unfold all_ascii. apply in_map_iff. exists (Ascii.nat_of_ascii a).
  split; [apply Ascii.ascii_nat_embedding|].
  apply in_seq. pose proof (Ascii.nat_ascii_bounded a). lia.
Qed.

Lemma find_ROWS_range (a : Ascii.ascii) :
  -1 <= find ROWS (upper (String a EmptyString)) <= 25.
Proof.
  assert (Hall : forallb (fun a =>
             let r := find ROWS (upper (String a EmptyString)) in
             (-1 <=? r) && (r <=? 25)) all_ascii = true)
    by (vm_compute; reflexivity).
  rewrite forallb_forall in Hall. specialize (Hall a (in_all_ascii a)).
  cbv zeta in Hall. apply andb_true_iff in Hall as [H1 H2].
  apply Z.leb_le in H1, H2. done.
Qed.

Lemma find_COLS_range (a : Ascii.ascii) :
  -1 <= find COLS (lower (String a EmptyString)) <= 15.
Proof.
  assert (Hall : forallb (fun a =>
             let r := find COLS (lower (String a EmptyString)) in
             (-1 <=? r) && (r <=? 15)) all_ascii = true)
    by (vm_compute; reflexivity).
  rewrite forallb_forall in Hall. specialize (Hall a (in_all_ascii a)).
  cbv zeta in Hall. apply andb_true_iff in Hall as [H1 H2].
  apply Z.leb_le in H1, H2. done.
Qed.

(** X16.  Whatever the text, [from_string] never fails otherwise than by
    returning [None], and a coordinate it returns has its row within -1..25
    and its column within -1..15: it may lie off the board (even be
    negative), which is why the callers check it with [is_valid_coord]. *)
Theorem Coord_from_string_range (s : string) (c : Coord) :
  Coord_from_string s = Some c →
  -1 <= row c <= 25 ∧ -1 <= col c <= 15.
Proof.
  unfold Coord_from_string.
  destruct (remove_separators (strip s)) as [|a [|b [|]]]; try done.
  cbn [String.length Nat.eqb String.substring]. intros [= <-]. simpl.
  split; [apply find_ROWS_range | apply find_COLS_range].
Qed.

Lemma Coord_from_string_range_witness :
  -1 <= row (mkCoord 25 (-1)) <= 25 ∧ -1 <= col (mkCoord 25 (-1)) <= 15.
Proof. apply (Coord_from_string_range " z;G "). reflexivity. Defined.

(** X17.  A pair of coordinates of rows A-Z and columns 0-f survives the
    round through its text (the blank between the two coordinates is one of
    the separators that [from_string] drops). *)
Theorem CoordPair_round_trip (p : CoordPair) :
  0 <= row (src p) < 26 → 0 <= col (src p) < 16 →
  0 <= row (dst p) < 26 → 0 <= col (dst p) < 16 →
  ∃ s, CoordPair_to_string p = Some s ∧ CoordPair_from_string s = Some p.
Proof.
  intros Hr1 Hk1 Hr2 Hk2.
  destruct (Coord_to_string_in_range _ Hr1 Hk1) as [s1 Hs1].
  destruct (Coord_to_string_in_range _ Hr2 Hk2) as [s2 Hs2].
  unfold CoordPair_to_string. rewrite Hs1, Hs2. cbn [mbind option_bind].
  eexists. split; [reflexivity|].
  destruct (Coord_to_string_chars _ _ Hs1) as (a & b & -> & Ha & Hb & Hfa & Hfb).
  destruct (Coord_to_string_chars _ _ Hs2) as (a' & b' & -> & Ha' & Hb' & Hfa' & Hfb').
  rewrite read_back_in_range in Hfa, Hfb, Hfa', Hfb' by done.
  unfold CoordPair_from_string, strip.
  pose proof (kept_char_facts _ Ha) as [Hsa _].
  pose proof (kept_char_facts _ Hb') as [Hsb' _].
  change (String a (String b EmptyString) +:+ " "
          +:+ String a' (String b' EmptyString))
    with (String a (String b (String (Ascii.ascii_of_nat 32) (String a' (String b' EmptyString))))).
  rewrite lstrip_kept by done.
  pose proof (rstrip_kept
                (String a (String b (String (Ascii.ascii_of_nat 32) (String a' EmptyString)))) b' Hsb')
    as Hrs.
  change (String a (String b (String (Ascii.ascii_of_nat 32) (String a' EmptyString)))
          +:+ String b' EmptyString)
    with (String a (String b (String (Ascii.ascii_of_nat 32) (String a' (String b' EmptyString)))))
    in Hrs.
  rewrite Hrs.
  change (Ascii.ascii_of_nat 32)
    with (Ascii.Ascii false false false false false true false false).
  remove_kept. cbn [String.length Nat.eqb String.substring].
  rewrite Hfa, Hfb, Hfa', Hfb'. by destruct p as [[] []].
Qed.

Lemma CoordPair_round_trip_witness :
  ∃ s, CoordPair_to_string (from_quad 0 3 1 2) = Some s
       ∧ CoordPair_from_string s = Some (from_quad 0 3 1 2).
Proof. apply (CoordPair_round_trip (from_quad 0 3 1 2)); simpl; lia. Defined.

(** ** [add_node]: what is registered, and when it raises *)

Lemma nodes_ok_init : nodes_ok Tree_init.
Proof. intros id l H. simpl in H. by rewrite lookup_empty in H. Qed.

Lemma add_node_nodes (self : Tree) id game move e1 e2 parent (t' : Tree) :
  add_node self id game move e1 e2 parent = Some t' →
  nodes t' = <[id := length (objects self)]> (nodes self)
  ∧ tree_counters t' = tree_counters self
  ∧ tree_depth t' = tree_depth self.
Proof.
  unfold add_node. destruct parent as [p|]; simpl.
  - destruct (nodes self !! p) as [l|]; [|done]. simpl.
    destruct (objects self !! l) as [n|]; [|done]. simpl.
    destruct (<[id:=length (objects self)]> (nodes self) !! p) as [pl|]; [|done].
    simpl. destruct ((objects self ++ _) !! pl) as [pn|]; [|done]. simpl.
    destruct (obj_depth pn) as [d|]; [|done]. simpl.
    destruct (<[_ := _]> (objects self ++ _) !! pl); [|done]. simpl.
    by intros [= <-].
  - by intros [= <-].
Qed.

Lemma add_node_nodes_ok (self : Tree) id game move e1 e2 parent (t' : Tree) :
  nodes_ok self →
  add_node self id game move e1 e2 parent = Some t' →
  nodes_ok t'.
Proof.
  intros Hok Hadd.
  destruct (add_node_nodes _ _ _ _ _ _ _ _ Hadd) as (Hnodes & _ & _).
  assert (Hobj : ∃ new, is_Some (obj_depth new)
            ∧ objects t' !! length (objects self) = Some new
            ∧ ∀ i o, objects self !! i = Some o →
                     ∃ o', objects t' !! i = Some o' ∧ obj_depth o' = obj_depth o).
  { destruct parent as [p|].
    - apply add_node_child in Hadd as (l & n & d & Hn & Hd & _ & ->).
      pose proof (lookup_lt_Some _ _ _ Hn) as Hlt.
      exists (mkNodeObject id game move e1 e2 [] (negb (obj_max n)) (Some (d + 1))).
      split; [|split].
      + by eexists.
      + apply list_lookup_middle. by rewrite length_insert.
      + intros i o Hi. pose proof (lookup_lt_Some _ _ _ Hi).
        rewrite lookup_app_l by (by rewrite length_insert).
        destruct (decide (l = i)) as [<- | Hne].
        * rewrite list_lookup_insert_eq by done. eexists. split; [done|].
          simpl. congruence.
        * rewrite list_lookup_insert_ne by done. eauto.
    - apply add_node_root in Hadd as [_ ->].
      exists (mkNodeObject id game move e1 e2 [] true (Some 1)).
      split; [|split].
      + by eexists.
      + by apply list_lookup_middle.
      + intros i o Hi. pose proof (lookup_lt_Some _ _ _ Hi).
        rewrite lookup_app_l by done. eauto. }
  destruct Hobj as (new & Hnew & Hloc & Hold).
  intros id' l'. rewrite Hnodes, lookup_insert.
  destruct (decide (id = id')) as [-> | Hne]; simpl.
  - intros [= <-]. eauto.
  - intros H. destruct (Hok id' l' H) as (n & Hn & [d Hd]).
    destruct (Hold l' n Hn) as (o' & Ho' & Hd'). exists o'. split; [done|].
    rewrite Hd', Hd. by eexists.
Qed.

Lemma build_nodes_ok (calls : list AddCall) (t0 t : Tree) :
  nodes_ok t0 → build t0 calls = Some t → nodes_ok t.
Proof.
  revert t0. induction calls as [|c calls IH]; intros t0 Hinv Hb; simpl in Hb.
  { by injection Hb as <-. }
  destruct (add_node t0 _ _ _ _ _ (call_parent c)) as [t1|] eqn:Hadd; [|done].
  simpl in Hb. apply (IH t1); [|done]. by eapply add_node_nodes_ok.
Qed.

(** X18.  On a tree built by [add_node], adding a node below a parent
    raises exactly when the parent id is not registered ([KeyError]) or is
    the very id being added ([TypeError]: the new node has just taken the
    parent's place in [self.nodes] and has no depth yet).  Adding a root
    never raises. *)
Theorem add_node_raises_iff (calls : list AddCall) (t : Tree)
    id game move e1 e2 (p : Z) :
  build Tree_init calls = Some t →
  (add_node t id game move e1 e2 (Some p) = None ↔ nodes t !! p = None ∨ id = p)
  ∧ is_Some (add_node t id game move e1 e2 None).
Proof.
  intros Hb. pose proof (build_nodes_ok _ _ _ nodes_ok_init Hb) as Hok.
  split; [|by eexists].
  unfold add_node.
  destruct (nodes t !! p) as [l|] eqn:Hl; [|simpl; tauto].
  destruct (Hok p l Hl) as (n & Hn & [d Hd]).
  pose proof (lookup_lt_Some _ _ _ Hn) as Hlt.
  simpl. rewrite Hn. simpl. rewrite lookup_insert.
  destruct (decide (id = p)) as [-> | Hne]; simpl.
  - rewrite list_lookup_middle by done. simpl. tauto.
  - rewrite Hl. simpl. rewrite lookup_app_l, Hn by done. simpl.
    rewrite Hd. simpl. rewrite list_lookup_insert_ne by lia.
    rewrite lookup_app_l, Hn by done. simpl.
    split; [done | intros [? | ?]; done].
Qed.

Lemma add_node_raises_iff_witness :
  ∃ t, build Tree_init three_calls = Some t
       ∧ (add_node t 7 initial_game None None None (Some 9) = None
          ↔ nodes t !! 9 = None ∨ 7 = 9)
       ∧ is_Some (add_node t 7 initial_game None None None None).
Proof.
  eexists. split; [reflexivity|].
  apply (add_node_raises_iff three_calls). reflexivity.
Defined.

(** X19.  After a call that returned, the id leads to the new node, which
    carries the given state, move and scores and has no children; every
    other id leads where it led before, and the evaluation counters are
    untouched. *)
Theorem add_node_registers (self : Tree) id game move e1 e2 parent (t' : Tree) :
  add_node self id game move e1 e2 parent = Some t' →
  ∃ loc node,
    nodes t' !! id = Some loc
    ∧ objects t' !! loc = Some node
    ∧ obj_id node = id ∧ obj_game node = game ∧ obj_move node = move
    ∧ obj_e1 node = e1 ∧ obj_e2 node = e2 ∧ obj_children node = []
    ∧ (∀ id', id' ≠ id → nodes t' !! id' = nodes self !! id')
    ∧ tree_counters t' = tree_counters self.
Proof.
  intros Hadd.
  destruct (add_node_nodes _ _ _ _ _ _ _ _ Hadd) as (Hnodes & Hc & _).
  exists (length (objects self)).
  assert (Hobj : ∃ node, objects t' !! length (objects self) = Some node
            ∧ obj_id node = id ∧ obj_game node = game ∧ obj_move node = move
            ∧ obj_e1 node = e1 ∧ obj_e2 node = e2 ∧ obj_children node = []).
  { destruct parent as [p|].
    - apply add_node_child in Hadd as (l & n & d & Hn & Hd & _ & ->).
      eexists. split; [apply list_lookup_middle; by rewrite length_insert|]. done.
    - apply add_node_root in Hadd as [_ ->].
      eexists. split; [by apply list_lookup_middle|]. done. }
  destruct Hobj as (node & Hloc & Hfields). exists node.
  split; [by rewrite Hnodes, lookup_insert_eq|].
  split; [done|]. repeat (split; [tauto|]).
  split; [|done]. intros id' Hne. by rewrite Hnodes, lookup_insert_ne.
Qed.

Lemma add_node_registers_witness :
  ∃ t' loc node,
    add_node Tree_init 5 initial_game None None None None = Some t'
    ∧ nodes t' !! 5 = Some loc
    ∧ objects t' !! loc = Some node
    ∧ obj_id node = 5 ∧ obj_game node = initial_game ∧ obj_move node = None
    ∧ obj_e1 node = None ∧ obj_e2 node = None ∧ obj_children node = []
    ∧ (∀ id', id' ≠ 5 → nodes t' !! id' = nodes Tree_init !! id')
    ∧ tree_counters t' = tree_counters Tree_init.
Proof.
  eexists.
  destruct (add_node_registers Tree_init 5 initial_game None None None None _
              eq_refl) as (loc & node & H).
  exists loc, node. split; [reflexivity | exact H].
Defined.

(** ** Built trees as tree values *)

(** X20.  Every node of a tree built by [add_node] unfolds to a tree value:
    the object graph below it is finite and free of cycles, so that the
    recursion of [minimax] and [_alpha_beta_pruning] over [node.children]
    ends. *)
Theorem built_tree_unfolds (calls : list AddCall) (t : Tree) (loc : nat) :
  build Tree_init calls = Some t →
  (loc < length (objects t))%nat →
  is_Some (tree_view (objects t) (length (objects t)) loc).
Proof. apply tree_view_total. Qed.

Lemma built_tree_unfolds_witness :
  ∃ t, build Tree_init three_calls = Some t
       ∧ is_Some (tree_view (objects t) (length (objects t)) 0).
Proof.
  eexists. split; [reflexivity|].
  apply (built_tree_unfolds three_calls); [reflexivity | simpl; lia].
Defined.

(** X21.  The tree value below a node of a built tree carries the depth and
    the flag of that node at its root, and along every edge the depth grows
    by one and the flag flips: the search sees maximizing and minimizing
    levels in turn. *)
Theorem built_tree_value_alternates (calls : list AddCall) (t : Tree)
    (fuel loc : nat) (v : TreeNode) :
  build Tree_init calls = Some t →
  tree_view (objects t) fuel loc = Some v →
  (∃ o, objects t !! loc = Some o
        ∧ obj_depth o = Some (depth v) ∧ obj_max o = max v)
  ∧ alternating v.
Proof.
  intros Hb. apply tree_view_alternating.
  exact (build_invariant _ _ _ tree_invariant_init Hb).
Qed.

Lemma built_tree_value_alternates_witness :
  ∃ t v, build Tree_init three_calls = Some t
         ∧ tree_view (objects t) 3 0 = Some v
         ∧ (∃ o, objects t !! 0%nat = Some o
                 ∧ obj_depth o = Some (depth v) ∧ obj_max o = max v)
         ∧ alternating v.
Proof.
  eexists _, _. split; [reflexivity|]. split; [reflexivity|].
  apply (built_tree_value_alternates three_calls _ 3 0); reflexivity.
Defined.

(** ** The child that the search returns *)

Section SelectedChild.

Variable heuristic : TreeNode → Q.

Lemma minimax_e1 (node : TreeNode) (st : Counters) :
  e1 (result_node (minimax heuristic node st))
  = Some (result_value (minimax heuristic node st)).
Proof.
  destruct node as [id g mv s1 s2 cs mx d]. destruct cs as [|c cs]; [done|].
  cbn [minimax]. by destruct (minimax_loop _ _ _ _) as [[[v ch] cs'] st1].
Qed.

Lemma minimax_finite (node : TreeNode) (st : Counters) :
  is_finite (result_value (minimax heuristic node st)).
Proof.
  pose proof (minimax_value heuristic node st) as H.
  destruct (optimal_value_finite heuristic node) as [q Hq]. rewrite Hq in H.
  destruct (result_value _) as [|q'|]; try done. by exists q'.
Qed.

Lemma minimax_loop_keeps_child (rec : TreeNode → Counters → SearchResult)
    (is_max : bool) (cs : list TreeNode) :
  Forall (fun c => ∀ st, e1 (result_node (rec c st))
                         = Some (result_value (rec c st))) cs →
  ∀ best c0 visited st,
    c0 ∈ visited → e1 c0 = Some best →
    let r := minimax_loop rec is_max cs (best, Some c0, visited, st) in
    ∃ c, loop_child r = Some c ∧ c ∈ loop_visited r ∧ e1 c = Some (loop_value r).
Proof.
  intros Hcs. induction Hcs as [|c cs Hc _ IH]; intros best c0 visited st Hin He.
  { simpl. eauto. }
  cbn [minimax_loop]. destruct (if is_max then _ else _).
  - apply IH; [apply elem_of_app; right; by apply list_elem_of_singleton | apply Hc].
  - apply IH; [apply elem_of_app; by left | done].
Qed.

Lemma minimax_loop_finds_child (rec : TreeNode → Counters → SearchResult)
    (is_max : bool) (c : TreeNode) (cs : list TreeNode) (st : Counters) :
  Forall (fun c => ∀ st, e1 (result_node (rec c st))
                         = Some (result_value (rec c st))) (c :: cs) →
  is_finite (result_value (rec c st)) →
  let r := minimax_loop rec is_max (c :: cs)
             (if is_max then NegInf else PosInf, None, [], st) in
  ∃ c', loop_child r = Some c' ∧ c' ∈ loop_visited r ∧ e1 c' = Some (loop_value r).
Proof.
  intros Hcs [q Hq]. apply Forall_cons in Hcs as [Hc Hcs].
  cbn [minimax_loop]. rewrite Hq.
  assert ((if is_max then Score_ltb (if is_max then NegInf else PosInf) (Num q)
           else Score_ltb (Num q) (if is_max then NegInf else PosInf)) = true) as ->
    by (by destruct is_max).
  apply minimax_loop_keeps_child; [done| |by rewrite Hc, Hq].
  by apply list_elem_of_singleton.
Qed.

Lemma minimax_child (node : TreeNode) (st : Counters) :
  let r := minimax heuristic node st in
  e1 (result_node r) = Some (result_value r)
  ∧ match children node with
    | [] => result_child r = None
    | _ :: _ =>
        ∃ c, result_child r = Some c
             ∧ c ∈ children (result_node r)
             ∧ e1 c = Some (result_value r)
    end.
Proof.
  cbv zeta. split; [apply minimax_e1|].
  destruct node as [id g mv s1 s2 cs mx d]. destruct cs as [|c cs]; [done|].
  cbn [children minimax].
  pose proof (minimax_loop_finds_child (fun c s => minimax heuristic c s) mx c cs st)
    as Hloop.
  destruct (minimax_loop _ _ _ _) as [[[v ch] cs'] st1].
  apply Hloop; [|apply minimax_finite].
  apply Forall_forall. intros x _ st'. apply minimax_e1.
Qed.

Lemma alpha_beta_e2 (node : TreeNode) (alpha beta : Score) (st : Counters) :
  e2 (result_node (_alpha_beta_pruning heuristic node alpha beta st))
  = Some (result_value (_alpha_beta_pruning heuristic node alpha beta st)).
Proof.
  destruct node as [id g mv s1 s2 cs mx d]. destruct cs as [|c cs]; [done|].
  cbn [_alpha_beta_pruning].
  by destruct (alpha_beta_loop _ _ _ _) as [[[[a1 b1] bn] cs'] st1].
Qed.

(** The loop of [_alpha_beta_pruning]: the bound it moves is either still
    the one it started from, with no child selected, or the score of the
    selected child, which is among the children of the node. *)
Lemma alpha_beta_loop_best
    (rec : TreeNode → Score → Score → Counters → SearchResult)
    (is_max : bool) (cs : list TreeNode) :
  Forall (fun c => ∀ a b st, e2 (result_node (rec c a b st))
                             = Some (result_value (rec c a b st))) cs →
  ∀ alpha beta best visited st,
    (match best with
     | Some c => c ∈ visited ∧ e2 c = Some (if is_max then alpha else beta)
     | None => True
     end) →
    let r := alpha_beta_loop rec is_max cs (alpha, beta, best, visited, st) in
    match loop_best r with
    | Some c => c ∈ loop_children r ∧ e2 c = Some (loop_bound is_max r)
    | None => best = None ∧ loop_bound is_max r = (if is_max then alpha else beta)
    end.
Proof.
  intros Hcs. induction Hcs as [|c cs Hc _ IH];
    intros alpha beta best visited st Hinv.
  { simpl. destruct best; [by destruct is_max | by destruct is_max]. }
  cbn [alpha_beta_loop].
  set (r := rec c alpha beta st). specialize (Hc alpha beta st). fold r in Hc.
  assert (Hstep : ∀ a1 b1 bn,
            (a1, b1, bn) = (if is_max
                            then if Score_ltb alpha (result_value r)
                                 then (result_value r, beta, Some (result_node r))
                                 else (alpha, beta, best)
                            else if Score_ltb (result_value r) beta
                                 then (alpha, result_value r, Some (result_node r))
                                 else (alpha, beta, best)) →
            (match bn with
             | Some c => c ∈ visited ++ [result_node r]
                         ∧ e2 c = Some (if is_max then a1 else b1)
             | None => best = None
                       ∧ (if is_max then a1 else b1) = (if is_max then alpha else beta)
             end)).
  { intros a1 b1 bn Heq.
    destruct is_max.
    - destruct (Score_ltb alpha (result_value r)); injection Heq as -> -> ->.
      + split; [apply elem_of_app; right; by apply list_elem_of_singleton | done].
      + destruct best as [c0|]; [|done]. destruct Hinv as [Hin He].
        split; [apply elem_of_app; by left | done].
    - destruct (Score_ltb (result_value r) beta); injection Heq as -> -> ->.
      + split; [apply elem_of_app; right; by apply list_elem_of_singleton | done].
      + destruct best as [c0|]; [|done]. destruct Hinv as [Hin He].
        split; [apply elem_of_app; by left | done]. }
  destruct (if is_max then if Score_ltb alpha _ then _ else _ else _)
    as [[a1 b1] bn].
  specialize (Hstep a1 b1 bn eq_refl).
  destruct (Score_leb b1 a1).
  - unfold loop_best, loop_children, loop_bound, loop_alpha, loop_beta.
    cbn [fst snd]. destruct bn as [c0|].
    + destruct Hstep as [Hin He]. split; [apply elem_of_app; by left | done].
    + done.
  - specialize (IH a1 b1 bn (visited ++ [result_node r]) (result_counters r)).
    cbv zeta in IH. destruct bn as [c0|].
    + specialize (IH Hstep). destruct (loop_best _); [done | by destruct IH].
    + specialize (IH I). destruct Hstep as [-> Hb].
      destruct (loop_best _); [done|]. destruct IH as [_ IH].
      split; [done|]. by rewrite IH.
Qed.

Lemma alpha_beta_child (node : TreeNode) (st : Counters) :
  let r := alpha_beta_pruning heuristic node st in
  e2 (result_node r) = Some (result_value r)
  ∧ match children node with
    | [] => result_child r = Some (result_node r)
    | _ :: _ =>
        ∃ c, result_child r = Some c
             ∧ c ∈ children (result_node r)
             ∧ e2 c = Some (result_value r)
    end.
Proof.
  cbv zeta. split; [apply alpha_beta_e2|].
  destruct (optimal_value_finite heuristic node) as [q Hq].
  pose proof (window_full _ _ q Hq
                (alpha_beta_window heuristic node NegInf PosInf st eq_refl)) as Hv.
  rewrite Hq in Hv. clear Hq.
  destruct node as [id g mv s1 s2 cs mx d]. destruct cs as [|c cs]; [done|].
  unfold alpha_beta_pruning in *. cbn [children _alpha_beta_pruning] in *.
  pose proof (alpha_beta_loop_best
                (fun c a b s => _alpha_beta_pruning heuristic c a b s) mx (c :: cs))
    as Hloop.
  specialize (Hloop ltac:(apply Forall_forall; intros x _ a b s; apply alpha_beta_e2)
                NegInf PosInf None [] st I).
  cbv zeta in Hloop.
  destruct (alpha_beta_loop _ mx (c :: cs) _) as [[[[a1 b1] bn] cs'] st1].
  unfold loop_best, loop_children, loop_bound, loop_alpha, loop_beta in Hloop.
  cbn [fst snd] in Hloop.
  unfold result_child, result_value, result_node in *. cbn [fst snd children] in *.
  destruct bn as [c0|].
  - exists c0. by destruct Hloop.
  - destruct Hloop as [_ Hb]. rewrite Hb in Hv. by destruct mx.
Qed.

(** X22.  [Tree.minimax] on a node with children returns one of those
    children, whose [e1] is the value returned, and leaves that value in the
    node's own [e1]; on a childless node it returns no child ([None]). *)
Theorem minimax_returns_best_child (node : TreeNode) (st : Counters) :
  let r := minimax heuristic node st in
  e1 (result_node r) = Some (result_value r)
  ∧ match children node with
    | [] => result_child r = None
    | _ :: _ =>
        ∃ c, result_child r = Some c
             ∧ c ∈ children (result_node r)
             ∧ e1 c = Some (result_value r)
    end.
Proof. apply minimax_child. Qed.

(** X23.  [Tree.alpha_beta_pruning] on a node with children returns one of
    those children, whose [e2] is the value returned, and leaves that value
    in the node's own [e2]; on a childless node it returns the node itself. *)
Theorem alpha_beta_returns_best_child (node : TreeNode) (st : Counters) :
  let r := alpha_beta_pruning heuristic node st in
  e2 (result_node r) = Some (result_value r)
  ∧ match children node with
    | [] => result_child r = Some (result_node r)
    | _ :: _ =>
        ∃ c, result_child r = Some c
             ∧ c ∈ children (result_node r)
             ∧ e2 c = Some (result_value r)
    end.
Proof. apply alpha_beta_child. Qed.

(** X24.  [Tree.minimax] calls [calculate_evaluations] once for every leaf
    below the node: [total_evals] grows by exactly the number of leaves. *)
Theorem minimax_evaluates_every_leaf (node : TreeNode) (st : Counters) :
  total_evals (result_counters (minimax heuristic node st))
  = total_evals st + leaf_count node.
Proof. apply minimax_count. Qed.

End SelectedChild.

(** ** Ordering the children: [_sort_nodes] and [traverse_ordered] *)

Lemma key_le_refl (reverse : bool) (a : Score) : key_le reverse a a.
Proof. destruct reverse; apply Score_le_refl. Qed.

Lemma key_le_lt_trans (reverse : bool) (a b c : Score) :
  key_le reverse a b → key_lt reverse b c → key_lt reverse a c.
Proof.
  destruct reverse; unfold key_le, key_lt; intros H1 H2.
  - by eapply Score_le_lt_trans.
  - by eapply Score_lt_le_trans.
Qed.

Lemma key_lt_le (reverse : bool) (a b : Score) :
  key_lt reverse a b → key_le reverse a b.
Proof. destruct reverse; apply Score_lt_le. Qed.

(** The loop of [max]/[min]: what is known of the elements seen so far
    stays true to the end. *)
Lemma key_index_spec (reverse : bool) (rest : list TreeNode) :
  ∀ (pre : list TreeNode) (best_i : nat) (b : Score) (xb : TreeNode) (r : nat),
    pre !! best_i = Some xb → e1 xb = Some b →
    (∀ j x, pre !! j = Some x →
            ∃ kx, e1 x = Some kx ∧ key_le reverse kx b
                  ∧ ((j < best_i)%nat → key_lt reverse kx b)) →
    key_index reverse best_i (Some b) (length pre) rest = Some r →
    ∃ key k, (pre ++ rest) !! r = Some key ∧ e1 key = Some k
             ∧ ∀ j x, (pre ++ rest) !! j = Some x →
                      ∃ kx, e1 x = Some kx ∧ key_le reverse kx k
                            ∧ ((j < r)%nat → key_lt reverse kx k).
Proof.
  induction rest as [|x rest IH]; intros pre best_i b xb r Hb Hxb Hall Hr.
  { simpl in Hr. injection Hr as <-. rewrite app_nil_r. eauto. }
  cbn [key_index] in Hr. destruct (e1 x) as [k|] eqn:Hk; [|done].
  replace (pre ++ x :: rest) with ((pre ++ [x]) ++ rest) by (by rewrite <- app_assoc).
  replace (S (length pre)) with (length (pre ++ [x])) in Hr
    by (rewrite length_app; simpl; lia).
  destruct (if reverse then _ else _) eqn:Hcmp.
  - assert (Hlt : key_lt reverse b k) by (by destruct reverse).
    apply (IH (pre ++ [x]) (length pre) k x r); [| done | | done].
    { by rewrite list_lookup_middle. }
    intros j y Hy. apply lookup_snoc_Some in Hy as [[Hj Hy]|[-> ->]].
    + destruct (Hall j y Hy) as (ky & Hky & Hle & _).
      exists ky. split; [done|].
      assert (key_lt reverse ky k) by (by eapply key_le_lt_trans).
      split; [by apply key_lt_le | done].
    + exists k. split; [done|]. split; [apply key_le_refl | lia].
  - assert (Hle : key_le reverse k b) by (by destruct reverse).
    apply (IH (pre ++ [x]) best_i b xb r); [| done | | done].
    { rewrite lookup_app_l; [done | by eapply lookup_lt_Some]. }
    intros j y Hy. apply lookup_snoc_Some in Hy as [[Hj Hy]|[-> ->]].
    + apply (Hall j y Hy).
    + exists k. split; [done|]. split; [done|].
      apply lookup_lt_Some in Hb. lia.
Qed.

Lemma key_index_None (reverse : bool) (rest : list TreeNode) :
  ∀ (best_i : nat) (best : option Score) (i : nat),
    key_index reverse best_i best i rest = None
    ↔ rest ≠ [] ∧ (best = None ∨ ∃ x, x ∈ rest ∧ e1 x = None).
Proof.
  induction rest as [|x rest IH]; intros best_i best i.
  { simpl. split; [done | by intros [? _]]. }
  cbn [key_index]. destruct (e1 x) as [k|] eqn:Hk.
  - destruct best as [b|].
    + assert (Hrest : ∀ bi bb, key_index reverse bi (Some bb) (S i) rest = None
                               ↔ ∃ y, y ∈ x :: rest ∧ e1 y = None).
      { intros bi bb. rewrite IH. split.
        - intros [_ [?|(y & Hy & He)]]; [done|]. exists y. split; [by right | done].
        - intros (y & Hy & He). apply elem_of_cons in Hy as [->|Hy]; [congruence|].
          split; [by intros -> ; inversion Hy | right; eauto]. }
      destruct (if reverse then _ else _); rewrite Hrest;
        (split; [intros H; split; [done | by right] | by intros [_ [?|?]]]).
    + split; [intros _; split; [done | by left] | done].
  - split; [intros _ | done]. split; [done|]. right. exists x. split; [by left | done].
Qed.

Lemma key_index_lt (reverse : bool) (rest : list TreeNode) :
  ∀ (best_i : nat) (best : option Score) (i r : nat),
    (best_i < i)%nat →
    key_index reverse best_i best i rest = Some r → (r < i + length rest)%nat.
Proof.
  induction rest as [|x rest IH]; intros best_i best i r Hlt Hr.
  { simpl in Hr. injection Hr as <-. lia. }
  cbn [key_index] in Hr. destruct (e1 x) as [k|]; [|done].
  destruct best as [b|]; [|done].
  destruct (if reverse then _ else _); apply IH in Hr; simpl; lia.
Qed.

Lemma _sort_nodes_None (nodes : list TreeNode) (reverse : bool) :
  _sort_nodes nodes reverse = None
  ↔ nodes = [] ∨ ((2 <= length nodes)%nat ∧ ∃ x, x ∈ nodes ∧ e1 x = None).
Proof.
  destruct nodes as [|first rest]; [by split; [left|]|].
  unfold _sort_nodes.
  destruct (key_index reverse 0 (e1 first) 1 rest) as [i|] eqn:Hi.
  - assert (Hlt : (i < 1 + length rest)%nat)
      by (apply (key_index_lt reverse rest 0 (e1 first) 1 i); [lia | done]).
    destruct (lookup_lt_is_Some_2 (first :: rest) i) as [key Hkey];
      [simpl; lia|].
    cbn [mbind option_bind]. rewrite Hkey. cbn [mbind option_bind].
    split; [done|]. intros [?|[Hlen (x & Hx & He)]]; [done|].
    assert (key_index reverse 0 (e1 first) 1 rest = None) as Hn; [|congruence].
    apply key_index_None. split; [intros ->; simpl in Hlen; lia|].
    apply elem_of_cons in Hx as [->|Hx]; [by left | right; eauto].
  - cbn [mbind option_bind]. split; [intros _; right | done].
    apply key_index_None in Hi as [Hne Hi].
    split; [destruct rest; [done | simpl; lia]|].
    destruct Hi as [Hi|(x & Hx & He)].
    + exists first. split; [by left | done].
    + exists x. split; [by right | done].
Qed.

Lemma _sort_nodes_Some (nodes sorted : list TreeNode) (reverse : bool) :
  _sort_nodes nodes reverse = Some sorted →
  ∃ i key,
    nodes !! i = Some key ∧ sorted = key :: delete i nodes
    ∧ ∀ j x, nodes !! j = Some x → j ≠ i →
             ∃ k kx, e1 key = Some k ∧ e1 x = Some kx
                     ∧ key_le reverse kx k
                     ∧ ((j < i)%nat → key_lt reverse kx k).
Proof.
  destruct nodes as [|first rest]; [done|]. unfold _sort_nodes.
  destruct (key_index reverse 0 (e1 first) 1 rest) as [i|] eqn:Hi; [|done].
  cbn [mbind option_bind].
  destruct ((first :: rest) !! i) as [key|] eqn:Hkey; [|done].
  cbn [mbind option_bind]. intros [= <-]. exists i, key. split; [done|].
  split; [done|]. intros j x Hx Hne.
  destruct rest as [|y rest].
  { simpl in Hi. injection Hi as <-. destruct j as [|j]; [done|].
    simpl in Hx. by rewrite lookup_nil in Hx. }
  destruct (e1 first) as [b|] eqn:Hb; [|cbn [key_index] in Hi; by destruct (e1 y)].
  destruct (key_index_spec reverse (y :: rest) [first] 0 b first i)
    as (key' & k & Hkey' & Hk & Hall); [done | done | | done |].
  { intros j' x' Hx'. destruct j'; [|done]. injection Hx' as <-.
    exists b. split; [done|]. split; [apply key_le_refl | lia]. }
  change ([first] ++ y :: rest) with (first :: y :: rest) in *.
  rewrite Hkey in Hkey'. injection Hkey' as <-.
  destruct (Hall j x Hx) as (kx & Hkx & Hle & Hlt). by exists k, kx.
Qed.

Lemma Score_eq_sym (a b : Score) : Score_eq a b → Score_eq b a.
Proof. rewrite !Score_eq_le. tauto. Qed.

Lemma Score_max_swap_eq (a b c : Score) :
  Score_eq (Score_max a (Score_max b c)) (Score_max b (Score_max a c)).
Proof. score_crush. Qed.

Lemma Score_min_swap_eq (a b c : Score) :
  Score_eq (Score_min a (Score_min b c)) (Score_min b (Score_min a c)).
Proof. score_crush. Qed.

Lemma Score_max_cong (a a' c c' : Score) :
  Score_eq a a' → Score_eq c c' → Score_eq (Score_max a c) (Score_max a' c').
Proof. score_crush. Qed.

Lemma Score_min_cong (a a' c c' : Score) :
  Score_eq a a' → Score_eq c c' → Score_eq (Score_min a c) (Score_min a' c').
Proof. score_crush. Qed.

Section FoldScores.

Variable op : Score → Score → Score.
Variable unit_value : Score.
Hypothesis op_swap : ∀ a b c, Score_eq (op a (op b c)) (op b (op a c)).
Hypothesis op_cong : ∀ a a' c c',
  Score_eq a a' → Score_eq c c' → Score_eq (op a c) (op a' c').

Lemma foldr_Score_Forall2 (l l' : list Score) :
  Forall2 Score_eq l l' →
  Score_eq (foldr op unit_value l) (foldr op unit_value l').
Proof.
  induction 1 as [|x y l l' Hxy _ IH]; simpl; [apply Score_eq_refl|].
  by apply op_cong.
Qed.

Lemma foldr_Score_Permutation (l l' : list Score) :
  l ≡ₚ l' → Score_eq (foldr op unit_value l) (foldr op unit_value l').
Proof.
  induction 1 as [|x l l' _ IH|x y l|l l' l'' _ IH1 _ IH2]; simpl.
  - apply Score_eq_refl.
  - apply op_cong; [apply Score_eq_refl | done].
  - apply op_swap.
  - by eapply Score_eq_trans.
Qed.

End FoldScores.

Lemma foldr_add_Permutation (l l' : list Z) :
  l ≡ₚ l' → foldr Z.add 0 l = foldr Z.add 0 l'.
Proof.
  induction 1 as [|x l l' _ IH|x y l|l l' l'' _ IH1 _ IH2]; simpl; lia.
Qed.

Section Ordering.

Variable heuristic : TreeNode → Q.

Lemma _sort_nodes_Permutation (nodes sorted : list TreeNode) (reverse : bool) :
  _sort_nodes nodes reverse = Some sorted → sorted ≡ₚ nodes.
Proof.
  intros H. apply _sort_nodes_Some in H as (i & key & Hkey & -> & _).
  symmetry. by apply delete_Permutation.
Qed.

(** What [traverse_ordered] does at one node. *)
Lemma traverse_ordered_step (fuel : nat) (node node' : TreeNode) :
  traverse_ordered (S fuel) node = Some node' →
  ∃ sorted cs,
    sorted ≡ₚ children node
    ∧ Forall2 (fun c c' => traverse_ordered fuel c = Some c') sorted cs
    ∧ node' = set_children node cs.
Proof.
  cbn [traverse_ordered]. intros H.
  destruct (children node) as [|first rest] eqn:Hcs.
  - cbn in H. injection H as <-. exists [], []. by repeat split.
  - destruct (if max first then _ else _) as [sorted|] eqn:Hs; [|done].
    cbn [mbind option_bind] in H.
    destruct (mapM (traverse_ordered fuel) sorted) as [cs|] eqn:Hm; [|done].
    cbn [mbind option_bind] in H. injection H as <-.
    exists sorted, cs. split; [|split; [by apply mapM_Some_1 | done]].
    destruct (max first); by eapply _sort_nodes_Permutation.
Qed.

Lemma traverse_ordered_preserves (fuel : nat) :
  ∀ node node',
    traverse_ordered fuel node = Some node' →
    Score_eq (optimal_value heuristic node') (optimal_value heuristic node)
    ∧ leaf_count node' = leaf_count node.
Proof.
  induction fuel as [|fuel IH]; intros node node' H; [done|].
  apply traverse_ordered_step in H as (sorted & cs & Hperm & Hall & ->).
  destruct node as [id g mv s1 s2 children0 mx d].
  unfold set_children. cbn [node_id game move e1 e2 max depth children] in *.
  destruct children0 as [|c0 rest0].
  { apply Permutation_nil_r in Hperm as ->. apply Forall2_nil_inv_l in Hall as ->.
    split; [apply Score_eq_refl | done]. }
  assert (Hov : Forall2 Score_eq (map (optimal_value heuristic) cs)
                                 (map (optimal_value heuristic) sorted)).
  { clear Hperm. induction Hall as [|x y l l' Hxy _ IHl]; simpl; constructor;
      [by apply (IH x y) | done]. }
  assert (Hlc : map leaf_count cs = map leaf_count sorted).
  { clear Hperm Hov. induction Hall as [|x y l l' Hxy _ IHl]; simpl; [done|].
    f_equal; [by apply (IH x y) | done]. }
  destruct cs as [|c1 cs1].
  { apply Forall2_nil_inv_r in Hall as ->. by apply Permutation_nil_cons in Hperm. }
  cbn [optimal_value leaf_count]. split.
  - destruct mx.
    + eapply Score_eq_trans;
        [apply (foldr_Score_Forall2 Score_max NegInf Score_max_cong _ _ Hov)|].
      apply (foldr_Score_Permutation Score_max NegInf Score_max_swap_eq Score_max_cong).
      by apply Permutation_map.
    + eapply Score_eq_trans;
        [apply (foldr_Score_Forall2 Score_min PosInf Score_min_cong _ _ Hov)|].
      apply (foldr_Score_Permutation Score_min PosInf Score_min_swap_eq Score_min_cong).
      by apply Permutation_map.
  - rewrite Hlc. apply foldr_add_Permutation. by apply Permutation_map.
Qed.

End Ordering.

Lemma scored_children (node c : TreeNode) :
  scored node → c ∈ children node → is_Some (e1 c) ∧ scored c.
Proof.
  destruct node as [id g mv s1 s2 cs mx d]. cbn [scored children].
  induction cs as [|x cs IH]; intros Hs Hc; [by inversion Hc|].
  cbn [foldr] in Hs. destruct Hs as (He & Hx & Hrest).
  apply elem_of_cons in Hc as [->|Hc]; [done | by apply IH].
Qed.

Lemma height_children (node c : TreeNode) :
  c ∈ children node → (height c < height node)%nat.
Proof.
  destruct node as [id g mv s1 s2 cs mx d]. cbn [height children].
  induction cs as [|x cs IH]; intros Hc; [by inversion Hc|].
  cbn [map foldr]. apply elem_of_cons in Hc as [->|Hc]; [lia|].
  specialize (IH Hc). lia.
Qed.

Lemma traverse_ordered_total (fuel : nat) :
  ∀ node, scored node → (height node <= fuel)%nat →
          is_Some (traverse_ordered fuel node).
Proof.
  induction fuel as [|fuel IH]; intros node Hs Hh.
  { destruct node; simpl in Hh; lia. }
  cbn [traverse_ordered].
  assert (Hsorted : ∃ sorted,
            match children node with
            | [] => Some []
            | first :: _ =>
                if max first then _sort_nodes (children node) false
                else _sort_nodes (children node) true
            end = Some sorted ∧ ∀ x, x ∈ sorted → x ∈ children node).
  { destruct (children node) as [|first rest] eqn:Hcs.
    - exists []. split; [done|]. by intros x Hx.
    - assert (Hsome : ∀ reverse, is_Some (_sort_nodes (first :: rest) reverse)).
      { intros reverse.
        destruct (_sort_nodes (first :: rest) reverse) eqn:E; [by eexists|].
        apply _sort_nodes_None in E as [?|[_ (x & Hx & He)]]; [done|].
        rewrite <- Hcs in Hx. destruct (scored_children node x Hs Hx) as [[k Hk] _].
        congruence. }
      destruct (max first).
      + destruct (Hsome false) as [sorted Hsorted]. exists sorted. split; [done|].
        intros x Hx. by rewrite <- (_sort_nodes_Permutation _ _ _ Hsorted).
      + destruct (Hsome true) as [sorted Hsorted]. exists sorted. split; [done|].
        intros x Hx. by rewrite <- (_sort_nodes_Permutation _ _ _ Hsorted). }
  destruct Hsorted as (sorted & -> & Hin). cbn [mbind option_bind].
  assert (Hm : is_Some (mapM (traverse_ordered fuel) sorted)).
  { apply mapM_is_Some, Forall_forall. intros x Hx. apply Hin in Hx.
    apply IH; [by apply (scored_children node x) |].
    pose proof (height_children node x Hx). lia. }
  destruct Hm as [cs ->]. by eexists.
Qed.

Example scored_tree_ordered :
  traverse_ordered 3 scored_tree
  = Some (mkTreeNode 0 initial_game None None None
            [ mkTreeNode 2 initial_game None (Some (Num 7)) None
                [scored_leaf 2; scored_leaf 9; scored_leaf 7] false 2
            ; mkTreeNode 1 initial_game None (Some (Num 3)) None
                [scored_leaf 3; scored_leaf 5] false 2 ]
            true 1).
Proof. vm_compute. reflexivity. Qed.

(** X25.  When [_sort_nodes] returns, the list is the given one with one
    node moved to the front and the others in their order; that node is the
    first one of extreme [e1]: no other node is better (greater for
    [reverse], smaller otherwise) and the ones before it are worse. *)
Theorem sort_nodes_moves_first_extreme_to_front
    (nodes sorted : list TreeNode) (reverse : bool) :
  _sort_nodes nodes reverse = Some sorted →
  ∃ i key,
    nodes !! i = Some key ∧ sorted = key :: delete i nodes
    ∧ ∀ j x, nodes !! j = Some x → j ≠ i →
             ∃ k kx, e1 key = Some k ∧ e1 x = Some kx
                     ∧ key_le reverse kx k
                     ∧ ((j < i)%nat → key_lt reverse kx k).
Proof. apply _sort_nodes_Some. Qed.

Lemma sort_nodes_moves_first_extreme_to_front_witness :
  ∃ sorted,
    _sort_nodes (children scored_tree) true = Some sorted
    ∧ ∃ i key,
        children scored_tree !! i = Some key
        ∧ sorted = key :: delete i (children scored_tree)
        ∧ ∀ j x, children scored_tree !! j = Some x → j ≠ i →
                 ∃ k kx, e1 key = Some k ∧ e1 x = Some kx
                         ∧ key_le true kx k
                         ∧ ((j < i)%nat → key_lt true kx k).
Proof.
  eexists. split; [reflexivity|].
  exact (sort_nodes_moves_first_extreme_to_front (children scored_tree) _ true
           eq_refl).
Defined.

(** X26.  [_sort_nodes] raises exactly on an empty list (ValueError) and on
    a list of two or more nodes one of which has no [e1] (TypeError); a
    single node is returned without a look at its [e1]. *)
Theorem sort_nodes_raises_iff (nodes : list TreeNode) (reverse : bool) :
  _sort_nodes nodes reverse = None
  ↔ nodes = [] ∨ ((2 <= length nodes)%nat ∧ ∃ x, x ∈ nodes ∧ e1 x = None).
Proof. apply _sort_nodes_None. Qed.

Section OrderedSearch.

Variable heuristic : TreeNode → Q.

(** X27.  [Tree.traverse_ordered] reorders children and nothing else: the
    tree it leaves has the same number of leaves and the same optimal value
    as the tree it was given. *)
Theorem traverse_ordered_keeps_value (fuel : nat) (node node' : TreeNode) :
  traverse_ordered fuel node = Some node' →
  Score_eq (optimal_value heuristic node') (optimal_value heuristic node)
  ∧ leaf_count node' = leaf_count node
  ∧ node_id node' = node_id node ∧ max node' = max node
  ∧ length (children node') = length (children node).
Proof.
  intros H.
  destruct (traverse_ordered_preserves heuristic fuel node node' H) as [Hv Hl].
  split; [done|]. split; [done|].
  destruct fuel as [|fuel]; [done|].
  apply traverse_ordered_step in H as (sorted & cs & Hperm & Hall & ->).
  split; [done|]. split; [done|]. cbn [set_children children].
  by rewrite <- (Forall2_length _ _ _ Hall), Hperm.
Qed.

(** X28.  The sequence of [suggest_move] under the alpha-beta option,
    [traverse_ordered] and then [alpha_beta_pruning]: on a tree whose nodes
    below the root all carry an [e1], the ordering returns, and the search on
    the ordered tree returns the optimal value of the tree as it was, after
    evaluating no more leaves than the tree has. *)
Theorem ordered_alpha_beta_value (fuel : nat) (node : TreeNode) (st : Counters) :
  scored node → (height node <= fuel)%nat →
  ∃ node',
    traverse_ordered fuel node = Some node'
    ∧ let r := alpha_beta_pruning heuristic node' st in
      Score_eq (result_value r) (optimal_value heuristic node)
      ∧ total_evals st <= total_evals (result_counters r)
                       <= total_evals st + leaf_count node.
Proof.
  intros Hs Hh. destruct (traverse_ordered_total fuel node Hs Hh) as [node' Hn].
  exists node'. split; [done|]. cbv zeta.
  destruct (traverse_ordered_preserves heuristic fuel node node' Hn) as [Hv Hl].
  split.
  - eapply Score_eq_trans; [|exact Hv].
    destruct (optimal_value_finite heuristic node') as [q Hq].
    eapply window_full; [exact Hq|]. by apply alpha_beta_window.
  - rewrite <- Hl. apply alpha_beta_count.
Qed.

End OrderedSearch.

Lemma traverse_ordered_keeps_value_witness :
  ∃ node',
    traverse_ordered 3 scored_tree = Some node'
    ∧ Score_eq (optimal_value score_by_id node') (optimal_value score_by_id scored_tree)
    ∧ leaf_count node' = leaf_count scored_tree
    ∧ node_id node' = node_id scored_tree ∧ max node' = max scored_tree
    ∧ length (children node') = length (children scored_tree).
Proof.
  eexists. split; [exact scored_tree_ordered|].
  exact (traverse_ordered_keeps_value score_by_id 3 scored_tree _ scored_tree_ordered).
Defined.

Lemma ordered_alpha_beta_value_witness :
  ∃ node',
    traverse_ordered 3 scored_tree = Some node'
    ∧ let r := alpha_beta_pruning score_by_id node' (mkCounters 0 ∅) in
      Score_eq (result_value r) (optimal_value score_by_id scored_tree)
      ∧ 0 <= total_evals (result_counters r) <= 0 + leaf_count scored_tree.
Proof.
  apply (ordered_alpha_beta_value score_by_id 3 scored_tree (mkCounters 0 ∅)).
  - cbn. repeat split; by eexists.
  - vm_compute. lia.
Defined.

(** ** Generating the children of a node: [generate_unit_moves] *)

Lemma add_node_below (self : Tree) id game move e1 e2 (p : Z) (t' : Tree) :
  add_node self id game move e1 e2 (Some p) = Some t' →
  ∃ l n d,
    id ≠ p ∧ nodes self !! p = Some l ∧ objects self !! l = Some n
    ∧ obj_depth n = Some d
    ∧ nodes t' = <[id := length (objects self)]> (nodes self)
    ∧ objects t'
      = <[l := append_child n (length (objects self))]> (objects self)
        ++ [mkNodeObject id game move e1 e2 [] (negb (obj_max n)) (Some (d + 1))].
Proof.
  unfold add_node.
  destruct (nodes self !! p) as [l|] eqn:Hl; [|done]. simpl.
  destruct (objects self !! l) as [n|] eqn:Hn; [|done]. simpl.
  pose proof (lookup_lt_Some _ _ _ Hn) as Hlt.
  rewrite lookup_insert.
  destruct (decide (id = p)) as [-> | Hne]; simpl.
  { rewrite list_lookup_middle by done. simpl. done. }
  rewrite Hl. simpl. rewrite lookup_app_l, Hn by done. simpl.
  destruct (obj_depth n) as [d|] eqn:Hd; [|done]. simpl.
  rewrite list_lookup_insert_ne by lia.
  rewrite lookup_app_l, Hn by done. simpl.
  intros [= <-]. simpl. exists l, n, d. repeat split; try done.
  rewrite insert_app_r_alt by lia. rewrite Nat.sub_diag. simpl.
  by rewrite insert_app_l.
Qed.

Lemma ai_move_accepted (g : Game) (mv : CoordPair) (r : bool * string) (g1 : Game) :
  (is_valid_move g mv).1.1 = true → ai_move g mv = Some (r, g1) → r.1 = true.
Proof.
  unfold ai_move.
  destruct (is_valid_move g mv) as [[is_valid move_type] error] eqn:H.
  simpl. intros ->.
  destruct (is_valid_move_types _ _ _ _ H) as [-> | [-> | [-> | ->]]]; simpl.
  - by intros [= <- _].
  - destruct (perform_attack g mv); [|done]. by intros [= <- _].
  - destruct (perform_repair g mv); [|done]. by intros [= <- _].
  - destruct (perform_self_destruction g mv); [|done]. by intros [= <- _].
Qed.

(** The rejection "engaged in combat" is only given for a destination that
    holds no unit of the other side. *)
Lemma is_valid_move_engaged (g : Game) (mv : CoordPair)
    (result : bool) (move_type : string) :
  is_valid_move g mv
  = (result, move_type, Some "Sorry, this player is engaged in combat.") →
  (∀ d, get g (dst mv) = Some d → player d = next_player g)
  ∧ is_valid_move g (mkCoordPair (src mv) (src mv)) = (true, "self-destruct", None).
Proof.
  intros H. unfold is_valid_move in H.
  repeat ivm_step H.
  all: try (destruct (next_player g); discriminate H).
  all: try (destruct (get g (dst mv)) as [[[] ? ?]|]; discriminate H).
  all: try (destruct (type u) ; discriminate H).
  all: ivm_facts.
  all: try discriminate H.
  split.
  - intros d Hd.
    destruct (get_Some_valid _ _ _ Hd) as [_ He]. rewrite He, Hd in E7.
    simpl in E7. apply negb_false_iff, Player_eqb_eq in E7. congruence.
  - unfold is_valid_move. cbn [src dst]. rewrite H0. cbn [negb orb or_continue].
    rewrite E0, E1. cbn [negb orb andb or_continue].
    assert (Player_eqb (player u) (next_player g) = true) as ->
      by (by apply Player_eqb_eq).
    by rewrite Coord_eqb_refl.
Qed.

Lemma added_nodes_refl (t : Tree) : added_nodes t t = [].
Proof. unfold added_nodes. by rewrite drop_all. Qed.

Section Generation.

Variables (self g : Game) (coord : Coord) (p : Z) (l : nat).
Variables (t0 : Tree) (id0 : Z).

Lemma generating_start (dsts : list Coord) :
  parent_game t0 (Some p) = Some g → nodes t0 !! p = Some l →
  generating self g coord p l t0 id0 dsts t0 id0.
Proof.
  intros Hg Hl. unfold generating. rewrite added_nodes_refl. simpl.
  assert (l < length (objects t0))%nat.
  { unfold parent_game in Hg. simpl in Hg. rewrite Hl in Hg. simpl in Hg.
    destruct (objects t0 !! l) eqn:E; [|done]. by eapply lookup_lt_Some. }
  repeat split; try done; try lia.
Qed.

Lemma generating_weaken (dsts dsts' : list Coord) (t : Tree) (id : Z) :
  (∀ c, c ∈ dsts → c ∈ dsts') →
  generating self g coord p l t0 id0 dsts t id →
  generating self g coord p l t0 id0 dsts' t id.
Proof.
  intros Hsub (Hg & Hl & Hlt & Hle & Hid & Hall).
  repeat split; try done; try (by apply (Hall i o)).
  destruct (Hall i o H) as [_ (mv & r & g1 & Hmv & Hsrc & Hdst & Hrest)].
  exists mv, r, g1. repeat split; try tauto. by apply Hsub.
Qed.

Lemma add_state_generating (dsts : list Coord) (mv : CoordPair)
    (t : Tree) (id : Z) (t' : Tree) (id' : Z) :
  generating self g coord p l t0 id0 dsts t id →
  src mv = coord → dst mv ∈ dsts → (is_valid_move g mv).1.1 = true →
  add_state self (Some p) mv t id = Some (t', id') →
  generating self g coord p l t0 id0 dsts t' id'
  ∧ length (added_nodes t0 t') = S (length (added_nodes t0 t)).
Proof.
  intros (Hg & Hl & Hlt & Hle & Hid & Hall) Hsrc Hdst Hvalid.
  unfold add_state. rewrite Hg. cbn [mbind option_bind]. unfold clone.
  destruct (ai_move g mv) as [[r g1]|] eqn:Hai; [|done].
  cbn [mbind option_bind snd].
  destruct (add_node t id _ _ _ _ _) as [t1|] eqn:Hadd; [|done].
  cbn [mbind option_bind]. intros [= <- <-].
  apply add_node_below in Hadd
    as (l' & n & d & Hne & Hl' & Hn & Hd & Hnodes & Hobjs).
  assert (l' = l) as -> by congruence.
  assert (Hadded : added_nodes t0 t1
                   = added_nodes t0 t
                     ++ [mkNodeObject id (next_turn g1) (Some mv)
                           (if alpha_beta (options self)
                            then Some (Num (heuristic_1 (next_turn g1))) else None)
                           None [] (negb (obj_max n)) (Some (d + 1))]).
  { unfold added_nodes. rewrite Hobjs.
    rewrite drop_app_le by (by rewrite length_insert).
    by rewrite drop_insert_lt by done. }
  split.
  - unfold generating. rewrite Hadded, length_app. cbn [length].
    split.
    { unfold parent_game in *. cbn [mbind option_bind] in *.
      rewrite Hnodes, lookup_insert_ne by done. rewrite Hl in *.
      cbn [mbind option_bind] in *. rewrite Hobjs.
      rewrite lookup_app_l by (rewrite length_insert; lia).
      rewrite list_lookup_insert_eq by (by eapply lookup_lt_Some).
      rewrite Hn in Hg. by cbn in *. }
    split; [by rewrite Hnodes, lookup_insert_ne|].
    split; [done|].
    split; [rewrite Hobjs, length_app, length_insert; lia|].
    split; [lia|].
    intros i o Ho. apply lookup_snoc_Some in Ho as [[Hi Ho]|[-> ->]].
    + by apply Hall.
    + split; [cbn; lia|].
      exists mv, r, g1. cbn. repeat split; try done.
      by eapply ai_move_accepted.
  - rewrite Hadded, length_app. cbn. lia.
Qed.

Lemma unit_moves_loop_generating (dsts : list Coord) (ds : list (Z * Z)) :
  (∀ d, d ∈ ds → mkCoord (row coord + d.1) (col coord + d.2) ∈ dsts) →
  ∀ inCombat count t id inCombat' count' t' id',
    generating self g coord p l t0 id0 dsts t id →
    unit_moves_loop self coord (Some p) ds (inCombat, count, t, id)
    = Some (inCombat', count', t', id') →
    generating self g coord p l t0 id0 dsts t' id'
    ∧ (length (added_nodes t0 t') <= length (added_nodes t0 t) + length ds)%nat
    ∧ (g = self → count' = count)
    ∧ (inCombat' = true →
       inCombat = true
       ∨ is_valid_move g (mkCoordPair coord coord) = (true, "self-destruct", None)).
Proof.
  induction ds as [|[dx dy] ds IH];
    intros Hsub inCombat count t id inCombat' count' t' id' Hgen Hloop.
  { simpl in Hloop. injection Hloop as <- <- <- <-.
    split; [done|]. split; [lia|]. split; [done | by left]. }
  cbn [unit_moves_loop] in Hloop.
  pose proof Hgen as (Hg & _). rewrite Hg in Hloop. cbn [mbind option_bind] in Hloop.
  set (new_coord := mkCoord (row coord + dx) (col coord + dy)) in *.
  set (next_move := mkCoordPair coord new_coord) in *.
  destruct (is_valid_move g next_move) as [[result move_type] invalidMove] eqn:Hv.
  assert (Hcount : g = self →
            (if match invalidMove with
                | Some msg => String.eqb msg "Sorry, this player is engaged in combat."
                | None => false
                end
             then match get self new_coord with
                  | Some unit =>
                      if negb (Player_eqb (player unit) (next_player self))
                      then count + 1 else count
                  | None => count
                  end
             else count) = count).
  { intros <-. destruct invalidMove as [msg|]; [|done].
    destruct (String.eqb msg _) eqn:Hmsg; [|done].
    apply String.eqb_eq in Hmsg as ->.
    destruct (get g new_coord) as [unit|] eqn:Hu; [|done].
    rewrite (proj1 (is_valid_move_engaged g next_move _ _ Hv) unit Hu).
    assert (Player_eqb (next_player g) (next_player g) = true) as ->
      by (by apply Player_eqb_eq).
    done. }
  assert (Hcombat : (if match invalidMove with
                         | Some msg =>
                             String.eqb msg "Sorry, this player is engaged in combat."
                         | None => false
                         end
                      then true else inCombat) = true →
            inCombat = true
            ∨ is_valid_move g (mkCoordPair coord coord)
              = (true, "self-destruct", None)).
  { destruct invalidMove as [msg|]; [|by left].
    destruct (String.eqb msg _) eqn:Hmsg; [|by left].
    apply String.eqb_eq in Hmsg as ->. intros _. right.
    apply (proj2 (is_valid_move_engaged g next_move _ _ Hv)). }
  assert (Hin : new_coord ∈ dsts) by (apply (Hsub (dx, dy)); by left).
  assert (Hsub' : ∀ d, d ∈ ds → mkCoord (row coord + d.1) (col coord + d.2) ∈ dsts)
    by (intros d Hd; apply Hsub; by right).
  destruct result.
  - destruct (add_state self (Some p) next_move t id) as [[t1 id1]|] eqn:Hadd;
      [|done].
    cbn [mbind option_bind fst snd] in Hloop.
    destruct (add_state_generating dsts next_move t id t1 id1 Hgen)
      as [Hgen1 Hlen1]; [done | done | by rewrite Hv | done |].
    destruct (IH Hsub' _ _ _ _ _ _ _ _ Hgen1 Hloop) as (Hgen' & Hlen' & Hc' & Hi').
    split; [done|]. split; [cbn [length]; lia|]. split.
    + intros Heq. rewrite (Hc' Heq). by apply Hcount.
    + intros Ht. destruct (Hi' Ht) as [Hi|Hi]; [by apply Hcombat | by right].
  - cbn [mbind option_bind fst snd] in Hloop.
    destruct (IH Hsub' _ _ _ _ _ _ _ _ Hgen Hloop) as (Hgen' & Hlen' & Hc' & Hi').
    split; [done|]. split; [cbn [length]; lia|]. split.
    + intros Heq. rewrite (Hc' Heq). by apply Hcount.
    + intros Ht. destruct (Hi' Ht) as [Hi|Hi]; [by apply Hcombat | by right].
Qed.

End Generation.


Lemma tried_cells_not_self (coord : Coord) : coord ∉ tried_cells coord.
Proof.
  destruct coord as [r c]. unfold tried_cells, directions. cbn.
  rewrite !elem_of_cons, elem_of_nil.
  intros [H|[H|[H|[H|[]]]]]; injection H; lia.
Qed.

(** The two ways in which [generate_unit_moves] returns: at once, the time
    limit being exceeded, or after the loop, with or without the node of the
    self-destruction. *)
Lemma generate_unit_moves_outcome (self g : Game) (coord : Coord) (p : Z)
    (elapsed_time time_ratio : float) (globals globals' : Globals) :
  parent_game (tree globals) (Some p) = Some g →
  generate_unit_moves self coord (Some p) elapsed_time time_ratio globals
  = Some globals' →
  (tree globals' = tree globals ∧ ID globals' = ID globals)
  ∨ ∃ l inCombat count t id,
      nodes (tree globals) !! p = Some l
      ∧ generating self g coord p l (tree globals) (ID globals)
          (tried_cells coord) t id
      ∧ (length (added_nodes (tree globals) t) <= 4)%nat
      ∧ (g = self → count = 0)
      ∧ ((tree globals' = t ∧ ID globals' = id
          ∧ (inCombat = true →
             ∃ unit, get self coord = Some unit
                     ∧ (health unit <? 3) || (1 <? count) = false))
         ∨ (∃ unit, get self coord = Some unit
                    ∧ (health unit <? 3) || (1 <? count) = true)
           ∧ is_valid_move g (mkCoordPair coord coord)
             = (true, "self-destruct", None)
           ∧ add_state self (Some p) (mkCoordPair coord coord) t id
             = Some (tree globals', ID globals')).
Proof.
  intros Hg. unfold generate_unit_moves, check_time_limit.
  destruct (_ <? elapsed_time)%float; cbn [time_limit_exceeded].
  { intros [= <-]. by left. }
  destruct (time_limit_exceeded globals) eqn:Hflag.
  { intros [= <-]. by left. }
  destruct (unit_moves_loop _ _ _ _ _) as [[[[inCombat count] t] id]|] eqn:Hloop;
    [|done].
  intros Hres. right.
  assert (∃ l, nodes (tree globals) !! p = Some l) as [l Hl].
  { unfold parent_game in Hg. cbn [mbind option_bind] in Hg.
    destruct (nodes (tree globals) !! p) as [l|]; [by exists l | done]. }
  exists l, inCombat, count, t, id. split; [done|].
  destruct (unit_moves_loop_generating self g coord p l (tree globals) (ID globals)
              (tried_cells coord) directions
              ltac:(intros d Hd; unfold tried_cells;
                    by apply (list_elem_of_fmap_2
                                (fun d => mkCoord (row coord + d.1) (col coord + d.2))))
              _ _ _ _ _ _ _ _
              (generating_start self g coord p l (tree globals) (ID globals)
                 (tried_cells coord) Hg Hl) Hloop)
    as (Hgen & Hlen & Hcount & Hcombat).
  rewrite added_nodes_refl in Hlen. cbn [length directions] in Hlen.
  split; [done|]. split; [lia|]. split; [done|].
  destruct inCombat.
  - destruct (Hcombat eq_refl) as [?|Hsd]; [done|].
    destruct (get self coord) as [unit|] eqn:Hu; [|done].
    cbn [mbind option_bind] in Hres.
    destruct ((health unit <? 3) || (1 <? count)) eqn:Hweak.
    + right. destruct (add_state _ _ _ _ _) as [[t1 id1]|]; [|done].
      cbn [mbind option_bind fst snd] in Hres. injection Hres as <-.
      split; [by exists unit|]. done.
    + left. injection Hres as <-. repeat split; try done. intros _. by exists unit.
  - left. injection Hres as <-. by repeat split.
Qed.

(** X29.  The nodes that one call of [generate_unit_moves] adds for the unit
    at [coord], below a registered parent: at most five; they get the ids
    [ID], [ID + 1], ... and [ID] is left at the next free one; each holds a
    move from [coord], to itself or to one of the four cells tried, that the
    parent's state accepts, together with the state after that move and the
    change of turn.  The parent keeps its state.  When the time limit is
    exceeded, at this call or an earlier one, nothing is added: the tree and
    [ID] are as they were, and the flag is set. *)
Theorem generate_unit_moves_adds_successors (self g : Game) (coord : Coord) (p : Z)
    (elapsed_time time_ratio : float) (globals globals' : Globals) :
  parent_game (tree globals) (Some p) = Some g →
  generate_unit_moves self coord (Some p) elapsed_time time_ratio globals
  = Some globals' →
  let added := added_nodes (tree globals) (tree globals') in
  parent_game (tree globals') (Some p) = Some g
  ∧ ID globals' = ID globals + Z.of_nat (length added)
  ∧ (length added <= 5)%nat
  ∧ (∀ (i : nat) o, added !! i = Some o →
       obj_id o = ID globals + Z.of_nat i
       ∧ explores self g coord (coord :: tried_cells coord) o)
  ∧ ((time_ratio * max_time (options self) <? elapsed_time)%float = true
     ∨ time_limit_exceeded globals = true →
     tree globals' = tree globals ∧ ID globals' = ID globals
     ∧ time_limit_exceeded globals' = true).
Proof.
  intros Hg Hres. cbv zeta.
  assert (Hlimit : (time_ratio * max_time (options self) <? elapsed_time)%float = true
                   ∨ time_limit_exceeded globals = true →
                   tree globals' = tree globals ∧ ID globals' = ID globals
                   ∧ time_limit_exceeded globals' = true).
  { clear Hg. unfold generate_unit_moves, check_time_limit in Hres.
    intros Hexceeded.
    destruct (_ <? elapsed_time)%float; cbn [time_limit_exceeded] in Hres.
    { by injection Hres as <-. }
    destruct Hexceeded as [? | Hflag]; [done|]. rewrite Hflag in Hres.
    injection Hres as <-. done. }
  enough (parent_game (tree globals') (Some p) = Some g
          ∧ ID globals'
            = ID globals
              + Z.of_nat (length (added_nodes (tree globals) (tree globals')))
          ∧ (length (added_nodes (tree globals) (tree globals')) <= 5)%nat
          ∧ (∀ (i : nat) o, added_nodes (tree globals) (tree globals') !! i = Some o →
               obj_id o = ID globals + Z.of_nat i
               ∧ explores self g coord (coord :: tried_cells coord) o))
    as (? & ? & ? & ?) by done.
  destruct (generate_unit_moves_outcome _ _ _ _ _ _ _ _ Hg Hres)
    as [[Ht Hid] | (l & inCombat & count & t & id & Hl & Hgen & Hlen & _ & Hout)].
  { rewrite Ht, Hid, added_nodes_refl. cbn [length].
    split; [done|]. split; [lia|]. split; [lia|].
    intros i o Ho. by rewrite lookup_nil in Ho. }
  apply (generating_weaken self g coord p l (tree globals) (ID globals)
           (tried_cells coord) (coord :: tried_cells coord)) in Hgen;
    [|intros c Hc; by right].
  assert (generating self g coord p l (tree globals) (ID globals)
            (coord :: tried_cells coord) (tree globals') (ID globals')
          ∧ (length (added_nodes (tree globals) (tree globals')) <= 5)%nat)
    as [(Hg' & _ & _ & _ & Hid' & Hall) Hlen'].
  { destruct Hout as [(-> & -> & _) | (_ & Hsd & Hadd)]; [split; [done | lia]|].
    destruct (add_state_generating self g coord p l (tree globals) (ID globals)
                (coord :: tried_cells coord) (mkCoordPair coord coord)
                t id (tree globals') (ID globals') Hgen)
      as [Hgen' Hlen']; [done | by left | by rewrite Hsd | done |].
    split; [done | lia]. }
  done.
Qed.

Lemma generate_unit_moves_adds_successors_witness :
  ∃ globals',
    generate_unit_moves cornered_game (mkCoord 1 1) (Some 0) 0 0.25
      (start_globals cornered_game) = Some globals'
    ∧ let added := added_nodes (tree (start_globals cornered_game)) (tree globals') in
      parent_game (tree globals') (Some 0) = Some cornered_game
      ∧ ID globals' = ID (start_globals cornered_game) + Z.of_nat (length added)
      ∧ (length added <= 5)%nat
      ∧ (∀ (i : nat) o, added !! i = Some o →
           obj_id o = ID (start_globals cornered_game) + Z.of_nat i
           ∧ explores cornered_game cornered_game (mkCoord 1 1)
               (mkCoord 1 1 :: tried_cells (mkCoord 1 1)) o)
      ∧ ((0.25 * max_time (options cornered_game) <? 0)%float = true
         ∨ time_limit_exceeded (start_globals cornered_game) = true →
         tree globals' = tree (start_globals cornered_game)
         ∧ ID globals' = ID (start_globals cornered_game)
         ∧ time_limit_exceeded globals' = true).
Proof.
  eexists. split; [vm_compute; reflexivity|].
  apply (generate_unit_moves_adds_successors cornered_game cornered_game
           (mkCoord 1 1) 0 0 0.25 (start_globals cornered_game)).
  - vm_compute. reflexivity.
  - vm_compute. reflexivity.
Defined.

(** Two seconds after the start, with a ratio of 0.25 of the default 5.0
    seconds, the limit of 1.25 seconds is exceeded: the call only sets the
    flag. *)
Example generate_unit_moves_after_the_limit :
  generate_unit_moves cornered_game (mkCoord 1 1) (Some 0) 2 0.25
    (start_globals cornered_game)
  = Some (mkGlobals (root_tree cornered_game) 1 true).
Proof. reflexivity. Qed.

(** X30.  The test [count > 1] of [generate_unit_moves] never decides: when
    the method is called on the state of the parent node, as
    [generate_game_states] calls it, [count] is still 0 after the loop, since
    a move is only rejected as "engaged in combat" when its destination holds
    no unit of the other side.  So a node for the self-destruction of the
    unit at [coord] is only ever added when that unit's health is below 3. *)
Theorem self_destruct_explored_only_below_3 (self : Game) (coord : Coord) (p : Z)
    (elapsed_time time_ratio : float) (globals globals' : Globals) (o : NodeObject) :
  parent_game (tree globals) (Some p) = Some self →
  generate_unit_moves self coord (Some p) elapsed_time time_ratio globals
  = Some globals' →
  o ∈ added_nodes (tree globals) (tree globals') →
  obj_move o = Some (mkCoordPair coord coord) →
  ∃ unit, get self coord = Some unit ∧ health unit < 3.
Proof.
  intros Hg Hres Ho Hmv.
  destruct (generate_unit_moves_outcome _ _ _ _ _ _ _ _ Hg Hres)
    as [[Ht Hid] | (l & inCombat & count & t & id & Hl & Hgen & Hlen & Hc & Hout)].
  { rewrite Ht, added_nodes_refl in Ho. by apply elem_of_nil in Ho. }
  rewrite (Hc eq_refl) in Hout.
  destruct Hout as [(Ht & _ & _) | ((unit & Hu & Hweak) & _)].
  - rewrite Ht in Ho. apply list_elem_of_lookup_1 in Ho as [i Hi].
    destruct Hgen as (_ & _ & _ & _ & _ & Hall).
    destruct (Hall i o Hi) as [_ (mv & r & g1 & Hmv' & Hsrc & Hdst & _)].
    rewrite Hmv in Hmv'. injection Hmv' as <-. cbn [dst] in Hdst.
    by apply tried_cells_not_self in Hdst.
  - exists unit. split; [done|].
    rewrite orb_false_r in Hweak. by apply Z.ltb_lt.
Qed.

Lemma self_destruct_explored_only_below_3_witness :
  ∃ globals' o,
    generate_unit_moves cornered_game (mkCoord 1 1) (Some 0) 0 0.25
      (start_globals cornered_game) = Some globals'
    ∧ added_nodes (tree (start_globals cornered_game)) (tree globals') !! 2%nat
      = Some o
    ∧ obj_move o = Some (mkCoordPair (mkCoord 1 1) (mkCoord 1 1))
    ∧ ∃ unit, get cornered_game (mkCoord 1 1) = Some unit ∧ health unit < 3.
Proof.
  eexists _, _. split; [vm_compute; reflexivity|].
  split; [vm_compute; reflexivity|]. split; [vm_compute; reflexivity|].
  eapply (self_destruct_explored_only_below_3 cornered_game (mkCoord 1 1) 0 0 0.25
            (start_globals cornered_game)).
  - vm_compute. reflexivity.
  - vm_compute. reflexivity.
  - eapply list_elem_of_lookup_2 with (i := 2%nat). vm_compute. reflexivity.
  - vm_compute. reflexivity.
Defined.
